(** * htmldiff.js: a shallow embedding of [src/htmldiff.ts] and its properties

    The development follows the TypeScript source function by function:
    the tokenizer ([htmlToTokens]), the matcher ([findBestMatch],
    [getFullMatch], [findMatchingBlocks]), the operation calculator
    ([calculateOperations]) and the renderer ([wrap], [OPS],
    [renderOperations], [diff]).

    Conventions of the embedding.
    - A JavaScript string is a [string]; one [ascii] stands for one element
      of [Array.from(html)], i.e. a code point in U+0000..U+00FF.
    - A JavaScript number used as an index is a [Z]; [undefined] fields are
      [option]s.
    - A call either returns, throws, or leaves the model ([Unmodelled]: the
      fuel of a loop ran out or an array was read outside the loop guard);
      the theorems show that [Unmodelled] never happens.
    - Plain objects used as dictionaries are [gmap]s for their own
      properties, with the properties inherited from [Object.prototype]
      made explicit where the source reads [map[key]]. *)

From Stdlib Require Import ZArith List String Ascii Bool Lia DecimalString.
From stdpp Require Import gmap strings sorting.
Import ListNotations.
Local Open Scope string_scope.
Local Open Scope list_scope.
Local Open Scope Z_scope.

(** ** Completions of a call *)

Inductive JSError : Type :=
| Error (msg : string)
| TypeError (msg : string).

Inductive Result (A : Type) : Type :=
| Ok (a : A)
| Throw (e : JSError)
| Unmodelled.
Arguments Ok {A} a.
Arguments Throw {A} e.
Arguments Unmodelled {A}.

Definition bindR {A B : Type} (r : Result A) (k : A -> Result B) : Result B :=
  match r with
  | Ok a => k a
  | Throw e => Throw e
  | Unmodelled => Unmodelled
  end.

Notation "'let*' x ':=' r 'in' k" := (bindR r (fun x => k))
  (at level 10, x name, r at level 200, k at level 200).

(** ** Strings and arrays of the JavaScript runtime *)

Module JS.

(** Truthiness of a string: the empty string is falsy. *)
Definition truthy (s : string) : bool :=
  match s with EmptyString => false | String _ _ => true end.

Definition len (s : string) : Z := Z.of_nat (String.length s).

(** [Array.prototype.slice] / [String.prototype.slice] index resolution:
    a negative index counts from the end. *)
Definition relIndex (i n : Z) : Z :=
  if i <? 0 then Z.max (n + i) 0 else Z.min i n.

(** [l.slice(start, end)]. *)
Definition slice {A : Type} (l : list A) (start stop : Z) : list A :=
  let n := Z.of_nat (List.length l) in
  let k := relIndex start n in
  let f := relIndex stop n in
  firstn (Z.to_nat (f - k)) (skipn (Z.to_nat k) l).

(** [l.slice(start)]. *)
Definition sliceFrom {A : Type} (l : list A) (start : Z) : list A :=
  slice l start (Z.of_nat (List.length l)).

(** [l[i]]: [None] stands for [undefined]. *)
Definition index {A : Type} (l : list A) (i : Z) : option A :=
  if i <? 0 then None else nth_error l (Z.to_nat i).

(** [s.slice(start, end)] and [s.slice(start)] on strings. *)
Definition strSlice (s : string) (start stop : Z) : string :=
  let k := relIndex start (len s) in
  let f := relIndex stop (len s) in
  String.substring (Z.to_nat k) (Z.to_nat (f - k)) s.

Definition strSliceFrom (s : string) (start : Z) : string :=
  strSlice s start (len s).

(** [s.substring(start)]: a negative start is clamped to 0. *)
Definition substringFrom (s : string) (start : Z) : string :=
  let k := Z.min (Z.max start 0) (len s) in
  String.substring (Z.to_nat k) (String.length s - Z.to_nat k) s.

(** [s.indexOf(needle)], -1 when absent. *)
Definition indexOf (s needle : string) : Z :=
  match String.index 0 needle s with
  | Some i => Z.of_nat i
  | None => -1
  end.

(** [l.join(sep)]. *)
Definition join (sep : string) (l : list string) : string :=
  String.concat sep l.

(** Decimal rendering of an index inside a template string. *)
Definition numberToString (n : Z) : string :=
  NilZero.string_of_int (Z.to_int n).

(** The white space of [\s] and of [String.prototype.trim], restricted to
    U+0000..U+00FF: TAB, LF, VT, FF, CR, SPACE and NBSP. *)
Definition isSpaceChar (c : ascii) : bool :=
  let n := nat_of_ascii c in
  ((9 <=? n) && (n <=? 13) || (n =? 32) || (n =? 160))%nat.

(** Line terminators, which [.] does not match. *)
Definition isLineTerminator (c : ascii) : bool :=
  let n := nat_of_ascii c in ((n =? 10) || (n =? 13))%nat.

Fixpoint trimStart (s : string) : string :=
  match s with
  | String c s' => if isSpaceChar c then trimStart s' else s
  | EmptyString => EmptyString
  end.

(** [trimEnd] keeps a character when it, or something after it, is not
    white space. *)
Fixpoint trimEnd (s : string) : string :=
  match s with
  | String c s' =>
      match trimEnd s' with
      | EmptyString => if isSpaceChar c then EmptyString else String c EmptyString
      | t => String c t
      end
  | EmptyString => EmptyString
  end.

Definition trim (s : string) : string := trimEnd (trimStart s).

(** [s.split(' ')[0]]: the text before the first space. *)
Fixpoint splitSpaceFirst (s : string) : string :=
  match s with
  | String c s' => if Ascii.eqb c " " then EmptyString else String c (splitSpaceFirst s')
  | EmptyString => EmptyString
  end.

(** [s.toLowerCase()] on U+0000..U+00FF. *)
Definition lowerChar (c : ascii) : ascii :=
  let n := nat_of_ascii c in
  if ((65 <=? n) && (n <=? 90) ||
      (192 <=? n) && (n <=? 222) && negb (n =? 215))%nat
  then ascii_of_nat (n + 32) else c.

Fixpoint toLowerCase (s : string) : string :=
  match s with
  | String c s' => String (lowerChar c) (toLowerCase s')
  | EmptyString => EmptyString
  end.

End JS.

(** ** Regular expressions

    A backtracking matcher in continuation-passing style with the
    ECMAScript priorities: alternatives left to right, greedy stars, and at
    most one capture group (no expression of the source has more). *)

Module RegExp.

Inductive regex : Type :=
| Eps
| Cls (p : ascii -> bool)
| Cat (r1 r2 : regex)
| Alt (r1 r2 : regex)
| Star (r : regex)
| Grp (r : regex)
| Bol
| Eol.

Definition Plus (r : regex) : regex := Cat r (Star r).
Definition Chr (c : ascii) : regex := Cls (Ascii.eqb c).

Fixpoint Lit (s : string) : regex :=
  match s with
  | String c s' => Cat (Chr c) (Lit s')
  | EmptyString => Eps
  end.

Fixpoint Seq (rs : list regex) : regex :=
  match rs with
  | r :: rs' => Cat r (Seq rs')
  | [] => Eps
  end.

(** Character classes used by the source. *)
Definition space : regex := Cls JS.isSpaceChar.                 (* \s *)
Definition dot : regex := Cls (fun c => negb (JS.isLineTerminator c)).  (* . *)
Definition oneOf (s : string) : regex :=
  Cls (fun c => existsb (Ascii.eqb c) (list_ascii_of_string s)).
Definition noneOf (s : string) : regex :=
  Cls (fun c => negb (existsb (Ascii.eqb c) (list_ascii_of_string s))).

(** End position of the match and the text of group 1. *)
Definition outcome : Type := nat * option string.

Section Matcher.
Variable input : string.

(** [rmatch r pos rest cap k]: match [r] at offset [pos], where [rest]
    is the input from [pos] on, then continue with [k]. *)
Fixpoint rmatch (r : regex) (pos : nat) (rest : string) (cap : option string)
         (k : nat -> string -> option string -> option outcome)
         {struct r} : option outcome :=
  match r with
  | Eps => k pos rest cap
  | Cls p =>
      match rest with
      | String c rest' => if p c then k (S pos) rest' cap else None
      | EmptyString => None
      end
  | Cat r1 r2 =>
      rmatch r1 pos rest cap (fun pos' rest' cap' => rmatch r2 pos' rest' cap' k)
  | Alt r1 r2 =>
      match rmatch r1 pos rest cap k with
      | Some o => Some o
      | None => rmatch r2 pos rest cap k
      end
  | Star r' =>
      (fix star (fuel : nat) (pos : nat) (rest : string) (cap : option string)
         {struct fuel} : option outcome :=
         match fuel with
         | O => k pos rest cap
         | S fuel' =>
             match rmatch r' pos rest cap
                     (fun pos' rest' cap' =>
                        if (pos <? pos')%nat then star fuel' pos' rest' cap' else None) with
             | Some o => Some o
             | None => k pos rest cap
             end
         end) (S (String.length rest)) pos rest cap
  | Grp r' =>
      rmatch r' pos rest cap
        (fun pos' rest' _ => k pos' rest' (Some (String.substring pos (pos' - pos) input)))
  | Bol => if (pos =? 0)%nat then k pos rest cap else None
  | Eol => match rest with EmptyString => k pos rest cap | String _ _ => None end
  end.

(** The leftmost match starting at [pos] or later: start, end, group 1. *)
Fixpoint execFrom (r : regex) (pos : nat) (rest : string) {struct rest}
  : option (nat * nat * option string) :=
  match rmatch r pos rest None (fun e _ c => Some (e, c)) with
  | Some (e, c) => Some (pos, e, c)
  | None =>
      match rest with
      | String _ rest' => execFrom r (S pos) rest'
      | EmptyString => None
      end
  end.
End Matcher.

(** [r.exec(s)]. *)
Definition exec (r : regex) (s : string) : option (nat * nat * option string) :=
  execFrom s r 0 s.

(** [r.test(s)]. *)
Definition test (r : regex) (s : string) : bool :=
  match exec r s with Some _ => true | None => false end.

(** Group 1 of [r.exec(s)], when there is a match. *)
Definition group1 (r : regex) (s : string) : option string :=
  match exec r s with
  | Some (_, _, c) => Some (match c with Some g => g | None => EmptyString end)
  | None => None
  end.

(** [s.replace(r, by)] for a global [r] and a replacement text without
    dollar patterns. *)
Fixpoint replaceAllFrom (input : string) (r : regex) (by_ : string)
         (fuel : nat) (pos : nat) (rest : string) : string :=
  match fuel with
  | O => rest
  | S fuel' =>
      match execFrom input r pos rest with
      | None => rest
      | Some (b, e, _) =>
          let before := String.substring 0 (b - pos) rest in
          if (b <? e)%nat then
            before +:+ by_ +:+
            replaceAllFrom input r by_ fuel' e (String.substring (e - pos) (String.length rest) rest)
          else
            (* an empty match: copy one character and go on *)
            match String.substring (b - pos) (String.length rest) rest with
            | String c rest' =>
                before +:+ by_ +:+ String c (replaceAllFrom input r by_ fuel' (S b) rest')
            | EmptyString => before +:+ by_
            end
      end
  end.

Definition replaceAll (r : regex) (by_ : string) (s : string) : string :=
  replaceAllFrom s r by_ (S (String.length s)) 0 s.

(** Expansion of the dollar patterns of a replacement text for a regular
    expression without capture groups. *)
Fixpoint substitution (by_ : string) (pre matched post : string) : string :=
  match by_ with
  | String "$" (String "$" t) => String "$" (substitution t pre matched post)
  | String "$" (String "&" t) => matched +:+ substitution t pre matched post
  | String "$" (String "`" t) => pre +:+ substitution t pre matched post
  | String "$" (String "'" t) => post +:+ substitution t pre matched post
  | String c t => String c (substitution t pre matched post)
  | EmptyString => EmptyString
  end.

(** [s.replace(r, by)] for a non-global [r] without capture groups. *)
Definition replaceFirst (r : regex) (by_ : string) (s : string) : string :=
  match exec r s with
  | None => s
  | Some (b, e, _) =>
      let pre := String.substring 0 b s in
      let matched := String.substring b (e - b) s in
      let post := String.substring e (String.length s) s in
      pre +:+ substitution by_ pre matched post +:+ post
  end.

End RegExp.

Import RegExp.

(** ** Character and token tests of the source *)

(** [XRegExp('\\p{L}|\\d')] on U+0000..U+00FF: the Unicode letters of that
    range (A-Z, a-z, U+00AA, U+00B5, U+00BA, U+00C0-U+00D6, U+00D8-U+00F6,
    U+00F8-U+00FF) and the decimal digits. *)
Definition unicodeLetterExpr : regex :=
  Cls (fun c =>
         let n := nat_of_ascii c in
         ((65 <=? n) && (n <=? 90) || (97 <=? n) && (n <=? 122) ||
          (n =? 170) || (n =? 181) || (n =? 186) ||
          (192 <=? n) && (n <=? 214) || (216 <=? n) && (n <=? 246) ||
          (248 <=? n) && (n <=? 255) ||
          (48 <=? n) && (n <=? 57))%nat).

(** A one-character string, as the loop variable [char] is. *)
Definition charString (c : ascii) : string := String c EmptyString.

(** The double quote, and a text between double quotes. *)
Definition dquote : ascii := "034"%char.
Definition quoted (s : string) : string :=
  String dquote (s +:+ String dquote EmptyString).

Definition isEndOfTag (char : string) : bool := String.eqb char ">".

Definition isStartOfTag (char : string) : bool := String.eqb char "<".

(** [/^\s+$/] *)
Definition isWhitespace (char : string) : bool :=
  test (Seq [Bol; Plus space; Eol]) char.

(** [/^\s*<(G)>\s*$/] where the group G is [[^!>][^>]*]. *)
Definition tagRegExp : regex :=
  Seq [Bol; Star space; Chr "<"; Grp (Cat (noneOf "!>") (Star (noneOf ">")));
       Chr ">"; Star space; Eol].

(** [isTag]: [None] stands for [false], [Some name] for the tag name
    [match[1].trim().split(' ')[0]]. *)
Definition isTag (token : string) : option string :=
  match group1 tagRegExp token with
  | Some g => Some (JS.splitSpaceFirst (JS.trim g))
  | None => None
  end.

(** Truthiness of what [isTag] returns: [false] and the empty name are falsy. *)
Definition truthyTag (t : option string) : bool :=
  match t with Some name => JS.truthy name | None => false end.

Definition isntTag (token : string) : bool := negb (truthyTag (isTag token)).

(** [/^<!--/] *)
Definition isStartOfHTMLComment (word : string) : bool :=
  test (Seq [Bol; Lit "<!--"]) word.

(** [/-->$/] *)
Definition isEndOfHTMLComment (word : string) : bool :=
  test (Seq [Lit "-->"; Eol]) word.

(** [/^<(iframe|object|math|svg|script|video|head|style|a)/] *)
Definition atomicTagsRegExp : regex :=
  Seq [Bol; Chr "<";
       Grp (Alt (Lit "iframe") (Alt (Lit "object") (Alt (Lit "math") (Alt (Lit "svg")
           (Alt (Lit "script") (Alt (Lit "video") (Alt (Lit "head") (Alt (Lit "style")
           (Lit "a")))))))))].

(** [isStartOfAtomicTag]: [None] stands for [null]. *)
Definition isStartOfAtomicTag (word : string) : option string :=
  group1 atomicTagsRegExp word.

Definition isEndOfAtomicTag (word tag : string) : bool :=
  String.eqb (JS.substringFrom word (JS.len word - JS.len tag - 2)) ("</" +:+ tag).

(** [/^\s*<[^>]+\/>\s*$/] *)
Definition isVoidTag (token : string) : bool :=
  test (Seq [Bol; Star space; Chr "<"; Plus (noneOf ">"); Lit "/>"; Star space; Eol]) token.

(** [isWrappable], with [/^<img[\s>]/] for [isImg]. *)
Definition isWrappable (token : string) : bool :=
  let isImg := test (Seq [Bol; Lit "<img"; Alt space (Chr ">")]) token in
  isImg || isntTag token || truthyTag (isStartOfAtomicTag token) || isVoidTag token.

(** ** Tokens *)

Record Token : Type := mkToken {
  str : string;
  key : string;
  pos : Z
}.

(** The class Q of the two quote characters and its complement N, written
    with both quotes between brackets in the source. *)
Definition anyQuote : regex := Cls (fun c => Ascii.eqb c "'" || Ascii.eqb c dquote).
Definition noQuote : regex := Cls (fun c => negb (Ascii.eqb c "'" || Ascii.eqb c dquote)).

Definition getKeyForToken (token : string) : string :=
  (* /^<img.*src=Q(N* )Q.*>$/ with Q, N as above *)
  match group1 (Seq [Bol; Lit "<img"; Star dot; Lit "src="; anyQuote;
                     Grp (Star noQuote); anyQuote; Star dot; Chr ">"; Eol]) token with
  | Some src => "<img src=" +:+ quoted src +:+ ">"
  | None =>
  (* /^<object.*data=Q(N* )Q/ *)
  match group1 (Seq [Bol; Lit "<object"; Star dot; Lit "data="; anyQuote;
                     Grp (Star noQuote); anyQuote]) token with
  | Some data => "<object src=" +:+ quoted data +:+ "></object>"
  | None =>
  (* /^<a.*href=Q(N* )Q/ *)
  if test (Seq [Bol; Lit "<a"; Star dot; Lit "href="; anyQuote;
                Grp (Star noQuote); anyQuote]) token then token
  else
  (* /^<(svg|math|video)[\s>]/ *)
  if test (Seq [Bol; Chr "<"; Grp (Alt (Lit "svg") (Alt (Lit "math") (Lit "video")));
                Alt space (Chr ">")]) token then
    let uuid := JS.indexOf token ("data-uuid=" +:+ String dquote EmptyString) in
    if negb (uuid =? -1) then
      JS.strSlice token 0 uuid +:+ JS.strSliceFrom token (uuid + 44)
    else token
  else
  (* /^<iframe.*src=Q(N* )Q.*>/ *)
  match group1 (Seq [Bol; Lit "<iframe"; Star dot; Lit "src="; anyQuote;
                     Grp (Star noQuote); anyQuote; Star dot; Chr ">"]) token with
  | Some src => "<iframe src=" +:+ quoted src +:+ "></iframe>"
  | None =>
  (* /<([^\s>]+)[\s>]/ *)
  let nameChar := Cls (fun c => negb (JS.isSpaceChar c || Ascii.eqb c ">")) in
  match group1 (Seq [Chr "<"; Grp (Plus nameChar); Alt space (Chr ">")]) token with
  | Some name => "<" +:+ JS.toLowerCase name +:+ ">"
  | None =>
  (* token.replace(/(\s+|&nbsp;|&#160;)/g, ' ') *)
  if JS.truthy token then
    replaceAll (Grp (Alt (Plus space) (Alt (Lit "&nbsp;") (Lit "&#160;")))) " " token
  else token
  end end end end.

Definition createToken (currentWord : string) (currentWordPos : Z) : Token :=
  {| str := currentWord; key := getKeyForToken currentWord; pos := currentWordPos |}.

(** ** The tokenizer *)

(** The local variables of [htmlToTokens]. *)
Record Scanner : Type := mkScanner {
  mode : string;
  currentWord : string;
  currentWordPos : Z;
  currentAtomicTag : string;
  words : list Token;
  charIdx : Z
}.

(** [if (currentWord) words.push(createToken(currentWord, currentWordPos))] *)
Definition pushWord (st : Scanner) : list Token :=
  if JS.truthy (currentWord st)
  then words st ++ [createToken (currentWord st) (currentWordPos st)]
  else words st.

(** The body of the [for] loop: the [switch] on [mode] for the character
    [c] at [charIdx].  The increment of the loop header is not part of it. *)
Definition scanChar (st : Scanner) (c : ascii) : Result Scanner :=
  let char := charString c in
  let i := charIdx st in
  if String.eqb (mode st) "tag" then
    let atomicTag := isStartOfAtomicTag (currentWord st) in
    if truthyTag atomicTag then
      Ok {| mode := "atomic_tag"; currentWord := currentWord st +:+ char;
            currentWordPos := currentWordPos st;
            currentAtomicTag := match atomicTag with Some t => t | None => EmptyString end;
            words := words st; charIdx := i |}
    else if isStartOfHTMLComment (currentWord st) then
      Ok {| mode := "html_comment"; currentWord := currentWord st +:+ char;
            currentWordPos := currentWordPos st;
            currentAtomicTag := currentAtomicTag st;
            words := words st; charIdx := i |}
    else if isEndOfTag char then
      let word := currentWord st +:+ ">" in
      Ok {| mode := if isWhitespace char then "whitespace" else "char";
            currentWord := EmptyString;
            currentWordPos := i + 1;
            currentAtomicTag := currentAtomicTag st;
            words := words st ++ [createToken word (currentWordPos st)];
            charIdx := i |}
    else
      Ok {| mode := mode st; currentWord := currentWord st +:+ char;
            currentWordPos := currentWordPos st;
            currentAtomicTag := currentAtomicTag st;
            words := words st; charIdx := i |}
  else if String.eqb (mode st) "atomic_tag" then
    if isEndOfTag char && isEndOfAtomicTag (currentWord st) (currentAtomicTag st) then
      let word := currentWord st +:+ ">" in
      Ok {| mode := "char"; currentWord := EmptyString;
            currentWordPos := i + 1;
            currentAtomicTag := EmptyString;
            words := words st ++ [createToken word (currentWordPos st)];
            charIdx := i |}
    else
      Ok {| mode := mode st; currentWord := currentWord st +:+ char;
            currentWordPos := currentWordPos st;
            currentAtomicTag := currentAtomicTag st;
            words := words st; charIdx := i |}
  else if String.eqb (mode st) "html_comment" then
    let word := currentWord st +:+ char in
    if isEndOfHTMLComment word then
      Ok {| mode := "char"; currentWord := EmptyString;
            currentWordPos := i + 1;
            currentAtomicTag := currentAtomicTag st;
            words := words st; charIdx := i |}
    else
      Ok {| mode := mode st; currentWord := word;
            currentWordPos := currentWordPos st;
            currentAtomicTag := currentAtomicTag st;
            words := words st; charIdx := i |}
  else if String.eqb (mode st) "char" then
    if isStartOfTag char then
      Ok {| mode := "tag"; currentWord := "<"; currentWordPos := i;
            currentAtomicTag := currentAtomicTag st;
            words := pushWord st; charIdx := i |}
    else if test space char then
      Ok {| mode := "whitespace"; currentWord := char; currentWordPos := i;
            currentAtomicTag := currentAtomicTag st;
            words := pushWord st; charIdx := i |}
    else if test unicodeLetterExpr char then
      Ok {| mode := mode st; currentWord := currentWord st +:+ char;
            currentWordPos := currentWordPos st;
            currentAtomicTag := currentAtomicTag st;
            words := words st; charIdx := i |}
    else if String.eqb char "&" then
      Ok {| mode := "entity"; currentWord := char; currentWordPos := i;
            currentAtomicTag := currentAtomicTag st;
            words := pushWord st; charIdx := i |}
    else
      Ok {| mode := mode st; currentWord := EmptyString; currentWordPos := i + 1;
            currentAtomicTag := currentAtomicTag st;
            words := pushWord st ++ [createToken char i]; charIdx := i |}
  else if String.eqb (mode st) "entity" then
    if String.eqb char ";" then
      let word := currentWord st +:+ char in
      Ok {| mode := "char"; currentWord := EmptyString; currentWordPos := i + 1;
            currentAtomicTag := currentAtomicTag st;
            words := words st ++ [createToken word (currentWordPos st)];
            charIdx := i |}
    else
      Ok {| mode := mode st; currentWord := currentWord st +:+ char;
            currentWordPos := currentWordPos st;
            currentAtomicTag := currentAtomicTag st;
            words := words st; charIdx := i |}
  else if String.eqb (mode st) "whitespace" then
    if isStartOfTag char then
      Ok {| mode := "tag"; currentWord := "<"; currentWordPos := i;
            currentAtomicTag := currentAtomicTag st;
            words := pushWord st; charIdx := i |}
    else if isWhitespace char then
      Ok {| mode := mode st; currentWord := currentWord st +:+ char;
            currentWordPos := currentWordPos st;
            currentAtomicTag := currentAtomicTag st;
            words := words st; charIdx := i |}
    else
      (* charIdx--; currentWordPos = charIdx *)
      Ok {| mode := "char"; currentWord := EmptyString; currentWordPos := i - 1;
            currentAtomicTag := currentAtomicTag st;
            words := pushWord st; charIdx := i - 1 |}
  else
    Throw (Error ("Unknown mode " +:+ mode st)).

(** [for (let charIdx = 0; charIdx < unicodeChars.length; charIdx++) body]:
    one unit of fuel per evaluation of the loop test. *)
Fixpoint scanLoop (fuel : nat) (unicodeChars : list ascii) (st : Scanner)
  : Result Scanner :=
  match fuel with
  | O => Unmodelled
  | S fuel' =>
      if charIdx st <? Z.of_nat (List.length unicodeChars) then
        match JS.index unicodeChars (charIdx st) with
        | Some c =>
            let* st' := scanChar st c in
            scanLoop fuel' unicodeChars
              {| mode := mode st'; currentWord := currentWord st';
                 currentWordPos := currentWordPos st';
                 currentAtomicTag := currentAtomicTag st';
                 words := words st'; charIdx := charIdx st' + 1 |}
        | None => Unmodelled
        end
      else Ok st
  end.

Definition htmlToTokens (html : string) : Result (list Token) :=
  let unicodeChars := list_ascii_of_string html in
  let init := {| mode := "char"; currentWord := EmptyString; currentWordPos := 0;
                 currentAtomicTag := EmptyString; words := []; charIdx := 0 |} in
  let* st := scanLoop (2 * List.length unicodeChars + 1) unicodeChars init in
  Ok (pushWord st).

(** ** Lookup maps and segments *)

(** [array.reduce(f, init)] and [array.forEach(f)] with the index passed to
    the callback, for callbacks that may throw. *)
Fixpoint reduceFrom {A S : Type} (f : S -> A -> Z -> Result S)
         (l : list A) (index : Z) (acc : S) : Result S :=
  match l with
  | [] => Ok acc
  | x :: l' => let* acc' := f acc x index in reduceFrom f l' (index + 1) acc'
  end.

Definition reduce {A S : Type} (f : S -> A -> Z -> Result S) (l : list A) (init : S)
  : Result S :=
  reduceFrom f l 0 init.

(** The property names every plain object inherits from [Object.prototype].
    Reading one of them on an object that has no own property of that name
    yields a function (an object for [__proto__]), which is truthy and has
    no [push] or [forEach] method. *)
Definition objectPrototypeProperties : list string :=
  ["constructor"; "hasOwnProperty"; "isPrototypeOf"; "propertyIsEnumerable";
   "toLocaleString"; "toString"; "valueOf"; "__proto__";
   "__defineGetter__"; "__defineSetter__"; "__lookupGetter__"; "__lookupSetter__"].

Definition inheritedProperty (name : string) : bool :=
  existsb (String.eqb name) objectPrototypeProperties.

(** The callback of [createMap]: [map[token.key]] is the own array when there
    is one; otherwise an inherited value, on which [push] is not callable;
    otherwise [undefined], and the entry is created. *)
Definition createMap_step (map : gmap string (list Z)) (token : Token) (index : Z)
  : Result (gmap string (list Z)) :=
  match map !! key token with
  | Some locations => Ok (<[key token := locations ++ [index]]> map)
  | None =>
      if inheritedProperty (key token)
      then Throw (TypeError "map[token.key]?.push is not a function")
      else Ok (<[key token := [index]]> map)
  end.

Definition createMap (tokens : list Token) : Result (gmap string (list Z)) :=
  reduce createMap_step tokens ∅.

Record Segment : Type := mkSegment {
  beforeTokens : list Token;
  afterTokens : list Token;
  beforeMap : gmap string (list Z);
  afterMap : gmap string (list Z);
  beforeIndex : Z;
  afterIndex : Z
}.

Definition createSegment (beforeTokens afterTokens : list Token)
           (beforeIndex afterIndex : Z) : Result Segment :=
  let* beforeMap := createMap beforeTokens in
  let* afterMap := createMap afterTokens in
  Ok {| beforeTokens := beforeTokens; afterTokens := afterTokens;
        beforeMap := beforeMap; afterMap := afterMap;
        beforeIndex := beforeIndex; afterIndex := afterIndex |}.

(** ** Matches *)

Module Match.
Record t : Type := mk {
  segment : Segment;
  length : Z;
  startInBefore : Z;
  startInAfter : Z;
  endInBefore : Z;
  endInAfter : Z;
  segmentStartInBefore : Z;
  segmentStartInAfter : Z;
  segmentEndInBefore : Z;
  segmentEndInAfter : Z
}.
End Match.

Definition makeMatch (startInBefore startInAfter length : Z) (segment : Segment)
  : Match.t :=
  {| Match.segment := segment;
     Match.length := length;
     Match.startInBefore := startInBefore + beforeIndex segment;
     Match.startInAfter := startInAfter + afterIndex segment;
     Match.endInBefore := startInBefore + beforeIndex segment + length - 1;
     Match.endInAfter := startInAfter + afterIndex segment + length - 1;
     Match.segmentStartInBefore := startInBefore;
     Match.segmentStartInAfter := startInAfter;
     Match.segmentEndInBefore := startInBefore + length - 1;
     Match.segmentEndInAfter := startInAfter + length - 1 |}.

Definition arrayLength {A : Type} (l : list A) : Z := Z.of_nat (List.length l).

(** [tokens[i]?.key]: [None] stands for [undefined]. *)
Definition keyAt (tokens : list Token) (i : Z) : option string :=
  option_map key (JS.index tokens i).

(** [===] on two values that are strings or [undefined]. *)
Definition strictEq (a b : option string) : bool :=
  match a, b with
  | Some x, Some y => String.eqb x y
  | None, None => true
  | _, _ => false
  end.

(** The [while] loop of [getFullMatch]; [searching = false] leaves it. *)
Fixpoint getFullMatch_while (fuel : nat) (beforeTokens afterTokens : list Token)
         (beforeStart afterStart currentLength : Z) : Result Z :=
  match fuel with
  | O => Unmodelled
  | S fuel' =>
      let beforeIndex := beforeStart + currentLength in
      let afterIndex := afterStart + currentLength in
      if (beforeIndex <? arrayLength beforeTokens) && (afterIndex <? arrayLength afterTokens)
      then
        if strictEq (keyAt beforeTokens beforeIndex) (keyAt afterTokens afterIndex)
        then getFullMatch_while fuel' beforeTokens afterTokens beforeStart afterStart
               (currentLength + 1)
        else Ok currentLength
      else Ok currentLength
  end.

(** [getFullMatch]: [Ok None] stands for the result [null]. *)
Definition getFullMatch (segment : Segment) (beforeStart afterStart minLength : Z)
           (lookBehind : bool) : Result (option Match.t) :=
  let beforeTokens := beforeTokens segment in
  let afterTokens := afterTokens segment in
  let minBeforeIndex := beforeStart + minLength in
  let minAfterIndex := afterStart + minLength in
  if (minBeforeIndex >=? arrayLength beforeTokens) || (minAfterIndex >=? arrayLength afterTokens)
  then Ok None
  else if negb (minLength =? 0) &&
          negb (strictEq (keyAt beforeTokens minBeforeIndex) (keyAt afterTokens minAfterIndex))
  then Ok None
  else
    let* currentLength :=
      getFullMatch_while (S (List.length beforeTokens)) beforeTokens afterTokens
        beforeStart afterStart 1 in
    if lookBehind && (beforeStart >? 0) && (afterStart >? 0) &&
       strictEq (keyAt beforeTokens (beforeStart - 1)) (Some " ") &&
       strictEq (keyAt afterTokens (afterStart - 1)) (Some " ")
    then Ok (Some (makeMatch (beforeStart - 1) (afterStart - 1) (currentLength + 1) segment))
    else Ok (Some (makeMatch beforeStart afterStart currentLength segment)).

(** The callback of [afterTokenLocations.forEach] in [findBestMatch]; the
    state is the captured variable [bestMatch]. *)
Definition findBestMatch_each (segment : Segment) (beforeIndex : Z) (lookBehind : bool)
           (bestMatch : option Match.t) (afterIndex : Z) (_ : Z)
  : Result (option Match.t) :=
  let bestMatchLength :=
    match bestMatch with Some b => Match.length b | None => 0 end in
  let* m := getFullMatch segment beforeIndex afterIndex bestMatchLength lookBehind in
  match m with
  | Some m' => if Match.length m' >? bestMatchLength then Ok (Some m') else Ok bestMatch
  | None => Ok bestMatch
  end.

(** The [for] loop of [findBestMatch]: [n] iterations remain, so that
    [beforeIndex < beforeTokens.length] holds exactly when [n] is positive. *)
Fixpoint findBestMatch_for (n : nat) (segment : Segment) (beforeIndex : Z)
         (lastSpace : option Z) (bestMatch : option Match.t)
  : Result (option Match.t) :=
  match n with
  | O => Ok bestMatch
  | S n' =>
      let remainingTokens := arrayLength (beforeTokens segment) - beforeIndex in
      if match bestMatch with
         | Some b => remainingTokens <? Match.length b
         | None => false
         end
      then Ok bestMatch                                          (* break *)
      else
        let beforeToken := JS.index (beforeTokens segment) beforeIndex in
        if strictEq (option_map key beforeToken) (Some " ") then
          findBestMatch_for n' segment (beforeIndex + 1) (Some beforeIndex) bestMatch
        else
          let lookBehind :=
            match lastSpace with
            | Some l => l =? beforeIndex - 1
            | None => false
            end in
          match beforeToken with
          | None => findBestMatch_for n' segment (beforeIndex + 1) lastSpace bestMatch
          | Some token =>
              match afterMap segment !! key token with
              | Some afterTokenLocations =>
                  let* bestMatch' :=
                    reduce (findBestMatch_each segment beforeIndex lookBehind)
                      afterTokenLocations bestMatch in
                  findBestMatch_for n' segment (beforeIndex + 1) lastSpace bestMatch'
              | None =>
                  if inheritedProperty (key token)
                  then Throw (TypeError "afterTokenLocations.forEach is not a function")
                  else findBestMatch_for n' segment (beforeIndex + 1) lastSpace bestMatch
              end
          end
  end.

(** [findBestMatch]: [Ok None] stands for the result [undefined]. *)
Definition findBestMatch (segment : Segment) : Result (option Match.t) :=
  findBestMatch_for (List.length (beforeTokens segment)) segment 0 None None.

(** ** The ordered collection of matches *)

Definition compareMatches (m1 m2 : Match.t) : Z :=
  if (Match.endInBefore m2 <? Match.startInBefore m1) &&
     (Match.endInAfter m2 <? Match.startInAfter m1) then -1
  else if (Match.startInBefore m2 >? Match.endInBefore m1) &&
          (Match.startInAfter m2 >? Match.endInAfter m1) then 1
  else 0.

(** [TreeNode | null] *)
Inductive TreeNode : Type :=
| null
| node (value : Match.t) (left right : TreeNode).

Fixpoint addToNode (n : TreeNode) (m : Match.t) : TreeNode :=
  match n with
  | node value l r =>
      let position := compareMatches value m in
      if position =? -1 then node value (addToNode l m) r
      else if position =? 1 then node value l (addToNode r m)
      else n
  | null => node m null null
  end.

Fixpoint nodeToArray (n : TreeNode) : list Match.t :=
  match n with
  | node value l r => nodeToArray l ++ [value] ++ nodeToArray r
  | null => []
  end.

(** ** Finding all matching blocks *)

(** The body of the [while] loop of [findMatchingBlocks] for the popped
    segment [currSegment]; [segment] is the argument of the function, and
    [segments] the remaining stack with its top first. *)
Definition findMatchingBlocks_body (segment currSegment : Segment)
           (segments : list Segment) (matches : TreeNode)
  : Result (list Segment * TreeNode) :=
  let* found := findBestMatch currSegment in
  match found with
  | Some m =>
      if negb (Match.length m =? 0) then
        let* segments1 :=
          if (Match.segmentStartInBefore m >? 0) && (Match.segmentStartInAfter m >? 0) then
            let leftBeforeTokens :=
              JS.slice (beforeTokens segment) 0 (Match.segmentStartInBefore m) in
            let leftAfterTokens :=
              JS.slice (afterTokens currSegment) 0 (Match.segmentStartInAfter m) in
            let* leftSegment := createSegment leftBeforeTokens leftAfterTokens
                                  (beforeIndex currSegment) (afterIndex currSegment) in
            Ok (leftSegment :: segments)
          else Ok segments in
        let rightBeforeTokens :=
          JS.sliceFrom (beforeTokens currSegment) (Match.segmentEndInBefore m + 1) in
        let rightAfterTokens :=
          JS.sliceFrom (afterTokens currSegment) (Match.segmentEndInAfter m + 1) in
        let rightBeforeIndex := beforeIndex currSegment + Match.segmentEndInBefore m + 1 in
        let rightAfterIndex := afterIndex currSegment + Match.segmentEndInAfter m + 1 in
        let* segments2 :=
          if negb (arrayLength rightBeforeTokens =? 0) &&
             negb (arrayLength rightAfterTokens =? 0) then
            let* rightSegment := createSegment rightBeforeTokens rightAfterTokens
                                   rightBeforeIndex rightAfterIndex in
            Ok (rightSegment :: segments1)
          else Ok segments1 in
        Ok (segments2, addToNode matches m)
      else Ok (segments, matches)
  | None => Ok (segments, matches)
  end.

Fixpoint findMatchingBlocks_while (fuel : nat) (segment : Segment)
         (segments : list Segment) (matches : TreeNode) : Result TreeNode :=
  match fuel with
  | O => Unmodelled
  | S fuel' =>
      match segments with
      | [] => Ok matches
      | currSegment :: rest =>
          let* next := findMatchingBlocks_body segment currSegment rest matches in
          findMatchingBlocks_while fuel' segment (fst next) (snd next)
      end
  end.

Definition findMatchingBlocks (segment : Segment) : Result (list Match.t) :=
  let* matches :=
    findMatchingBlocks_while (2 * List.length (beforeTokens segment) + 2)
      segment [segment] null in
  Ok (nodeToArray matches).

(** ** Operations *)

Module Action.
Inductive t : Type := equal | insert | delete | replace | none.

Definition eqb (a b : t) : bool :=
  match a, b with
  | equal, equal | insert, insert | delete, delete | replace, replace | none, none => true
  | _, _ => false
  end.
End Action.

Module Operation.
Record t : Type := mk {
  action : Action.t;
  startInBefore : Z;
  endInBefore : option Z;
  startInAfter : Z;
  endInAfter : option Z
}.
End Operation.

(** The callback of [matches.forEach] in [calculateOperations]; the state
    is made of the captured [positionInBefore], [positionInAfter] and
    [operations]. *)
Definition calculateOperations_each (st : Z * Z * list Operation.t) (m : Match.t)
  : Z * Z * list Operation.t :=
  let '(positionInBefore, positionInAfter, operations) := st in
  let actionUpToMatchPositions :=
    if positionInBefore =? Match.startInBefore m then
      if negb (positionInAfter =? Match.startInAfter m) then Action.insert else Action.none
    else
      if negb (positionInAfter =? Match.startInAfter m) then Action.replace else Action.delete in
  let operations1 :=
    if negb (Action.eqb actionUpToMatchPositions Action.none) then
      operations ++
      [{| Operation.action := actionUpToMatchPositions;
          Operation.startInBefore := positionInBefore;
          Operation.endInBefore :=
            if negb (Action.eqb actionUpToMatchPositions Action.insert)
            then Some (Match.startInBefore m - 1) else None;
          Operation.startInAfter := positionInAfter;
          Operation.endInAfter :=
            if negb (Action.eqb actionUpToMatchPositions Action.delete)
            then Some (Match.startInAfter m - 1) else None |}]
    else operations in
  let operations2 :=
    if negb (Match.length m =? 0) then
      operations1 ++
      [{| Operation.action := Action.equal;
          Operation.startInBefore := Match.startInBefore m;
          Operation.endInBefore := Some (Match.endInBefore m);
          Operation.startInAfter := Match.startInAfter m;
          Operation.endInAfter := Some (Match.endInAfter m) |}]
    else operations1 in
  (Match.endInBefore m + 1, Match.endInAfter m + 1, operations2).

(** [Object.prototype.toString] on a token, which is a plain object, and
    [Array.prototype.toString], which joins the elements' texts by commas. *)
Definition Token_toString (_ : Token) : string := "[object Object]".

Definition Array_toString (tokens : list Token) : string :=
  JS.join "," (map Token_toString tokens).

(** [!op.endInBefore]: [undefined] and [0] are falsy. *)
Definition falsyNumber (n : option Z) : bool :=
  match n with Some v => v =? 0 | None => true end.

Definition isSingleWhitespace (beforeTokens : list Token) (op : Operation.t) : bool :=
  if negb (Action.eqb (Operation.action op) Action.equal) then false
  else if falsyNumber (Operation.endInBefore op) then false
  else match Operation.endInBefore op with
       | None => false
       | Some endInBefore =>
           if negb (endInBefore - Operation.startInBefore op =? 0) then false
           else
             (* /^\s$/ *)
             test (Seq [Bol; space; Eol])
               (Array_toString
                  (JS.slice beforeTokens (Operation.startInBefore op) (endInBefore + 1)))
       end.

(** The callback of [operations.forEach] in the post-processing pass; the
    state is [postProcessed] and the action of [lastOp]. *)
Definition postProcess_each (beforeTokens : list Token)
           (st : list Operation.t * Action.t) (op : Operation.t)
  : list Operation.t * Action.t :=
  let '(postProcessed, lastOpAction) := st in
  if (isSingleWhitespace beforeTokens op && Action.eqb lastOpAction Action.replace) ||
     (Action.eqb (Operation.action op) Action.replace &&
      Action.eqb lastOpAction Action.replace)
  then (postProcessed, lastOpAction)
  else (postProcessed ++ [op], Operation.action op).

Definition postProcess (beforeTokens : list Token) (operations : list Operation.t)
  : list Operation.t :=
  fst (fold_left (postProcess_each beforeTokens) operations ([], Action.none)).

(** The operations pushed by the walk over the matches, before the
    post-processing pass. *)
Definition operationsOfMatches (matches : list Match.t) : list Operation.t :=
  snd (fold_left calculateOperations_each matches (0, 0, [])).

(** [calculateOperations]; an argument [None] stands for [null] or
    [undefined]. *)
Definition calculateOperations (beforeTokens afterTokens : option (list Token))
  : Result (list Operation.t) :=
  match beforeTokens with
  | None => Throw (Error "Missing beforeTokens")
  | Some beforeTokens =>
      match afterTokens with
      | None => Throw (Error "Missing afterTokens")
      | Some afterTokens =>
          let* segment := createSegment beforeTokens afterTokens 0 0 in
          let* found := findMatchingBlocks segment in
          let matches :=
            found ++ [makeMatch (arrayLength beforeTokens) (arrayLength afterTokens) 0 segment] in
          Ok (postProcess beforeTokens (operationsOfMatches matches))
      end
  end.

(** ** The renderer *)

Module Note.
Record t : Type := mk {
  isWrappable : bool;
  insertedTag : bool
}.
End Note.

Module TokenNotes.
Record t : Type := mk {
  tokens : list string;
  notes : list Note.t
}.
End TokenNotes.

(** The callback of the [reduce] in [TokenWrapper].  [data.tagStack] is
    kept with its last entry first; an entry is [(tag, position)]. *)
Definition TokenWrapper_step (data : list Note.t * list (string * Z))
           (token : string) (index : Z) : Result (list Note.t * list (string * Z)) :=
  let '(notes, tagStack) := data in
  let notes1 :=
    notes ++ [{| Note.isWrappable := isWrappable token; Note.insertedTag := false |}] in
  let tag := if negb (isVoidTag token) then isTag token else None in
  let lastEntry := head tagStack in
  match tag with
  | Some name =>
      if JS.truthy name then
        match lastEntry with
        | Some (lastTag, lastPosition) =>
            if String.eqb ("/" +:+ lastTag) name then
              match JS.index notes1 lastPosition with
              | Some n =>
                  Ok (<[Z.to_nat lastPosition :=
                          {| Note.isWrappable := Note.isWrappable n;
                             Note.insertedTag := true |}]> notes1,
                      tail tagStack)
              | None => Throw (TypeError "Cannot set properties of undefined")
              end
            else Ok (notes1, (name, index) :: tagStack)
        | None => Ok (notes1, (name, index) :: tagStack)
        end
      else Ok (notes1, tagStack)
  | None => Ok (notes1, tagStack)
  end.

Definition TokenWrapper (tokens : list string) : Result TokenNotes.t :=
  let* data := reduce TokenWrapper_step tokens ([], []) in
  Ok {| TokenNotes.tokens := tokens; TokenNotes.notes := fst data |}.

Module WrappableTokens.
Record t : Type := mk {
  isWrappable : bool;
  tokens : list string
}.
End WrappableTokens.

(** The accumulator of the [reduce] in [combineTokenNotes], together with
    the local copy [tokens], which the callback updates in place. *)
Record CombineData : Type := mkCombineData {
  tokensCopy : list string;
  list_ : list WrappableTokens.t;
  status : option bool;
  lastIndex : Z
}.

(** [notes[index]?.isWrappable ?? false] *)
Definition wrappableAt (notes : list Note.t) (index : Z) : bool :=
  match JS.index notes index with
  | Some n => Note.isWrappable n
  | None => false
  end.

Definition combineTokenNotes_step (tagFn : string -> string) (notes : list Note.t)
           (data : CombineData) (_ : string) (index : Z) : Result CombineData :=
  let tokens1 :=
    match JS.index notes index with
    | Some n =>
        if Note.insertedTag n then
          match JS.index (tokensCopy data) index with
          | Some t => <[Z.to_nat index := tagFn t]> (tokensCopy data)
          | None => tokensCopy data
          end
        else tokensCopy data
    | None => tokensCopy data
    end in
  let status0 :=
    match status data with
    | None => wrappableAt notes index
    | Some b => b
    end in
  let status1 := wrappableAt notes index in
  let '(list1, lastIndex1, status2) :=
    if negb (Bool.eqb status1 status0) then
      (list_ data ++
       [{| WrappableTokens.isWrappable := status0;
           WrappableTokens.tokens := JS.slice tokens1 (lastIndex data) index |}],
       index, status1)
    else (list_ data, lastIndex data, status0) in
  let list2 :=
    if index =? arrayLength tokens1 - 1 then
      list1 ++
      [{| WrappableTokens.isWrappable := status2;
          WrappableTokens.tokens := JS.slice tokens1 lastIndex1 (index + 1) |}]
    else list1 in
  Ok {| tokensCopy := tokens1; list_ := list2; status := Some status2;
        lastIndex := lastIndex1 |}.

(** The wrappable and non-wrappable runs of [combineTokenNotes]. *)
Definition combineSegments (tagFn : string -> string) (tokenNotes : TokenNotes.t)
  : Result (list WrappableTokens.t) :=
  let tokens := TokenNotes.tokens tokenNotes in
  let* data :=
    reduce (combineTokenNotes_step tagFn (TokenNotes.notes tokenNotes)) tokens
      {| tokensCopy := tokens; list_ := []; status := None; lastIndex := 0 |} in
  Ok (list_ data).

Definition combineTokenNotes (mapFn : WrappableTokens.t -> string)
           (tagFn : string -> string) (tokenNotes : TokenNotes.t) : Result string :=
  let* segments := combineSegments tagFn tokenNotes in
  Ok (JS.join EmptyString (map mapFn segments)).

(** The attribute text [attrs] of [wrap]. *)
Definition wrapAttrs (opIndex : Z) (dataPrefix className : string) : string :=
  let dataPrefix := if JS.truthy dataPrefix then dataPrefix +:+ "-" else EmptyString in
  let attrs :=
    " data-" +:+ dataPrefix +:+ "operation-index=" +:+ quoted (JS.numberToString opIndex) in
  if JS.truthy className then attrs +:+ " class=" +:+ quoted className else attrs.

(** The first callback of [wrap], applied to every run. *)
Definition wrap_mapFn (tag attrs : string) (segment : WrappableTokens.t) : string :=
  if WrappableTokens.isWrappable segment then
    let val := JS.join EmptyString (WrappableTokens.tokens segment) in
    if JS.truthy (JS.trim val) then
      "<" +:+ tag +:+ attrs +:+ ">" +:+ val +:+ "</" +:+ tag +:+ ">"
    else EmptyString
  else JS.join EmptyString (WrappableTokens.tokens segment).

(** The second callback of [wrap], applied to the opening tag of a pair
    closed inside the list; the replaced expression is [/>\s*$/]. *)
Definition wrap_tagFn (tag : string) (opIndex : Z) (dataPrefix : string)
           (openingTag : string) : string :=
  let dataPrefix := if JS.truthy dataPrefix then dataPrefix +:+ "-" else EmptyString in
  let dataAttrs :=
    " data-diff-node=" +:+ quoted tag +:+
    " data-" +:+ dataPrefix +:+ "operation-index=" +:+ quoted (JS.numberToString opIndex) in
  if JS.truthy openingTag
  then replaceFirst (Seq [Chr ">"; Star space; Eol]) (dataAttrs +:+ "$&") openingTag
  else EmptyString.

Definition wrap (tag : string) (content : list string) (opIndex : Z)
           (dataPrefix className : string) : Result string :=
  let* wrapper := TokenWrapper content in
  combineTokenNotes (wrap_mapFn tag (wrapAttrs opIndex dataPrefix className))
    (wrap_tagFn tag opIndex dataPrefix) wrapper.

(** [op.endInAfter ? tokens.slice(start, op.endInAfter + 1) : tokens.slice(start, 1)]:
    an end that is [undefined] or [0] takes the second branch. *)
Definition opTokens (tokens : list Token) (start : Z) (stop : option Z) : list Token :=
  match stop with
  | Some e => if e =? 0 then JS.slice tokens start 1 else JS.slice tokens start (e + 1)
  | None => JS.slice tokens start 1
  end.

Module OPS.
Definition equal (op : Operation.t) (beforeTokens afterTokens : list Token)
           (opIndex : Z) (dataPrefix className : string) : Result string :=
  let tokens := opTokens afterTokens (Operation.startInAfter op) (Operation.endInAfter op) in
  Ok (fold_left (fun prev curr => prev +:+ str curr) tokens EmptyString).

Definition insert (op : Operation.t) (beforeTokens afterTokens : list Token)
           (opIndex : Z) (dataPrefix className : string) : Result string :=
  let tokens := opTokens afterTokens (Operation.startInAfter op) (Operation.endInAfter op) in
  wrap "ins" (map str tokens) opIndex dataPrefix className.

Definition delete (op : Operation.t) (beforeTokens afterTokens : list Token)
           (opIndex : Z) (dataPrefix className : string) : Result string :=
  let tokens := opTokens beforeTokens (Operation.startInBefore op) (Operation.endInBefore op) in
  wrap "del" (map str tokens) opIndex dataPrefix className.

Definition replace (op : Operation.t) (beforeTokens afterTokens : list Token)
           (opIndex : Z) (dataPrefix className : string) : Result string :=
  let* d := delete op beforeTokens afterTokens opIndex dataPrefix className in
  let* i := insert op beforeTokens afterTokens opIndex dataPrefix className in
  Ok (d +:+ i).

(** [OPS[op.action]]; there is no entry for ['none']. *)
Definition get (a : Action.t) :=
  match a with
  | Action.equal => equal
  | Action.insert => insert
  | Action.delete => delete
  | Action.replace => replace
  | Action.none =>
      fun _ _ _ _ _ _ => Throw (TypeError "OPS[op.action] is not a function")
  end.
End OPS.

Definition renderOperations (beforeTokens afterTokens : list Token)
           (operations : list Operation.t) (dataPrefix className : string)
  : Result string :=
  reduce (fun rendering op index =>
            let* r := OPS.get (Operation.action op) op beforeTokens afterTokens
                        index dataPrefix className in
            Ok (rendering +:+ r))
         operations EmptyString.

(** The default export. *)
Definition diff (before after className dataPrefix : string) : Result string :=
  if String.eqb before after then Ok before
  else
    let* beforeTokens := htmlToTokens before in
    let* afterTokens := htmlToTokens after in
    let* ops := calculateOperations (Some beforeTokens) (Some afterTokens) in
    renderOperations beforeTokens afterTokens ops dataPrefix className.

(** A call [diff(before, after, className, dataPrefix, ...extra)]: the
    function declares four parameters, and the arguments of a call beyond
    them are bound to nothing. *)
Definition diff_call (before after className dataPrefix : string) (extra : list string)
  : Result string :=
  diff before after className dataPrefix.

(** ** The tokenizer of the compiled build

    The compiled JavaScript build carries an earlier tokenizer: tokens have
    no position, the anchor is not an atomic tag, there is no entity mode,
    a character that is neither a word character nor white space ends the
    pending word and stays in it, and the index never steps back (the loop
    is a [for ... of] over the characters). *)

Module Dist.

Record Token : Type := mkToken {
  str : string;
  key : string
}.

(** [/^<(iframe|object|math|svg|script|video|head|style)/] *)
Definition atomicTagsRegExp : regex :=
  Seq [Bol; Chr "<";
       Grp (Alt (Lit "iframe") (Alt (Lit "object") (Alt (Lit "math") (Alt (Lit "svg")
           (Alt (Lit "script") (Alt (Lit "video") (Alt (Lit "head") (Lit "style"))))))))].

Definition isStartOfAtomicTag (word : string) : option string :=
  group1 atomicTagsRegExp word.

Definition getKeyForToken (token : string) : string :=
  (* /^<img.*src=Q(N* )Q.*>$/ with the classes Q and N of the quotes *)
  match group1 (Seq [Bol; Lit "<img"; Star dot; Lit "src="; anyQuote;
                     Grp (Star noQuote); anyQuote; Star dot; Chr ">"; Eol]) token with
  | Some src => "<img src=" +:+ quoted src +:+ ">"
  | None =>
  (* /^<object.*data=Q(N* )Q/ *)
  match group1 (Seq [Bol; Lit "<object"; Star dot; Lit "data="; anyQuote;
                     Grp (Star noQuote); anyQuote]) token with
  | Some data => "<object src=" +:+ quoted data +:+ "></object>"
  | None =>
  (* /^<(svg|math|video)[\s>]/ *)
  if test (Seq [Bol; Chr "<"; Grp (Alt (Lit "svg") (Alt (Lit "math") (Lit "video")));
                Alt space (Chr ">")]) token then
    let uuid := JS.indexOf token ("data-uuid=" +:+ String dquote EmptyString) in
    if negb (uuid =? -1) then
      JS.strSlice token 0 uuid +:+ JS.strSliceFrom token (uuid + 44)
    else token
  else
  (* /^<iframe.*src=Q(N* )Q.*>/ *)
  match group1 (Seq [Bol; Lit "<iframe"; Star dot; Lit "src="; anyQuote;
                     Grp (Star noQuote); anyQuote; Star dot; Chr ">"]) token with
  | Some src => "<iframe src=" +:+ quoted src +:+ "></iframe>"
  | None =>
  (* /<([^\s>]+)[\s>]/ *)
  let nameChar := Cls (fun c => negb (JS.isSpaceChar c || Ascii.eqb c ">")) in
  match group1 (Seq [Chr "<"; Grp (Plus nameChar); Alt space (Chr ">")]) token with
  | Some name => "<" +:+ JS.toLowerCase name +:+ ">"
  | None =>
  (* token.replace(/(\s+|&nbsp;|&#160;)/g, ' ') *)
  if JS.truthy token then
    replaceAll (Grp (Alt (Plus space) (Alt (Lit "&nbsp;") (Lit "&#160;")))) " " token
  else token
  end end end end.

Definition createToken (currentWord : string) : Token :=
  {| str := currentWord; key := getKeyForToken currentWord |}.

(** [/[\w\d#@]/]: the ASCII letters and digits, the underscore, [#] and [@]. *)
Definition wordCharExpr : regex :=
  Cls (fun c =>
         let n := nat_of_ascii c in
         ((65 <=? n) && (n <=? 90) || (97 <=? n) && (n <=? 122) ||
          (48 <=? n) && (n <=? 57) || (n =? 95) || (n =? 35) || (n =? 64))%nat).

(** The local variables of [htmlToTokens]. *)
Record Scanner : Type := mkScanner {
  mode : string;
  currentWord : string;
  currentAtomicTag : string;
  words : list Token
}.

(** [if (currentWord) words.push(createToken(currentWord))] *)
Definition pushWord (st : Scanner) : list Token :=
  if JS.truthy (currentWord st)
  then words st ++ [createToken (currentWord st)]
  else words st.

(** The body of the loop: the [switch] on [mode] for the character [c]. *)
Definition scanChar (st : Scanner) (c : ascii) : Result Scanner :=
  let char := charString c in
  if String.eqb (mode st) "tag" then
    let atomicTag := isStartOfAtomicTag (currentWord st) in
    if truthyTag atomicTag then
      Ok {| mode := "atomic_tag"; currentWord := currentWord st +:+ char;
            currentAtomicTag := match atomicTag with Some t => t | None => EmptyString end;
            words := words st |}
    else if isStartOfHTMLComment (currentWord st) then
      Ok {| mode := "html_comment"; currentWord := currentWord st +:+ char;
            currentAtomicTag := currentAtomicTag st; words := words st |}
    else if isEndOfTag char then
      Ok {| mode := if isWhitespace char then "whitespace" else "char";
            currentWord := EmptyString;
            currentAtomicTag := currentAtomicTag st;
            words := words st ++ [createToken (currentWord st +:+ ">")] |}
    else
      Ok {| mode := mode st; currentWord := currentWord st +:+ char;
            currentAtomicTag := currentAtomicTag st; words := words st |}
  else if String.eqb (mode st) "atomic_tag" then
    if isEndOfTag char && isEndOfAtomicTag (currentWord st) (currentAtomicTag st) then
      Ok {| mode := "char"; currentWord := EmptyString;
            currentAtomicTag := EmptyString;
            words := words st ++ [createToken (currentWord st +:+ ">")] |}
    else
      Ok {| mode := mode st; currentWord := currentWord st +:+ char;
            currentAtomicTag := currentAtomicTag st; words := words st |}
  else if String.eqb (mode st) "html_comment" then
    let word := currentWord st +:+ char in
    if isEndOfHTMLComment word then
      Ok {| mode := "char"; currentWord := EmptyString;
            currentAtomicTag := currentAtomicTag st; words := words st |}
    else
      Ok {| mode := mode st; currentWord := word;
            currentAtomicTag := currentAtomicTag st; words := words st |}
  else if String.eqb (mode st) "char" then
    if isStartOfTag char then
      Ok {| mode := "tag"; currentWord := "<";
            currentAtomicTag := currentAtomicTag st; words := pushWord st |}
    else if test space char then
      Ok {| mode := "whitespace"; currentWord := char;
            currentAtomicTag := currentAtomicTag st; words := pushWord st |}
    else if test wordCharExpr char then
      Ok {| mode := mode st; currentWord := currentWord st +:+ char;
            currentAtomicTag := currentAtomicTag st; words := words st |}
    else if test (Chr "&") char then
      Ok {| mode := mode st; currentWord := char;
            currentAtomicTag := currentAtomicTag st; words := pushWord st |}
    else
      Ok {| mode := mode st; currentWord := EmptyString;
            currentAtomicTag := currentAtomicTag st;
            words := words st ++ [createToken (currentWord st +:+ char)] |}
  else if String.eqb (mode st) "whitespace" then
    if isStartOfTag char then
      Ok {| mode := "tag"; currentWord := "<";
            currentAtomicTag := currentAtomicTag st; words := pushWord st |}
    else if isWhitespace char then
      Ok {| mode := mode st; currentWord := currentWord st +:+ char;
            currentAtomicTag := currentAtomicTag st; words := words st |}
    else
      Ok {| mode := "char"; currentWord := char;
            currentAtomicTag := currentAtomicTag st; words := pushWord st |}
  else
    Throw (Error ("Unknown mode " +:+ mode st)).

(** [for (const char of html) body] *)
Fixpoint scanLoop (chars : list ascii) (st : Scanner) : Result Scanner :=
  match chars with
  | [] => Ok st
  | c :: chars' => let* st' := scanChar st c in scanLoop chars' st'
  end.

Definition htmlToTokens (html : string) : Result (list Token) :=
  let init := {| mode := "char"; currentWord := EmptyString;
                 currentAtomicTag := EmptyString; words := [] |} in
  let* st := scanLoop (list_ascii_of_string html) init in
  Ok (pushWord st).

(** The concatenated literal text of a list of tokens. *)
Definition text (tokens : list Token) : string :=
  JS.join EmptyString (map str tokens).

End Dist.

(** * Specification vocabulary *)

(** ** Tokenizer *)

(** The six modes the [switch] of [htmlToTokens] knows. *)
Definition validMode (m : string) : Prop :=
  m = "tag" \/ m = "atomic_tag" \/ m = "html_comment" \/ m = "char" \/
  m = "entity" \/ m = "whitespace".

(** The quantity that decreases at every evaluation of the loop test: twice
    the number of characters still to read, plus one in whitespace mode,
    from which the index may step back once. *)
Definition scanMeasure (n : Z) (st : Scanner) : Z :=
  2 * (n - charIdx st) + (if String.eqb (mode st) "whitespace" then 1 else 0).

(** The concatenated literal text of a list of tokens. *)
Definition text (tokens : list Token) : string :=
  JS.join EmptyString (map str tokens).

(** [needle] occurs somewhere in [s]. *)
Fixpoint occurs (needle s : string) : bool :=
  String.prefix needle s ||
  match s with
  | String _ s' => occurs needle s'
  | EmptyString => false
  end.

Definition dropTwo (s : string) : string :=
  match s with
  | String _ (String _ s') => s'
  | _ => EmptyString
  end.

(** The text contains an HTML comment: an opening mark [<!--] and, starting
    at least two characters after the start of that mark, a closing mark
    [-->] (the two marks may share their dashes). *)
Fixpoint containsHTMLComment (s : string) : bool :=
  match s with
  | String _ s' =>
      (String.prefix "<!--" s && occurs "-->" (dropTwo s)) || containsHTMLComment s'
  | EmptyString => false
  end.

(** The tokens pushed so far and the pending word spell the first [n]
    characters of the input. *)
Definition scanned (unicodeChars : list ascii) (st : Scanner) (n : Z) : Prop :=
  list_ascii_of_string (text (words st) +:+ currentWord st) =
  firstn (Z.to_nat n) unicodeChars.

(** In comment mode the pending word starts with the opening mark. *)
Definition commentOpened (st : Scanner) : Prop :=
  mode st = "html_comment" -> exists u, currentWord st = "<!--" +:+ u.

(** ** Matcher *)

(** No key of the list names a property inherited from [Object.prototype]. *)
Definition safeKeys (tokens : list Token) : Prop :=
  Forall (fun t => inheritedProperty (key t) = false) tokens.

Definition safeKeysb (tokens : list Token) : bool :=
  forallb (fun t => negb (inheritedProperty (key t))) tokens.

(** Every location stored in a lookup map is an index from 0 on. *)
Definition nonnegLocations (map : gmap string (list Z)) : Prop :=
  map_Forall (fun _ locations => Forall (fun i => 0 <= i) locations) map.

(** A match found inside [seg]: a non-empty run inside both token lists of
    the segment, with all its fields computed by [makeMatch]. *)
Definition localMatch (seg : Segment) (m : Match.t) : Prop :=
  0 <= Match.segmentStartInBefore m /\
  0 <= Match.segmentStartInAfter m /\
  1 <= Match.length m /\
  Match.segmentStartInBefore m + Match.length m <= arrayLength (beforeTokens seg) /\
  Match.segmentStartInAfter m + Match.length m <= arrayLength (afterTokens seg) /\
  m = makeMatch (Match.segmentStartInBefore m) (Match.segmentStartInAfter m)
        (Match.length m) seg.

Definition optLocalMatch (seg : Segment) (m : option Match.t) : Prop :=
  match m with Some m' => localMatch seg m' | None => True end.

(** A match inside token lists of lengths [lenBefore] and [lenAfter]. *)
Definition wfMatch (lenBefore lenAfter : Z) (m : Match.t) : Prop :=
  0 <= Match.startInBefore m /\
  0 <= Match.startInAfter m /\
  1 <= Match.length m /\
  Match.endInBefore m = Match.startInBefore m + Match.length m - 1 /\
  Match.endInAfter m = Match.startInAfter m + Match.length m - 1 /\
  Match.endInBefore m < lenBefore /\
  Match.endInAfter m < lenAfter.

(** [m1] ends before [m2] starts, on both sides. *)
Definition precedes (m1 m2 : Match.t) : Prop :=
  Match.endInBefore m1 < Match.startInBefore m2 /\
  Match.endInAfter m1 < Match.startInAfter m2.

(** The search-tree invariant of the collection of matches. *)
Fixpoint bst (n : TreeNode) : Prop :=
  match n with
  | null => True
  | node value l r =>
      bst l /\ bst r /\
      Forall (fun x => precedes x value) (nodeToArray l) /\
      Forall (fun x => precedes value x) (nodeToArray r)
  end.

(** A segment of the work list, for documents of the given lengths. *)
Definition segmentInBounds (lenBefore lenAfter : Z) (seg : Segment) : Prop :=
  safeKeys (beforeTokens seg) /\ safeKeys (afterTokens seg) /\
  nonnegLocations (afterMap seg) /\
  0 <= beforeIndex seg /\ 0 <= afterIndex seg /\
  beforeIndex seg + arrayLength (beforeTokens seg) <= lenBefore /\
  afterIndex seg + arrayLength (afterTokens seg) <= lenAfter.

(** What remains to do for a work list: one unit per segment to pop, and
    two per before-token a segment may still split on. *)
Fixpoint worklistMeasure (segments : list Segment) : Z :=
  match segments with
  | [] => 0
  | seg :: rest => 2 * arrayLength (beforeTokens seg) + 1 + worklistMeasure rest
  end.

(** ** Operations *)

(** [ranges] are consecutive non-empty index ranges [(start, end)] that
    cover [from, to) in order: each starts where the previous one stopped. *)
Fixpoint tiles (ranges : list (Z * Z)) (from to : Z) : Prop :=
  match ranges with
  | [] => from = to
  | (s, e) :: rest => s = from /\ s <= e /\ tiles rest (e + 1) to
  end.

Definition hasBeforeSide (a : Action.t) : bool :=
  match a with
  | Action.equal | Action.delete | Action.replace => true
  | _ => false
  end.

Definition hasAfterSide (a : Action.t) : bool :=
  match a with
  | Action.equal | Action.insert | Action.replace => true
  | _ => false
  end.

(** The range [(startInBefore, endInBefore)] of an operation with a before
    side, and [(startInAfter, endInAfter)] of one with an after side. *)
Definition beforeRange (op : Operation.t) : list (Z * Z) :=
  if hasBeforeSide (Operation.action op) then
    match Operation.endInBefore op with
    | Some e => [(Operation.startInBefore op, e)]
    | None => []
    end
  else [].

Definition afterRange (op : Operation.t) : list (Z * Z) :=
  if hasAfterSide (Operation.action op) then
    match Operation.endInAfter op with
    | Some e => [(Operation.startInAfter op, e)]
    | None => []
    end
  else [].

Definition beforeRanges (ops : list Operation.t) : list (Z * Z) :=
  flat_map beforeRange ops.

Definition afterRanges (ops : list Operation.t) : list (Z * Z) :=
  flat_map afterRange ops.

(** An operation has one of the four actions and carries the end of every
    side it has. *)
Definition completeOperation (op : Operation.t) : Prop :=
  Operation.action op <> Action.none /\
  (hasBeforeSide (Operation.action op) = true -> Operation.endInBefore op <> None) /\
  (hasAfterSide (Operation.action op) = true -> Operation.endInAfter op <> None).

(** The tokens an inclusive range refers to. *)
Definition rangeTokens (tokens : list Token) (r : Z * Z) : list Token :=
  JS.slice tokens (fst r) (snd r + 1).

(** No operation is a replace that directly follows a replace. *)
Fixpoint noAdjacentReplace (last : Action.t) (ops : list Operation.t) : Prop :=
  match ops with
  | [] => True
  | op :: rest =>
      ~ (Operation.action op = Action.replace /\ last = Action.replace) /\
      noAdjacentReplace (Operation.action op) rest
  end.

(** The operations one match contributes when the cursors stand at
    [positionInBefore] and [positionInAfter]: the gap before it, if any, and
    the equal operation of the match itself, if it is not empty. *)
Definition gapAndEqual (positionInBefore positionInAfter : Z) (m : Match.t)
  : list Operation.t :=
  snd (calculateOperations_each (positionInBefore, positionInAfter, []) m).

(** The operations of a walk over [matches] from the given cursors. *)
Fixpoint walkOperations (positionInBefore positionInAfter : Z) (matches : list Match.t)
  : list Operation.t :=
  match matches with
  | [] => []
  | m :: rest =>
      gapAndEqual positionInBefore positionInAfter m ++
      walkOperations (Match.endInBefore m + 1) (Match.endInAfter m + 1) rest
  end.

(** The action of the last operation of [ops], or [last] when there is none. *)
Definition lastAction (last : Action.t) (ops : list Operation.t) : Action.t :=
  fold_left (fun _ op => Operation.action op) ops last.

(** ** Renderer *)

(** Every entry of the tag stack of [TokenWrapper] points to a note that
    exists. *)
Definition stackInNotes (notes : list Note.t) (tagStack : list (string * Z)) : Prop :=
  Forall (fun entry => 0 <= snd entry < arrayLength notes) tagStack.

(** ** Example inputs *)

(** The tokens of [working on it] and of [working in it]. *)
Definition workingOnIt : list Token :=
  [createToken "working" 0; createToken " " 7; createToken "on" 7;
   createToken " " 10; createToken "it" 10].

Definition workingInIt : list Token :=
  [createToken "working" 0; createToken " " 7; createToken "in" 7;
   createToken " " 10; createToken "it" 10].

Definition workingOps : list Operation.t :=
  [{| Operation.action := Action.equal;
      Operation.startInBefore := 0; Operation.endInBefore := Some 1;
      Operation.startInAfter := 0; Operation.endInAfter := Some 1 |};
   {| Operation.action := Action.replace;
      Operation.startInBefore := 2; Operation.endInBefore := Some 2;
      Operation.startInAfter := 2; Operation.endInAfter := Some 2 |};
   {| Operation.action := Action.equal;
      Operation.startInBefore := 3; Operation.endInBefore := Some 4;
      Operation.startInAfter := 3; Operation.endInAfter := Some 4 |}].

(** What is read of a match or an operation in the examples. *)
Definition matchSummary (m : Match.t) : Z * Z * Z :=
  (Match.startInBefore m, Match.startInAfter m, Match.length m).

Definition operationSummary (op : Operation.t) : Action.t * Z * option Z * Z * option Z :=
  (Operation.action op, Operation.startInBefore op, Operation.endInBefore op,
   Operation.startInAfter op, Operation.endInAfter op).

(** The matching blocks of two documents, each with the keys of the two
    tokens it starts at. *)
Definition blocksWithKeys (before after : string)
  : Result (list (Z * Z * Z * option string * option string)) :=
  let* beforeTokens := htmlToTokens before in
  let* afterTokens := htmlToTokens after in
  let* segment := createSegment beforeTokens afterTokens 0 0 in
  let* matches := findMatchingBlocks segment in
  Ok (map (fun m => (matchSummary m,
                     keyAt beforeTokens (Match.startInBefore m),
                     keyAt afterTokens (Match.startInAfter m))) matches).

(** The operations between two documents. *)
Definition operationsBetween (before after : string)
  : Result (list (Action.t * Z * option Z * Z * option Z)) :=
  let* beforeTokens := htmlToTokens before in
  let* afterTokens := htmlToTokens after in
  let* ops := calculateOperations (Some beforeTokens) (Some afterTokens) in
  Ok (map operationSummary ops).

(** The literal texts of the tokens of a document. *)
Definition tokenTexts (html : string) : Result (list string) :=
  let* tokens := htmlToTokens html in Ok (map str tokens).

(** ** Further vocabulary *)

(** The indices, counted from [index], of the tokens with key [k]. *)
Fixpoint positionsFrom (k : string) (tokens : list Token) (index : Z) : list Z :=
  match tokens with
  | [] => []
  | t :: rest =>
      if String.eqb (key t) k then index :: positionsFrom k rest (index + 1)
      else positionsFrom k rest (index + 1)
  end.

(** What a lookup map holds for [k]: the indices of the tokens with that
    key in increasing order, and no entry when there is none. *)
Definition locationsOf (k : string) (tokens : list Token) : option (list Z) :=
  match positionsFrom k tokens 0 with
  | [] => None
  | locations => Some locations
  end.

(** The tokens at [beforeStart + i] and [afterStart + i] exist and have the
    same key, for every [i] below [len]. *)
Definition keysAgree (beforeTokens afterTokens : list Token)
           (beforeStart afterStart len : Z) : Prop :=
  forall i, 0 <= i < len ->
    exists k, keyAt beforeTokens (beforeStart + i) = Some k /\
              keyAt afterTokens (afterStart + i) = Some k.

(** The key of a token is the single space, or no token of [others] has it. *)
Definition spaceOrAbsent (others : list Token) (t : Token) : bool :=
  String.eqb (key t) " " || negb (existsb (fun u => String.eqb (key u) (key t)) others).

(** The one operation that turns a document of [lenBefore] tokens into one
    of [lenAfter] tokens when nothing matches; none for two empty documents. *)
Definition wholeDocumentOperation (lenBefore lenAfter : Z) : list Operation.t :=
  if lenBefore =? 0 then
    if lenAfter =? 0 then []
    else [{| Operation.action := Action.insert;
             Operation.startInBefore := 0; Operation.endInBefore := None;
             Operation.startInAfter := 0; Operation.endInAfter := Some (lenAfter - 1) |}]
  else
    if lenAfter =? 0 then
      [{| Operation.action := Action.delete;
          Operation.startInBefore := 0; Operation.endInBefore := Some (lenBefore - 1);
          Operation.startInAfter := 0; Operation.endInAfter := None |}]
    else
      [{| Operation.action := Action.replace;
          Operation.startInBefore := 0; Operation.endInBefore := Some (lenBefore - 1);
          Operation.startInAfter := 0; Operation.endInAfter := Some (lenAfter - 1) |}].

(** The operations that remain when every replace that follows a kept
    replace is left out; [last] is the action of the last kept operation. *)
Fixpoint dropRepeatedReplace (last : Action.t) (ops : list Operation.t)
  : list Operation.t :=
  match ops with
  | [] => []
  | op :: rest =>
      if Action.eqb (Operation.action op) Action.replace && Action.eqb last Action.replace
      then dropRepeatedReplace last rest
      else op :: dropRepeatedReplace (Operation.action op) rest
  end.

(** No two consecutive operations are both changes (operations other than
    equal); [afterChange] tells whether the operation before the list is one. *)
Fixpoint changesSeparated (afterChange : bool) (ops : list Operation.t) : bool :=
  match ops with
  | [] => true
  | op :: rest =>
      let change := negb (Action.eqb (Operation.action op) Action.equal) in
      negb (change && afterChange) && changesSeparated change rest
  end.

(** Both ends of a match are in order, on both sides. *)
Definition orderedEnds (m : Match.t) : Prop :=
  Match.startInBefore m <= Match.endInBefore m /\
  Match.startInAfter m <= Match.endInAfter m.

(** Every character of the text is a letter or a digit for the tokenizer. *)
Definition isWord (s : string) : bool :=
  forallb (fun c => test unicodeLetterExpr (charString c)) (list_ascii_of_string s).

(** Every operation has one of the four actions. *)
Definition knownActions (ops : list Operation.t) : bool :=
  forallb (fun op => negb (Action.eqb (Operation.action op) Action.none)) ops.

(** Every operation is an equal operation that carries the end of its
    after side. *)
Definition allEqual (ops : list Operation.t) : bool :=
  forallb (fun op =>
             Action.eqb (Operation.action op) Action.equal &&
             match Operation.endInAfter op with Some _ => true | None => false end) ops.

(** [tiles] as a test. *)
Fixpoint tilesb (ranges : list (Z * Z)) (from to : Z) : bool :=
  match ranges with
  | [] => from =? to
  | (s, e) :: rest => (s =? from) && (s <=? e) && tilesb rest (e + 1) to
  end.

(** The tokens a match pairs inside its segment have equal keys. *)
Definition matchKeysAgree (seg : Segment) (m : Match.t) : Prop :=
  keysAgree (beforeTokens seg) (afterTokens seg)
    (Match.segmentStartInBefore m) (Match.segmentStartInAfter m) (Match.length m).

Definition optKeysAgree (seg : Segment) (m : option Match.t) : Prop :=
  match m with Some m' => matchKeysAgree seg m' | None => True end.

(** Every location a lookup map stores under a key is the index of a token
    with that key. *)
Definition soundLocations (tokens : list Token) (map : gmap string (list Z)) : Prop :=
  forall k locations,
    map !! k = Some locations ->
    Forall (fun a => 0 <= a /\ keyAt tokens a = Some k) locations.

(** The segment of two empty documents, and a block placed in it. *)
Definition emptySegment : Segment :=
  {| beforeTokens := []; afterTokens := []; beforeMap := ∅; afterMap := ∅;
     beforeIndex := 0; afterIndex := 0 |}.

Definition blockAt (startInBefore startInAfter length : Z) : Match.t :=
  makeMatch startInBefore startInAfter length emptySegment.

(** The tokens of [wrap] after its second callback has been applied to the
    opening tags noted by [TokenWrapper]; [index] is the index of the first
    token of the list. *)
Fixpoint annotateFrom (tagFn : string -> string) (notes : list Note.t)
         (tokens : list string) (index : Z) : list string :=
  match tokens with
  | [] => []
  | t :: rest =>
      (match JS.index notes index with
       | Some n => if Note.insertedTag n then tagFn t else t
       | None => t
       end) :: annotateFrom tagFn notes rest (index + 1)
  end.

Definition annotate (tagFn : string -> string) (notes : list Note.t)
           (tokens : list string) : list string :=
  annotateFrom tagFn notes tokens 0.

(** The text has no [<]. *)
Definition plainText (s : string) : bool :=
  forallb (fun c => negb (Ascii.eqb "<" c)) (list_ascii_of_string s).

(** The text is not empty and made of white space only. *)
Definition isBlankRun (s : string) : bool :=
  JS.truthy s && forallb JS.isSpaceChar (list_ascii_of_string s).

(** The note of a token that is wrappable and opens no pair. *)
Definition plainNote : Note.t :=
  {| Note.isWrappable := true; Note.insertedTag := false |}.

(** The segment [calculateOperations] builds for two token lists, when
    [createSegment] returns. *)
Definition segmentOf (before after : list Token) : Segment :=
  match createSegment before after 0 0 with
  | Ok seg => seg
  | _ => emptySegment
  end.

(** A non-empty text of letters and digits that names no property
    inherited from [Object.prototype]. *)
Definition ordinaryWord (s : string) : bool :=
  isWord s && JS.truthy s && negb (inheritedProperty s).

(** The segment of the two example documents. *)
Definition workingSegment : Segment := segmentOf workingOnIt workingInIt.

(** The equal operation that covers two documents of [len] tokens whole. *)
Definition wholeEqualOperation (len : Z) : Operation.t :=
  {| Operation.action := Action.equal;
     Operation.startInBefore := 0; Operation.endInBefore := Some (len - 1);
     Operation.startInAfter := 0; Operation.endInAfter := Some (len - 1) |}.

(** The list is not empty and the key of its first token is not the single
    space. *)
Definition startsWithWord (tokens : list Token) : bool :=
  match tokens with
  | t :: _ => negb (String.eqb (key t) " ")
  | [] => false
  end.

(** ** Runs of the specification *)

(** The maximal runs the specification speaks of, for tokens given with
    their wrappable flags: consecutive tokens with the same flag are one
    run, and a run ends only where the flag changes or the list ends. *)
Fixpoint maximalRuns (items : list (bool * string)) : list WrappableTokens.t :=
  match items with
  | [] => []
  | (flag, token) :: rest =>
      match maximalRuns rest with
      | run :: runs =>
          if Bool.eqb (WrappableTokens.isWrappable run) flag
          then {| WrappableTokens.isWrappable := flag;
                  WrappableTokens.tokens := token :: WrappableTokens.tokens run |} :: runs
          else {| WrappableTokens.isWrappable := flag;
                  WrappableTokens.tokens := [token] |} :: run :: runs
      | [] => [{| WrappableTokens.isWrappable := flag;
                  WrappableTokens.tokens := [token] |}]
      end
  end.

(** The maximal runs after one more token at the end. *)
Fixpoint snocRun (runs : list WrappableTokens.t) (flag : bool) (token : string)
  : list WrappableTokens.t :=
  match runs with
  | [] => [{| WrappableTokens.isWrappable := flag; WrappableTokens.tokens := [token] |}]
  | run :: rest =>
      match rest with
      | [] =>
          if Bool.eqb (WrappableTokens.isWrappable run) flag
          then [{| WrappableTokens.isWrappable := WrappableTokens.isWrappable run;
                   WrappableTokens.tokens := WrappableTokens.tokens run ++ [token] |}]
          else [run; {| WrappableTokens.isWrappable := flag;
                        WrappableTokens.tokens := [token] |}]
      | _ :: _ => run :: snocRun rest flag token
      end
  end.

(** The text is empty or consists only of white space. *)
Definition isBlankText (s : string) : bool :=
  forallb JS.isSpaceChar (list_ascii_of_string s).

(** A run that is wrappable and whose concatenated text is blank. *)
Definition isBlankWrappableRun (run : WrappableTokens.t) : bool :=
  WrappableTokens.isWrappable run &&
  isBlankText (JS.join EmptyString (WrappableTokens.tokens run)).

(** The tokens of [combineTokenNotes] from [index] on, each with the flag
    [notes[index]?.isWrappable ?? false] the loop reads for it and after the
    second callback has been applied where its note says so. *)
Fixpoint notedFrom (tagFn : string -> string) (notes : list Note.t)
         (tokens : list string) (index : Z) : list (bool * string) :=
  match tokens with
  | [] => []
  | t :: rest =>
      (wrappableAt notes index,
       match JS.index notes index with
       | Some n => if Note.insertedTag n then tagFn t else t
       | None => t
       end) :: notedFrom tagFn notes rest (index + 1)
  end.

(** * Proofs *)

#[local] Arguments String.append !_ _ / : simpl nomatch.

(** Case analysis on every condition of the goal, outermost first. *)
Ltac case_ifs :=
  repeat match goal with
         | |- context [if ?b then _ else _] => destruct b eqn:?
         end.

(** ** Totality of the tokenizer *)

(** What one pass through the loop body does to the mode and the index. *)
Lemma scanChar_total (st : Scanner) (c : ascii) :
  validMode (mode st) ->
  exists st', scanChar st c = Ok st' /\ validMode (mode st') /\
    (charIdx st' = charIdx st \/
     (mode st = "whitespace" /\ mode st' = "char" /\ charIdx st' = charIdx st - 1)).
Proof.
  unfold validMode, scanChar.
  intros [H | [H | [H | [H | [H | H]]]]]; rewrite H; cbn [String.eqb Ascii.eqb Bool.eqb];
    repeat match goal with
           | |- context [if ?b then _ else _] => destruct b
           end;
    eexists; (split; [reflexivity |]); cbn; rewrite ?H; intuition auto.
Qed.

Lemma index_in_range {A : Type} (l : list A) (i : Z) :
  0 <= i < Z.of_nat (List.length l) -> exists x, JS.index l i = Some x.
Proof.
  intros Hi. unfold JS.index.
  destruct (i <? 0) eqn:E; [lia |].
  destruct (nth_error l (Z.to_nat i)) eqn:N; [eauto |].
  apply nth_error_None in N. lia.
Qed.

Lemma scanLoop_total (unicodeChars : list ascii) (fuel : nat) :
  forall st,
    validMode (mode st) ->
    0 <= charIdx st ->
    (mode st = "whitespace" -> 1 <= charIdx st) ->
    charIdx st <= Z.of_nat (List.length unicodeChars) ->
    scanMeasure (Z.of_nat (List.length unicodeChars)) st < Z.of_nat fuel ->
    exists st', scanLoop fuel unicodeChars st = Ok st'.
Proof.
  induction fuel as [| fuel IH]; intros st Hm H0 Hw Hn Hfuel.
  - unfold scanMeasure in Hfuel.
    destruct (String.eqb (mode st) "whitespace"); lia.
  - cbn [scanLoop].
    destruct (charIdx st <? Z.of_nat (List.length unicodeChars)) eqn:Elt; [| eauto].
    apply Z.ltb_lt in Elt.
    destruct (index_in_range unicodeChars (charIdx st)) as [c Hc]; [lia |].
    rewrite Hc.
    destruct (scanChar_total st c Hm) as (st' & Hst' & Hm' & Hidx).
    rewrite Hst'. cbn [bindR].
    apply IH; cbn [mode charIdx].
    + exact Hm'.
    + destruct Hidx as [-> | (Hws & _ & ->)]; [lia |]. specialize (Hw Hws). lia.
    + intros _. destruct Hidx as [-> | (Hws & _ & ->)]; [lia |]. specialize (Hw Hws). lia.
    + destruct Hidx as [-> | (_ & _ & ->)]; lia.
    + unfold scanMeasure in *. cbn [mode charIdx].
      destruct Hidx as [-> | (Hws & Hch & ->)].
      * destruct (String.eqb (mode st') "whitespace"), (String.eqb (mode st) "whitespace"); lia.
      * rewrite Hch, Hws in *. cbn in *. lia.
Qed.

Lemma htmlToTokens_returns (html : string) :
  exists tokens, htmlToTokens html = Ok tokens.
Proof.
  unfold htmlToTokens.
  destruct (scanLoop_total (list_ascii_of_string html)
              (2 * List.length (list_ascii_of_string html) + 1)
              {| mode := "char"; currentWord := EmptyString; currentWordPos := 0;
                 currentAtomicTag := EmptyString; words := []; charIdx := 0 |})
    as [st Hst]; cbn [mode charIdx].
  - unfold validMode; auto.
  - lia.
  - discriminate.
  - lia.
  - unfold scanMeasure. cbn. lia.
  - rewrite Hst. cbn. eauto.
Qed.

(** *** Strings *)


Lemma append_nil_r (s : string) : s +:+ EmptyString = s.
Proof. induction s; cbn; congruence. Qed.

Lemma append_assoc (a b c : string) : (a +:+ b) +:+ c = a +:+ (b +:+ c).
Proof. induction a; cbn; congruence. Qed.

Lemma list_ascii_of_string_app (a b : string) :
  list_ascii_of_string (a +:+ b) = list_ascii_of_string a ++ list_ascii_of_string b.
Proof. induction a; cbn; congruence. Qed.

Lemma list_ascii_of_string_inj (a b : string) :
  list_ascii_of_string a = list_ascii_of_string b -> a = b.
Proof.
  intros H. rewrite <- (string_of_list_ascii_of_string a), H.
  apply string_of_list_ascii_of_string.
Qed.

Lemma join_cons (x : string) (l : list string) :
  JS.join EmptyString (x :: l) = x +:+ JS.join EmptyString l.
Proof.
  unfold JS.join. destruct l; cbn; [now rewrite append_nil_r | reflexivity].
Qed.

Lemma join_app (l1 l2 : list string) :
  JS.join EmptyString (l1 ++ l2) = JS.join EmptyString l1 +:+ JS.join EmptyString l2.
Proof.
  induction l1 as [| x l1 IH]; [reflexivity |].
  rewrite <- app_comm_cons, !join_cons, IH, append_assoc. reflexivity.
Qed.

Lemma text_snoc (tokens : list Token) (t : Token) :
  text (tokens ++ [t]) = text tokens +:+ str t.
Proof.
  unfold text. rewrite map_app, join_app. cbn. reflexivity.
Qed.

Lemma text_pushWord (st : Scanner) :
  text (pushWord st) = text (words st) +:+ currentWord st.
Proof.
  unfold pushWord. destruct (currentWord st); cbn [JS.truthy].
  - now rewrite append_nil_r.
  - now rewrite text_snoc.
Qed.

(** *** The two comment tests *)

Lemma execFrom_Bol_later (input : string) (r : regex) (rest : string) :
  forall pos, execFrom input (Cat Bol r) (S pos) rest = None.
Proof.
  induction rest as [| a rest IH]; intros pos; cbn; [reflexivity | apply IH].
Qed.

Lemma isStartOfHTMLComment_prefix (word : string) :
  isStartOfHTMLComment word = true -> exists u, word = "<!--" +:+ u.
Proof.
  unfold isStartOfHTMLComment, test, exec.
  destruct word as [| a [| b [| c [| d u]]]]; cbn -[Ascii.eqb]; try discriminate;
    rewrite ?execFrom_Bol_later;
    repeat match goal with
           | |- context [Ascii.eqb ?x ?y] => destruct (Ascii.eqb_spec x y); cbn -[Ascii.eqb]
           end;
    rewrite ?execFrom_Bol_later; try discriminate.
  intros _. subst. exists u. reflexivity.
Qed.

Lemma execFrom_comment_end (input : string) (rest : string) :
  forall pos x,
    execFrom input (Seq [Lit "-->"; Eol]) pos rest = Some x ->
    exists v, rest = v +:+ "-->".
Proof.
  induction rest as [| a rest IH]; intros pos x; [cbn; discriminate |].
  cbn [execFrom].
  destruct (rmatch input (Seq [Lit "-->"; Eol]) pos (String a rest) None
              (fun e _ c => Some (e, c))) as [[e c] |] eqn:E.
  - intros _. exists EmptyString. cbn.
    destruct rest as [| b [| c' [| d rest]]]; cbn -[Ascii.eqb] in E;
      repeat match type of E with
             | context [Ascii.eqb ?x ?y] =>
                 destruct (Ascii.eqb_spec x y); cbn -[Ascii.eqb] in E
             end; try discriminate.
    subst. reflexivity.
  - intros H. apply IH in H. destruct H as [v ->]. exists (String a v). reflexivity.
Qed.

Lemma isEndOfHTMLComment_suffix (word : string) :
  isEndOfHTMLComment word = true -> exists v, word = v +:+ "-->".
Proof.
  unfold isEndOfHTMLComment, test, exec.
  destruct (execFrom word (Seq [Lit "-->"; Eol]) 0 word) eqn:E; [| discriminate].
  intros _. eapply execFrom_comment_end; eauto.
Qed.

(** *** The scanned prefix *)

Lemma firstn_succ_nth {A : Type} (l : list A) (i : nat) (x : A) :
  nth_error l i = Some x -> firstn (S i) l = firstn i l ++ [x].
Proof.
  revert i. induction l as [| y l IH]; intros [| i] H; cbn in *; try discriminate.
  - injection H as ->. reflexivity.
  - f_equal. auto.
Qed.

Lemma split_at_nth {A : Type} (l : list A) (i : nat) (x : A) :
  nth_error l i = Some x -> l = firstn i l ++ x :: skipn (S i) l.
Proof.
  revert i. induction l as [| y l IH]; intros [| i] H; cbn in *; try discriminate.
  - injection H as ->. reflexivity.
  - f_equal. auto.
Qed.

Lemma index_nth_error {A : Type} (l : list A) (i : Z) (x : A) :
  JS.index l i = Some x -> 0 <= i /\ nth_error l (Z.to_nat i) = Some x.
Proof.
  unfold JS.index. destruct (i <? 0) eqn:E; [discriminate |].
  apply Z.ltb_ge in E. auto.
Qed.

Lemma scanned_advance (unicodeChars : list ascii) (i : Z) (c : ascii) (t0 t : string) :
  JS.index unicodeChars i = Some c ->
  list_ascii_of_string t0 = firstn (Z.to_nat i) unicodeChars ->
  t = t0 +:+ charString c ->
  list_ascii_of_string t = firstn (Z.to_nat (i + 1)) unicodeChars.
Proof.
  intros Hc H0 ->. apply index_nth_error in Hc as [Hi Hc].
  replace (Z.to_nat (i + 1)) with (S (Z.to_nat i)) by lia.
  rewrite (firstn_succ_nth _ _ _ Hc), list_ascii_of_string_app, H0. reflexivity.
Qed.

Lemma occurs_unfold (needle s : string) :
  occurs needle s =
  String.prefix needle s ||
  match s with String _ s' => occurs needle s' | EmptyString => false end.
Proof. destruct s; reflexivity. Qed.

Lemma prefix_app (needle b : string) : String.prefix needle (needle +:+ b) = true.
Proof.
  induction needle as [| y needle IHn]; cbn; [now destruct b |].
  destruct (ascii_dec y y); [exact IHn | congruence].
Qed.

Lemma occurs_app (needle a b : string) : occurs needle (a +:+ needle +:+ b) = true.
Proof.
  induction a as [| x a IH]; cbn [String.append].
  - rewrite occurs_unfold, prefix_app. reflexivity.
  - cbn [occurs]. rewrite IH. apply orb_true_r.
Qed.

Lemma containsHTMLComment_cons (x : ascii) (s : string) :
  containsHTMLComment s = true -> containsHTMLComment (String x s) = true.
Proof. intros H. cbn [containsHTMLComment]. rewrite H. apply orb_true_r. Qed.

(** An opening mark followed by at least one character and closed inside
    the text is a comment in the sense of [containsHTMLComment]. *)
Lemma containsHTMLComment_intro (p u v rest : string) (c : ascii) :
  ("<!--" +:+ u) +:+ charString c = v +:+ "-->" ->
  containsHTMLComment (p +:+ (("<!--" +:+ u) +:+ charString c) +:+ rest) = true.
Proof.
  intros H. induction p as [| x p IHp].
  - rewrite H.
    destruct v as [| a [| b v]].
    + cbn in H. discriminate.
    + cbn in H. destruct u; cbn in H; discriminate.
    + cbn in H. injection H as <- <- H.
      assert (Hp : String.prefix "<!--"
                     (String "<" (String "!" ((v +:+ "-->") +:+ rest))) = true)
        by (rewrite <- H; apply (prefix_app "<!--" ((u +:+ charString c) +:+ rest))).
      assert (Ho : occurs "-->" ((v +:+ "-->") +:+ rest) = true)
        by (rewrite append_assoc; apply occurs_app).
      cbn [String.append containsHTMLComment dropTwo].
      rewrite Hp, Ho. reflexivity.
  - apply (containsHTMLComment_cons x), IHp.
Qed.

Lemma charString_eqb (c : ascii) (s : string) :
  String.eqb (charString c) s = true -> s = charString c.
Proof. intros H. apply String.eqb_eq in H. congruence. Qed.

Section Lossless.

Variable html : string.
Hypothesis no_comment : containsHTMLComment html = false.

Let unicodeChars : list ascii := list_ascii_of_string html.

Lemma comment_never_closes (st : Scanner) (c : ascii) :
  JS.index unicodeChars (charIdx st) = Some c ->
  scanned unicodeChars st (charIdx st) ->
  (exists u, currentWord st = "<!--" +:+ u) ->
  isEndOfHTMLComment (currentWord st +:+ charString c) = false.
Proof.
  intros Hc Hsc [u Hu].
  destruct (isEndOfHTMLComment (currentWord st +:+ charString c)) eqn:E; [| reflexivity].
  apply isEndOfHTMLComment_suffix in E as [v Hv].
  apply index_nth_error in Hc as [_ Hc].
  pose proof (split_at_nth _ _ _ Hc) as Hsplit.
  unfold scanned in Hsc. rewrite <- Hsc in Hsplit.
  assert (html = text (words st) +:+ (("<!--" +:+ u) +:+ charString c) +:+
                 string_of_list_ascii (skipn (S (Z.to_nat (charIdx st))) unicodeChars))
    as Hhtml.
  { apply list_ascii_of_string_inj. fold unicodeChars. rewrite Hsplit at 1.
    rewrite !list_ascii_of_string_app, list_ascii_of_string_of_list_ascii, Hu.
    rewrite !list_ascii_of_string_app, <- !app_assoc. reflexivity. }
  rewrite Hu in Hv. pose proof no_comment as Hno.
  rewrite Hhtml, (containsHTMLComment_intro _ _ _ _ _ Hv) in Hno. discriminate.
Qed.

(** One pass through the loop body keeps the scanned prefix in step with
    the index the next pass reads. *)
Lemma scanChar_lossless (st st' : Scanner) (c : ascii) :
  JS.index unicodeChars (charIdx st) = Some c ->
  scanned unicodeChars st (charIdx st) ->
  commentOpened st ->
  scanChar st c = Ok st' ->
  scanned unicodeChars st' (charIdx st' + 1) /\ commentOpened st'.
Proof.
  intros Hc Hsc Hopen. unfold scanChar.
  case_ifs;
    intros [= <-]; unfold commentOpened; cbn [mode currentWord words charIdx];
    repeat match goal with
      | H : String.eqb (mode st) _ = true |- _ => apply String.eqb_eq in H
      | H : isEndOfTag _ = true |- _ => apply charString_eqb in H
      | H : isStartOfTag _ = true |- _ => apply charString_eqb in H
      | H : String.eqb (charString _) _ = true |- _ => apply charString_eqb in H
      | H : (_ && _)%bool = true |- _ => apply andb_prop in H as [? ?]
      end;
    try match goal with
      | H : isEndOfHTMLComment _ = true, Hm : mode st = "html_comment" |- _ =>
          rewrite (comment_never_closes st c Hc Hsc (Hopen Hm)) in H; discriminate
      end;
    (split;
     [ first
         [ (* the index stepped back: nothing new was read *)
           replace (charIdx st - 1 + 1) with (charIdx st) by lia;
           unfold scanned in *; cbn [words currentWord];
           rewrite text_pushWord, append_nil_r; exact Hsc
         | eapply scanned_advance; [exact Hc | exact Hsc |];
           cbn [words currentWord];
           rewrite ?text_snoc, ?text_pushWord; cbn [createToken str];
           rewrite ?append_nil_r, ?append_assoc;
           repeat match goal with H : _ = charString c |- _ => rewrite H end;
           reflexivity ]
     | try (intros ?; congruence) ]);
    intros _.
  - match goal with H : isStartOfHTMLComment _ = true |- _ =>
      apply isStartOfHTMLComment_prefix in H as [u ->] end.
    exists (u +:+ charString c). reflexivity.
  - match goal with H : mode st = "html_comment" |- _ => destruct (Hopen H) as [u ->] end.
    exists (u +:+ charString c). reflexivity.
Qed.

Lemma scanLoop_lossless (fuel : nat) :
  forall st st',
    scanned unicodeChars st (charIdx st) ->
    commentOpened st ->
    scanLoop fuel unicodeChars st = Ok st' ->
    text (words st') +:+ currentWord st' = html.
Proof.
  induction fuel as [| fuel IH]; intros st st' Hsc Hopen; [discriminate |].
  cbn [scanLoop].
  destruct (charIdx st <? Z.of_nat (List.length unicodeChars)) eqn:Elt.
  - destruct (JS.index unicodeChars (charIdx st)) as [c |] eqn:Hc; [| discriminate].
    destruct (scanChar st c) as [st1 | |] eqn:Hstep; try discriminate.
    cbn [bindR]. intros Hloop.
    destruct (scanChar_lossless st st1 c Hc Hsc Hopen Hstep) as [Hsc1 Hopen1].
    eapply IH; [| | exact Hloop]; cbn [charIdx mode currentWord words]; assumption.
  - intros [= <-]. apply Z.ltb_ge in Elt.
    apply list_ascii_of_string_inj. rewrite Hsc.
    apply firstn_all2. unfold unicodeChars in *. lia.
Qed.

Lemma htmlToTokens_spells_input :
  exists tokens, htmlToTokens html = Ok tokens /\ text tokens = html.
Proof.
  destruct (htmlToTokens_returns html) as [tokens Htok].
  exists tokens. split; [exact Htok |].
  unfold htmlToTokens in Htok.
  destruct (scanLoop _ _ _) as [st | |] eqn:Hloop; try discriminate.
  cbn [bindR] in Htok. injection Htok as <-.
  rewrite text_pushWord.
  eapply scanLoop_lossless; [| | exact Hloop].
  - reflexivity.
  - intros H. discriminate.
Qed.

End Lossless.

(** ** Slices *)

Lemma slice_between {A : Type} (l : list A) (a b : Z) :
  0 <= a <= b ->
  JS.slice l a b = firstn (Z.to_nat (b - a)) (skipn (Z.to_nat a) l).
Proof.
  intros H. unfold JS.slice, JS.relIndex.
  destruct (a <? 0) eqn:Ea; [lia |]. destruct (b <? 0) eqn:Eb; [lia |].
  set (n := Z.of_nat (List.length l)).
  destruct (Z.le_gt_cases n a) as [Hna | Hna].
  - rewrite (Z.min_r a n) by lia. rewrite !skipn_all2 by lia. now rewrite !firstn_nil.
  - rewrite (Z.min_l a n) by lia.
    destruct (Z.le_gt_cases n b) as [Hnb | Hnb].
    + rewrite (Z.min_r b n) by lia.
      rewrite !firstn_all2; [reflexivity | |]; rewrite length_skipn; lia.
    + rewrite (Z.min_l b n) by lia. reflexivity.
Qed.

Lemma slice_prefix {A : Type} (l : list A) (k : Z) :
  0 <= k -> JS.slice l 0 k = firstn (Z.to_nat k) l.
Proof.
  intros H. rewrite slice_between by lia. now rewrite Z.sub_0_r.
Qed.

Lemma sliceFrom_suffix {A : Type} (l : list A) (k : Z) :
  0 <= k -> JS.sliceFrom l k = skipn (Z.to_nat k) l.
Proof.
  intros H. unfold JS.sliceFrom.
  destruct (Z.le_gt_cases k (Z.of_nat (List.length l))) as [Hk | Hk].
  - rewrite slice_between by lia. apply firstn_all2. rewrite length_skipn. lia.
  - unfold JS.slice, JS.relIndex.
    destruct (k <? 0) eqn:Ek; [lia |].
    destruct (Z.of_nat (List.length l) <? 0) eqn:En; [lia |].
    rewrite (Z.min_r k) by lia. rewrite Z.min_id, Z.sub_diag.
    rewrite !skipn_all2 by lia. reflexivity.
Qed.

Lemma arrayLength_nonneg {A : Type} (l : list A) : 0 <= arrayLength l.
Proof. unfold arrayLength. lia. Qed.

Lemma arrayLength_prefix {A : Type} (l : list A) (k : Z) :
  0 <= k -> arrayLength (JS.slice l 0 k) <= k.
Proof.
  intros H. rewrite slice_prefix by lia. unfold arrayLength.
  rewrite length_firstn. lia.
Qed.

Lemma arrayLength_suffix {A : Type} (l : list A) (k : Z) :
  0 <= k <= arrayLength l -> arrayLength (JS.sliceFrom l k) = arrayLength l - k.
Proof.
  intros H. rewrite sliceFrom_suffix by lia. unfold arrayLength in *.
  rewrite length_skipn. lia.
Qed.

(** ** Keys and lookup maps *)

Lemma safeKeys_prefix (tokens : list Token) (k : Z) :
  0 <= k -> safeKeys tokens -> safeKeys (JS.slice tokens 0 k).
Proof.
  intros Hk H. rewrite slice_prefix by lia. unfold safeKeys in *.
  now apply Forall_take.
Qed.

Lemma safeKeys_suffix (tokens : list Token) (k : Z) :
  0 <= k -> safeKeys tokens -> safeKeys (JS.sliceFrom tokens k).
Proof.
  intros Hk H. rewrite sliceFrom_suffix by lia. unfold safeKeys in *.
  now apply Forall_drop.
Qed.

Lemma safeKeysb_spec (tokens : list Token) :
  safeKeysb tokens = true <-> safeKeys tokens.
Proof.
  unfold safeKeysb, safeKeys.
  induction tokens as [| t tokens IH]; cbn [forallb].
  - split; [constructor | reflexivity].
  - rewrite andb_true_iff, IH, negb_true_iff. split.
    + intros [? ?]. now constructor.
    + intros H. inversion H; subst. auto.
Qed.

Lemma createMap_step_ok (map : gmap string (list Z)) (token : Token) (index : Z) :
  inheritedProperty (key token) = false ->
  0 <= index ->
  nonnegLocations map ->
  exists map', createMap_step map token index = Ok map' /\ nonnegLocations map'.
Proof.
  intros Hsafe Hidx Hmap. unfold createMap_step.
  destruct (map !! key token) as [locations |] eqn:E.
  - eexists. split; [reflexivity |].
    apply map_Forall_insert_2; [| exact Hmap].
    apply Forall_app. split; [exact (Hmap _ _ E) | now constructor].
  - rewrite Hsafe. eexists. split; [reflexivity |].
    apply map_Forall_insert_2; [| exact Hmap]. now constructor.
Qed.

Lemma createMap_from_ok (tokens : list Token) :
  forall index map,
    safeKeys tokens -> 0 <= index -> nonnegLocations map ->
    exists map', reduceFrom createMap_step tokens index map = Ok map' /\
                 nonnegLocations map'.
Proof.
  induction tokens as [| t tokens IH]; intros index map Hsafe Hidx Hmap; cbn [reduceFrom].
  - eauto.
  - inversion Hsafe as [| ? ? Ht Hrest]; subst.
    destruct (createMap_step_ok map t index Ht Hidx Hmap) as (map1 & -> & Hmap1).
    cbn [bindR]. apply IH; [assumption | lia | assumption].
Qed.

Lemma createMap_ok (tokens : list Token) :
  safeKeys tokens ->
  exists map, createMap tokens = Ok map /\ nonnegLocations map.
Proof.
  intros H. apply createMap_from_ok; [assumption | lia |].
  unfold nonnegLocations. apply map_Forall_empty.
Qed.

(** The own properties of a map built by [createMap] never shadow an
    inherited one, so that the first token with an inherited key makes
    [createMap] throw. *)
Lemma createMap_from_unsafe (tokens : list Token) :
  forall index map,
    (forall k, inheritedProperty k = true -> map !! k = None) ->
    ~ safeKeys tokens ->
    reduceFrom createMap_step tokens index map =
    Throw (TypeError "map[token.key]?.push is not a function").
Proof.
  induction tokens as [| t tokens IH]; intros index map Hown Hunsafe; cbn [reduceFrom].
  - exfalso. apply Hunsafe. constructor.
  - unfold createMap_step at 1.
    destruct (inheritedProperty (key t)) eqn:Et.
    + rewrite (Hown _ Et). reflexivity.
    + assert (~ safeKeys tokens) as Hrest.
      { intros Hs. apply Hunsafe. constructor; assumption. }
      destruct (map !! key t) eqn:E; cbn [bindR]; apply IH; try exact Hrest;
        intros k Hk; rewrite lookup_insert_ne; auto; congruence.
Qed.

Lemma createMap_unsafe (tokens : list Token) :
  ~ safeKeys tokens ->
  createMap tokens = Throw (TypeError "map[token.key]?.push is not a function").
Proof.
  intros H. apply createMap_from_unsafe; [| exact H].
  intros k _. apply lookup_empty.
Qed.

Lemma safeKeys_dec (tokens : list Token) : safeKeys tokens \/ ~ safeKeys tokens.
Proof.
  destruct (safeKeysb tokens) eqn:E.
  - left. now apply safeKeysb_spec.
  - right. intros H. apply safeKeysb_spec in H. congruence.
Qed.

Lemma createSegment_ok (bt at_ : list Token) (bi ai : Z) :
  safeKeys bt -> safeKeys at_ ->
  exists seg, createSegment bt at_ bi ai = Ok seg /\
    beforeTokens seg = bt /\ afterTokens seg = at_ /\
    beforeIndex seg = bi /\ afterIndex seg = ai /\
    nonnegLocations (afterMap seg).
Proof.
  intros Hb Ha. unfold createSegment.
  destruct (createMap_ok bt Hb) as (mb & -> & _).
  destruct (createMap_ok at_ Ha) as (ma & -> & Hma).
  cbn [bindR]. eexists. split; [reflexivity |]. cbn. auto.
Qed.

Lemma createSegment_unsafe (bt at_ : list Token) (bi ai : Z) :
  ~ (safeKeys bt /\ safeKeys at_) ->
  createSegment bt at_ bi ai =
  Throw (TypeError "map[token.key]?.push is not a function").
Proof.
  intros H. unfold createSegment.
  destruct (safeKeys_dec bt) as [Hb | Hb].
  - destruct (createMap_ok bt Hb) as (mb & -> & _). cbn [bindR].
    rewrite createMap_unsafe; [reflexivity | tauto].
  - rewrite (createMap_unsafe bt Hb). reflexivity.
Qed.

(** ** Matches found in a segment *)

Lemma getFullMatch_while_ok (bt at_ : list Token) (bs as_ : Z) (fuel : nat) :
  forall cl,
    Z.max 0 (arrayLength bt - (bs + cl)) < Z.of_nat fuel ->
    exists cl', getFullMatch_while fuel bt at_ bs as_ cl = Ok cl' /\
      cl <= cl' /\
      (cl' = cl \/ (bs + cl' <= arrayLength bt /\ as_ + cl' <= arrayLength at_)).
Proof.
  induction fuel as [| fuel IH]; intros cl Hfuel; [lia |].
  cbn [getFullMatch_while].
  destruct ((bs + cl <? arrayLength bt) && (as_ + cl <? arrayLength at_)) eqn:Ein.
  - apply andb_prop in Ein as [Hb Ha]. apply Z.ltb_lt in Hb, Ha.
    destruct (strictEq _ _).
    + destruct (IH (cl + 1)) as (cl' & -> & Hle & Hcase); [lia |].
      exists cl'. split; [reflexivity |]. split; [lia |].
      right. destruct Hcase as [-> | ?]; [lia | assumption].
    + exists cl. split; [reflexivity |]. split; [lia | auto].
  - exists cl. split; [reflexivity |]. split; [lia | auto].
Qed.

Lemma makeMatch_local (seg : Segment) (bs as_ len : Z) :
  0 <= bs -> 0 <= as_ -> 1 <= len ->
  bs + len <= arrayLength (beforeTokens seg) ->
  as_ + len <= arrayLength (afterTokens seg) ->
  localMatch seg (makeMatch bs as_ len seg).
Proof.
  intros. unfold localMatch, makeMatch. cbn. repeat split; assumption.
Qed.

Lemma getFullMatch_ok (seg : Segment) (bs as_ minLength : Z) (lookBehind : bool) :
  0 <= bs -> 0 <= as_ -> 0 <= minLength ->
  exists r, getFullMatch seg bs as_ minLength lookBehind = Ok r /\ optLocalMatch seg r.
Proof.
  intros Hbs Has Hmin. unfold getFullMatch.
  destruct ((bs + minLength >=? arrayLength (beforeTokens seg)) ||
            (as_ + minLength >=? arrayLength (afterTokens seg))) eqn:Eend.
  { exists None. split; [reflexivity | exact I]. }
  apply orb_false_elim in Eend as [Eb Ea].
  rewrite Z.geb_leb in Eb, Ea. apply Z.leb_gt in Eb, Ea.
  destruct (negb (minLength =? 0) && _).
  { exists None. split; [reflexivity | exact I]. }
  destruct (getFullMatch_while_ok (beforeTokens seg) (afterTokens seg) bs as_
              (S (List.length (beforeTokens seg))) 1) as (cl & -> & Hle & Hcase).
  { unfold arrayLength in *. lia. }
  cbn [bindR].
  assert (bs + cl <= arrayLength (beforeTokens seg) /\
          as_ + cl <= arrayLength (afterTokens seg)) as [Hb Ha].
  { destruct Hcase as [-> | ?]; [lia | assumption]. }
  destruct (lookBehind && (bs >? 0) && (as_ >? 0) && _ && _) eqn:Elook.
  - apply andb_prop in Elook as [Elook _]. apply andb_prop in Elook as [Elook _].
    apply andb_prop in Elook as [Elook Has0]. apply andb_prop in Elook as [_ Hbs0].
    rewrite Z.gtb_ltb in Hbs0, Has0. apply Z.ltb_lt in Hbs0, Has0.
    eexists. split; [reflexivity |]. cbn [optLocalMatch].
    apply makeMatch_local; lia.
  - eexists. split; [reflexivity |]. cbn [optLocalMatch].
    apply makeMatch_local; lia.
Qed.

Lemma optLocalMatch_length (seg : Segment) (best : option Match.t) :
  optLocalMatch seg best ->
  0 <= match best with Some b => Match.length b | None => 0 end.
Proof.
  destruct best as [b |]; cbn; [| lia]. intros (_ & _ & H & _). lia.
Qed.

Lemma findBestMatch_each_ok (seg : Segment) (beforeIndex : Z) (lookBehind : bool)
      (best : option Match.t) (afterIndex i : Z) :
  0 <= beforeIndex -> 0 <= afterIndex -> optLocalMatch seg best ->
  exists best', findBestMatch_each seg beforeIndex lookBehind best afterIndex i = Ok best' /\
                optLocalMatch seg best'.
Proof.
  intros Hb Ha Hbest. unfold findBestMatch_each.
  destruct (getFullMatch_ok seg beforeIndex afterIndex
              match best with Some b => Match.length b | None => 0 end lookBehind)
    as (r & -> & Hr); [assumption | assumption | now apply (optLocalMatch_length seg) |].
  cbn [bindR]. destruct r as [m |].
  - destruct (Match.length m >? _); eexists; (split; [reflexivity |]); assumption.
  - eexists; (split; [reflexivity |]); assumption.
Qed.

Lemma findBestMatch_locations_ok (seg : Segment) (beforeIndex : Z) (lookBehind : bool)
      (locations : list Z) :
  forall i best,
    0 <= beforeIndex -> Forall (fun a => 0 <= a) locations -> optLocalMatch seg best ->
    exists best',
      reduceFrom (findBestMatch_each seg beforeIndex lookBehind) locations i best = Ok best' /\
      optLocalMatch seg best'.
Proof.
  induction locations as [| a locations IH]; intros i best Hb Hloc Hbest; cbn [reduceFrom].
  - eauto.
  - inversion Hloc as [| ? ? Ha Hrest]; subst.
    destruct (findBestMatch_each_ok seg beforeIndex lookBehind best a i Hb Ha Hbest)
      as (best1 & -> & Hbest1).
    cbn [bindR]. now apply IH.
Qed.

Lemma index_In {A : Type} (l : list A) (i : Z) (x : A) :
  JS.index l i = Some x -> In x l.
Proof.
  intros H. apply index_nth_error in H as [_ H]. eapply nth_error_In; eauto.
Qed.

Lemma findBestMatch_for_ok (seg : Segment) (n : nat) :
  safeKeys (beforeTokens seg) -> nonnegLocations (afterMap seg) ->
  forall beforeIndex lastSpace best,
    0 <= beforeIndex -> optLocalMatch seg best ->
    exists r, findBestMatch_for n seg beforeIndex lastSpace best = Ok r /\
              optLocalMatch seg r.
Proof.
  intros Hsafe Hmap.
  induction n as [| n IH]; intros beforeIndex lastSpace best Hb Hbest; cbn [findBestMatch_for].
  - eauto.
  - destruct (match best with Some b => _ | None => false end); [eauto |].
    destruct (strictEq _ _); [apply IH; [lia | assumption] |].
    destruct (JS.index (beforeTokens seg) beforeIndex) as [token |] eqn:Etok;
      [| apply IH; [lia | assumption]].
    destruct (afterMap seg !! key token) as [locations |] eqn:Eloc.
    + destruct (findBestMatch_locations_ok seg beforeIndex
                  match lastSpace with Some l => l =? beforeIndex - 1 | None => false end
                  locations 0 best Hb (Hmap _ _ Eloc) Hbest) as (best1 & Hred & Hbest1).
      unfold reduce. rewrite Hred. cbn [bindR]. apply IH; [lia | assumption].
    + assert (inheritedProperty (key token) = false) as ->.
      { unfold safeKeys in Hsafe. rewrite List.Forall_forall in Hsafe.
        apply Hsafe. eapply index_In; eauto. }
      apply IH; [lia | assumption].
Qed.

Lemma findBestMatch_ok (seg : Segment) :
  safeKeys (beforeTokens seg) -> nonnegLocations (afterMap seg) ->
  exists r, findBestMatch seg = Ok r /\ optLocalMatch seg r.
Proof.
  intros Hsafe Hmap. unfold findBestMatch.
  apply findBestMatch_for_ok; [assumption | assumption | lia | exact I].
Qed.

(** ** The ordered collection *)

Lemma compareMatches_before (value m : Match.t) :
  (compareMatches value m =? -1) = true -> precedes m value.
Proof.
  unfold compareMatches, precedes.
  destruct ((Match.endInBefore m <? Match.startInBefore value) &&
            (Match.endInAfter m <? Match.startInAfter value)) eqn:E.
  - intros _. apply andb_prop in E as [H1 H2]. apply Z.ltb_lt in H1, H2. auto.
  - destruct ((Match.startInBefore m >? Match.endInBefore value) &&
              (Match.startInAfter m >? Match.endInAfter value)); cbn; discriminate.
Qed.

Lemma compareMatches_after (value m : Match.t) :
  (compareMatches value m =? -1) = false ->
  (compareMatches value m =? 1) = true -> precedes value m.
Proof.
  unfold compareMatches, precedes.
  destruct ((Match.endInBefore m <? Match.startInBefore value) &&
            (Match.endInAfter m <? Match.startInAfter value)); [cbn; discriminate |].
  destruct ((Match.startInBefore m >? Match.endInBefore value) &&
            (Match.startInAfter m >? Match.endInAfter value)) eqn:E; [| cbn; discriminate].
  intros _ _. apply andb_prop in E as [H1 H2].
  rewrite Z.gtb_ltb in H1, H2. apply Z.ltb_lt in H1, H2. auto.
Qed.

Lemma Forall_addToNode (P : Match.t -> Prop) (n : TreeNode) (m : Match.t) :
  Forall P (nodeToArray n) -> P m -> Forall P (nodeToArray (addToNode n m)).
Proof.
  intros Hn Hm. induction n as [| value l IHl r IHr]; cbn [addToNode nodeToArray] in *.
  - now constructor.
  - apply Forall_app in Hn as [Hl Hr]. apply Forall_app in Hr as [Hv Hr].
    destruct (compareMatches value m =? -1); [| destruct (compareMatches value m =? 1)];
      cbn [nodeToArray]; repeat (apply Forall_app; split); auto.
Qed.

Lemma bst_addToNode (n : TreeNode) (m : Match.t) :
  bst n -> bst (addToNode n m).
Proof.
  induction n as [| value l IHl r IHr]; cbn [addToNode bst nodeToArray].
  - intros _. repeat split; constructor.
  - intros (Hl & Hr & Hlv & Hrv).
    destruct (compareMatches value m =? -1) eqn:E1;
      [| destruct (compareMatches value m =? 1) eqn:E2]; cbn [bst].
    + repeat split; auto. apply Forall_addToNode; [assumption |].
      now apply compareMatches_before.
    + repeat split; auto. apply Forall_addToNode; [assumption |].
      now apply compareMatches_after.
    + repeat split; auto.
Qed.

(** ** The work list *)

Lemma localMatch_fields (seg : Segment) (m : Match.t) :
  localMatch seg m ->
  Match.segmentEndInBefore m = Match.segmentStartInBefore m + Match.length m - 1 /\
  Match.segmentEndInAfter m = Match.segmentStartInAfter m + Match.length m - 1 /\
  Match.startInBefore m = Match.segmentStartInBefore m + beforeIndex seg /\
  Match.startInAfter m = Match.segmentStartInAfter m + afterIndex seg /\
  Match.endInBefore m = Match.segmentStartInBefore m + beforeIndex seg + Match.length m - 1 /\
  Match.endInAfter m = Match.segmentStartInAfter m + afterIndex seg + Match.length m - 1.
Proof.
  intros (_ & _ & _ & _ & _ & H).
  repeat split; rewrite H at 1; reflexivity.
Qed.

Section Worklist.

Variables lenBefore lenAfter : Z.
Variable root : Segment.
Hypothesis root_safe : safeKeys (beforeTokens root).

Lemma localMatch_wf (seg : Segment) (m : Match.t) :
  segmentInBounds lenBefore lenAfter seg -> localMatch seg m ->
  wfMatch lenBefore lenAfter m.
Proof.
  intros (_ & _ & _ & Hbi & Hai & Hb & Ha) Hm.
  pose proof (localMatch_fields seg m Hm) as (_ & _ & F1 & F2 & F3 & F4).
  destruct Hm as (H1 & H2 & H3 & H4 & H5 & _).
  unfold wfMatch. lia.
Qed.

(** One pass through the loop body: the new segments stay inside the
    documents, the tree stays ordered, and the measure of the work list
    drops. *)
Lemma findMatchingBlocks_body_ok (curr : Segment) (rest : list Segment)
      (matches : TreeNode) :
  segmentInBounds lenBefore lenAfter curr ->
  Forall (segmentInBounds lenBefore lenAfter) rest ->
  bst matches ->
  Forall (wfMatch lenBefore lenAfter) (nodeToArray matches) ->
  exists segments' matches',
    findMatchingBlocks_body root curr rest matches = Ok (segments', matches') /\
    Forall (segmentInBounds lenBefore lenAfter) segments' /\
    bst matches' /\
    Forall (wfMatch lenBefore lenAfter) (nodeToArray matches') /\
    worklistMeasure segments' < worklistMeasure (curr :: rest).
Proof.
  intros Hcurr Hrest Hbst Hwf.
  pose proof Hcurr as (Hsb & Hsa & Hmap & Hbi & Hai & Hbb & Hab).
  pose proof (arrayLength_nonneg (beforeTokens curr)) as Hlen0.
  unfold findMatchingBlocks_body.
  destruct (findBestMatch_ok curr Hsb Hmap) as (found & -> & Hfound). cbn [bindR].
  destruct found as [m |]; cbn [optLocalMatch] in Hfound.
  2:{ do 2 eexists. split; [reflexivity |]. cbn [worklistMeasure]. repeat split; auto. lia. }
  pose proof (localMatch_fields curr m Hfound) as (E1 & E2 & _).
  pose proof (localMatch_wf _ _ Hcurr Hfound) as Hm.
  destruct Hfound as (H1 & H2 & H3 & H4 & H5 & _).
  destruct (Match.length m =? 0) eqn:Elen; [lia |]. cbn [negb].
  (* the segment on the left of the match *)
  assert (exists segments1,
            (if (Match.segmentStartInBefore m >? 0) && (Match.segmentStartInAfter m >? 0)
             then
               let* leftSegment :=
                 createSegment (JS.slice (beforeTokens root) 0 (Match.segmentStartInBefore m))
                   (JS.slice (afterTokens curr) 0 (Match.segmentStartInAfter m))
                   (beforeIndex curr) (afterIndex curr) in
               Ok (leftSegment :: rest)
             else Ok rest) = Ok segments1 /\
            Forall (segmentInBounds lenBefore lenAfter) segments1 /\
            worklistMeasure segments1 <=
            2 * Match.segmentStartInBefore m + 1 + worklistMeasure rest)
    as (segments1 & -> & Hsegs1 & Hmeasure1).
  { destruct (_ && _).
    - destruct (createSegment_ok
                  (JS.slice (beforeTokens root) 0 (Match.segmentStartInBefore m))
                  (JS.slice (afterTokens curr) 0 (Match.segmentStartInAfter m))
                  (beforeIndex curr) (afterIndex curr))
        as (seg & -> & Fb & Fa & Fbi & Fai & Fmap).
      { now apply safeKeys_prefix. }
      { now apply safeKeys_prefix. }
      cbn [bindR]. eexists. split; [reflexivity |].
      pose proof (arrayLength_prefix (beforeTokens root) _ H1).
      pose proof (arrayLength_prefix (afterTokens curr) _ H2).
      split.
      + constructor; [| assumption]. unfold segmentInBounds.
        rewrite Fb, Fa, Fbi, Fai.
        repeat split; auto; try (now apply safeKeys_prefix); lia.
      + cbn [worklistMeasure]. rewrite Fb. lia.
    - eexists. split; [reflexivity |]. split; [assumption | lia]. }
  cbn [bindR].
  (* the segment on the right of the match *)
  assert (0 <= Match.segmentEndInBefore m + 1 <= arrayLength (beforeTokens curr)) by lia.
  assert (0 <= Match.segmentEndInAfter m + 1 <= arrayLength (afterTokens curr)) by lia.
  destruct (negb (arrayLength (JS.sliceFrom (beforeTokens curr) _) =? 0) && _).
  - destruct (createSegment_ok
                (JS.sliceFrom (beforeTokens curr) (Match.segmentEndInBefore m + 1))
                (JS.sliceFrom (afterTokens curr) (Match.segmentEndInAfter m + 1))
                (beforeIndex curr + Match.segmentEndInBefore m + 1)
                (afterIndex curr + Match.segmentEndInAfter m + 1))
      as (seg & -> & Fb & Fa & Fbi & Fai & Fmap).
    { apply safeKeys_suffix; [lia | assumption]. }
    { apply safeKeys_suffix; [lia | assumption]. }
    cbn [bindR]. do 2 eexists. split; [reflexivity |].
    pose proof (arrayLength_suffix (beforeTokens curr) (Match.segmentEndInBefore m + 1)).
    pose proof (arrayLength_suffix (afterTokens curr) (Match.segmentEndInAfter m + 1)).
    repeat split.
    + constructor; [| assumption]. unfold segmentInBounds.
      rewrite Fb, Fa, Fbi, Fai.
      repeat split; auto; try (apply safeKeys_suffix; [lia | assumption]); lia.
    + now apply bst_addToNode.
    + now apply Forall_addToNode.
    + cbn [worklistMeasure]. rewrite Fb. lia.
  - do 2 eexists. split; [reflexivity |]. repeat split.
    + assumption.
    + now apply bst_addToNode.
    + now apply Forall_addToNode.
    + cbn [worklistMeasure]. lia.
Qed.

Lemma worklistMeasure_nonneg (segments : list Segment) : 0 <= worklistMeasure segments.
Proof.
  induction segments as [| seg segments IH]; cbn [worklistMeasure]; [lia |].
  pose proof (arrayLength_nonneg (beforeTokens seg)). lia.
Qed.

(** With more fuel than the measure of the work list, the loop ends. *)
Lemma findMatchingBlocks_while_ok (fuel : nat) :
  forall segments matches,
    Forall (segmentInBounds lenBefore lenAfter) segments ->
    bst matches ->
    Forall (wfMatch lenBefore lenAfter) (nodeToArray matches) ->
    worklistMeasure segments < Z.of_nat fuel ->
    exists matches',
      findMatchingBlocks_while fuel root segments matches = Ok matches' /\
      bst matches' /\ Forall (wfMatch lenBefore lenAfter) (nodeToArray matches').
Proof.
  induction fuel as [| fuel IH]; intros segments matches Hsegs Hbst Hwf Hfuel.
  - pose proof (worklistMeasure_nonneg segments). lia.
  - cbn [findMatchingBlocks_while]. destruct segments as [| curr rest]; [eauto |].
    inversion Hsegs as [| ? ? Hcurr Hrest]; subst.
    destruct (findMatchingBlocks_body_ok curr rest matches Hcurr Hrest Hbst Hwf)
      as (segments' & matches' & -> & Hsegs' & Hbst' & Hwf' & Hmeasure).
    cbn [bindR fst snd]. apply IH; auto. lia.
Qed.

End Worklist.

Lemma precedes_trans (x v y : Match.t) (lenBefore lenAfter : Z) :
  wfMatch lenBefore lenAfter v -> precedes x v -> precedes v y -> precedes x y.
Proof. unfold wfMatch, precedes. lia. Qed.

Lemma bst_sorted (lenBefore lenAfter : Z) (n : TreeNode) :
  bst n -> Forall (wfMatch lenBefore lenAfter) (nodeToArray n) ->
  StronglySorted precedes (nodeToArray n).
Proof.
  induction n as [| value l IHl r IHr]; cbn [bst nodeToArray].
  - intros _ _. constructor.
  - intros (Hl & Hr & Hlv & Hrv) Hwf.
    apply Forall_app in Hwf as [Hwl Hwr]. apply Forall_app in Hwr as [Hwv Hwr].
    inversion Hwv as [| ? ? Hv _]; subst.
    rewrite List.Forall_forall in Hlv, Hrv.
    apply StronglySorted_app_2.
    + intros x y Hx Hy. apply list_elem_of_In in Hx, Hy.
      destruct Hy as [<- | Hy]; [now apply Hlv |].
      eapply precedes_trans; [exact Hv | now apply Hlv | now apply Hrv].
    + auto.
    + cbn [app]. constructor; [auto |]. now apply List.Forall_forall.
Qed.

(** ** The walk over the matches *)

Lemma calculateOperations_each_app (pB pA : Z) (ops : list Operation.t) (m : Match.t) :
  calculateOperations_each (pB, pA, ops) m =
  (Match.endInBefore m + 1, Match.endInAfter m + 1, ops ++ gapAndEqual pB pA m).
Proof.
  unfold gapAndEqual, calculateOperations_each.
  case_ifs; cbn [snd app]; rewrite <- ?app_assoc, ?app_nil_r; reflexivity.
Qed.

Lemma walk_fold (matches : list Match.t) :
  forall pB pA ops,
    snd (fold_left calculateOperations_each matches (pB, pA, ops)) =
    ops ++ walkOperations pB pA matches.
Proof.
  induction matches as [| m matches IH]; intros pB pA ops; cbn [fold_left walkOperations].
  - now rewrite app_nil_r.
  - rewrite calculateOperations_each_app, IH, app_assoc. reflexivity.
Qed.

Lemma operationsOfMatches_walk (matches : list Match.t) :
  operationsOfMatches matches = walkOperations 0 0 matches.
Proof. unfold operationsOfMatches. now rewrite walk_fold. Qed.

Lemma tiles_app (r1 r2 : list (Z * Z)) (a b c : Z) :
  tiles r1 a b -> tiles r2 b c -> tiles (r1 ++ r2) a c.
Proof.
  revert a. induction r1 as [| [s e] r1 IH]; intros a; cbn [tiles app].
  - now intros ->.
  - intros (-> & Hle & H1) H2. auto.
Qed.

Lemma beforeRanges_app (o1 o2 : list Operation.t) :
  beforeRanges (o1 ++ o2) = beforeRanges o1 ++ beforeRanges o2.
Proof. unfold beforeRanges. apply flat_map_app. Qed.

Lemma afterRanges_app (o1 o2 : list Operation.t) :
  afterRanges (o1 ++ o2) = afterRanges o1 ++ afterRanges o2.
Proof. unfold afterRanges. apply flat_map_app. Qed.

Lemma lastAction_app (a : Action.t) (o1 o2 : list Operation.t) :
  lastAction a (o1 ++ o2) = lastAction (lastAction a o1) o2.
Proof. unfold lastAction. apply fold_left_app. Qed.

Lemma noAdjacentReplace_app (a : Action.t) (o1 o2 : list Operation.t) :
  noAdjacentReplace a o1 -> noAdjacentReplace (lastAction a o1) o2 ->
  noAdjacentReplace a (o1 ++ o2).
Proof.
  revert a. induction o1 as [| op o1 IH]; intros a; cbn [noAdjacentReplace app].
  - auto.
  - intros [H1 H2] H3. split; [assumption |]. apply IH; assumption.
Qed.

(** What one match contributes, for a match of length [len >= 0] that
    starts at or after the cursors on both sides. *)
Lemma gapAndEqual_spec (pB pA : Z) (m : Match.t) :
  pB <= Match.startInBefore m -> pA <= Match.startInAfter m ->
  0 <= Match.length m ->
  Match.endInBefore m = Match.startInBefore m + Match.length m - 1 ->
  Match.endInAfter m = Match.startInAfter m + Match.length m - 1 ->
  tiles (beforeRanges (gapAndEqual pB pA m)) pB (Match.endInBefore m + 1) /\
  tiles (afterRanges (gapAndEqual pB pA m)) pA (Match.endInAfter m + 1) /\
  Forall completeOperation (gapAndEqual pB pA m) /\
  (forall a, a <> Action.replace -> noAdjacentReplace a (gapAndEqual pB pA m)) /\
  (forall a, a <> Action.replace -> 1 <= Match.length m ->
             lastAction a (gapAndEqual pB pA m) <> Action.replace).
Proof.
  intros HB HA Hlen EB EA.
  unfold gapAndEqual, calculateOperations_each.
  destruct (Z.eqb_spec pB (Match.startInBefore m)) as [E1 | E1];
    destruct (Z.eqb_spec pA (Match.startInAfter m)) as [E2 | E2];
    destruct (Z.eqb_spec (Match.length m) 0) as [E3 | E3];
    cbn [negb Action.eqb snd app];
    unfold beforeRanges, afterRanges, beforeRange, afterRange, completeOperation, lastAction;
    cbn [flat_map app Operation.action Operation.startInBefore Operation.endInBefore
         Operation.startInAfter Operation.endInAfter hasBeforeSide hasAfterSide
         tiles noAdjacentReplace fold_left negb Action.eqb];
    repeat split; try lia; try congruence;
    repeat constructor; cbn; try congruence; try tauto; try (intros; intuition congruence).
Qed.

Lemma walkOperations_spec (lenBefore lenAfter : Z) (sentinel : Match.t) :
  Match.startInBefore sentinel = lenBefore ->
  Match.startInAfter sentinel = lenAfter ->
  Match.length sentinel = 0 ->
  Match.endInBefore sentinel = lenBefore - 1 ->
  Match.endInAfter sentinel = lenAfter - 1 ->
  forall matches pB pA a,
    StronglySorted precedes matches ->
    Forall (wfMatch lenBefore lenAfter) matches ->
    Forall (fun m => pB <= Match.startInBefore m /\ pA <= Match.startInAfter m) matches ->
    pB <= lenBefore -> pA <= lenAfter -> a <> Action.replace ->
    let ops := walkOperations pB pA (matches ++ [sentinel]) in
    tiles (beforeRanges ops) pB lenBefore /\
    tiles (afterRanges ops) pA lenAfter /\
    Forall completeOperation ops /\
    noAdjacentReplace a ops.
Proof.
  intros S1 S2 S3 S4 S5.
  induction matches as [| m matches IH]; intros pB pA a Hsorted Hwf Hlow HB HA Ha;
    cbn [app walkOperations].
  - destruct (gapAndEqual_spec pB pA sentinel) as (T1 & T2 & T3 & T4 & _); try lia.
    rewrite app_nil_r. replace (Match.endInBefore sentinel + 1) with lenBefore in T1 by lia.
    replace (Match.endInAfter sentinel + 1) with lenAfter in T2 by lia. auto.
  - inversion Hsorted as [| ? ? Hsorted' Hprec]; subst.
    inversion Hwf as [| ? ? Hm Hwf']; subst.
    inversion Hlow as [| ? ? [HmB HmA] _]; subst.
    pose proof Hm as (W1 & W2 & W3 & W4 & W5 & W6 & W7).
    destruct (gapAndEqual_spec pB pA m) as (T1 & T2 & T3 & T4 & T5); try lia.
    destruct (IH (Match.endInBefore m + 1) (Match.endInAfter m + 1)
                 (lastAction a (gapAndEqual pB pA m))) as (I1 & I2 & I3 & I4);
      try assumption; try lia.
    { rewrite List.Forall_forall in Hprec. apply List.Forall_forall.
      intros x Hx. specialize (Hprec x Hx). unfold precedes in Hprec. lia. }
    { apply T5; [assumption | lia]. }
    rewrite beforeRanges_app, afterRanges_app.
    repeat split.
    + eapply tiles_app; eassumption.
    + eapply tiles_app; eassumption.
    + apply Forall_app. auto.
    + apply noAdjacentReplace_app; auto.
Qed.

(** ** The post-processing pass *)

Lemma Array_toString_not_whitespace (tokens : list Token) :
  test (Seq [Bol; space; Eol]) (Array_toString tokens) = false.
Proof.
  unfold Array_toString. destruct tokens as [| t tokens]; [reflexivity |].
  cbn [map]. unfold Token_toString at 1.
  assert (exists s, JS.join "," ("[object Object]" :: map Token_toString tokens) =
                    String "[" s) as [s ->].
  { unfold JS.join. cbn [String.concat]. destruct (map Token_toString tokens); eauto. }
  unfold test, exec. cbn. now rewrite execFrom_Bol_later.
Qed.

Lemma isSingleWhitespace_false (beforeTokens : list Token) (op : Operation.t) :
  isSingleWhitespace beforeTokens op = false.
Proof.
  unfold isSingleWhitespace.
  destruct (negb _); [reflexivity |].
  destruct (falsyNumber _); [reflexivity |].
  destruct (Operation.endInBefore op); [| reflexivity].
  destruct (negb _); [reflexivity |].
  apply Array_toString_not_whitespace.
Qed.

Lemma postProcess_fold (beforeTokens : list Token) (ops : list Operation.t) :
  forall acc a,
    noAdjacentReplace a ops ->
    fold_left (postProcess_each beforeTokens) ops (acc, a) = (acc ++ ops, lastAction a ops).
Proof.
  induction ops as [| op ops IH]; intros acc a; cbn [noAdjacentReplace fold_left].
  - intros _. now rewrite app_nil_r.
  - intros [Hop Hrest]. unfold postProcess_each at 2.
    rewrite isSingleWhitespace_false. cbn [andb orb].
    destruct (Action.eqb (Operation.action op) Action.replace &&
              Action.eqb a Action.replace) eqn:E.
    + exfalso. apply Hop. apply andb_prop in E as [E1 E2].
      destruct (Operation.action op), a; cbn in *; try discriminate. auto.
    + rewrite IH by assumption. unfold lastAction. cbn [fold_left].
      now rewrite <- app_assoc.
Qed.

Lemma postProcess_id (beforeTokens : list Token) (ops : list Operation.t) :
  noAdjacentReplace Action.none ops -> postProcess beforeTokens ops = ops.
Proof.
  intros H. unfold postProcess. now rewrite postProcess_fold.
Qed.

(** ** The operation calculator *)

Lemma findMatchingBlocks_ok (bt at_ : list Token) (seg : Segment) :
  safeKeys bt -> safeKeys at_ ->
  beforeTokens seg = bt -> afterTokens seg = at_ ->
  beforeIndex seg = 0 -> afterIndex seg = 0 ->
  nonnegLocations (afterMap seg) ->
  exists matches,
    findMatchingBlocks seg = Ok matches /\
    StronglySorted precedes matches /\
    Forall (wfMatch (arrayLength bt) (arrayLength at_)) matches.
Proof.
  intros Hb Ha Eb Ea Ebi Eai Hmap. unfold findMatchingBlocks.
  destruct (findMatchingBlocks_while_ok (arrayLength bt) (arrayLength at_) seg)
    with (fuel := (2 * List.length (beforeTokens seg) + 2)%nat)
         (segments := [seg]) (matches := null) as (tree & -> & Hbst & Hwf).
  - now rewrite Eb.
  - constructor; [| constructor]. unfold segmentInBounds.
    rewrite Eb, Ea, Ebi, Eai. repeat split; auto; lia.
  - exact I.
  - constructor.
  - cbn [worklistMeasure]. unfold arrayLength. lia.
  - cbn [bindR]. eexists. split; [reflexivity |].
    split; [eapply bst_sorted; eassumption | assumption].
Qed.

Lemma calculateOperations_ok (bt at_ : list Token) :
  safeKeys bt -> safeKeys at_ ->
  exists ops,
    calculateOperations (Some bt) (Some at_) = Ok ops /\
    tiles (beforeRanges ops) 0 (arrayLength bt) /\
    tiles (afterRanges ops) 0 (arrayLength at_) /\
    Forall completeOperation ops.
Proof.
  intros Hb Ha. unfold calculateOperations.
  destruct (createSegment_ok bt at_ 0 0 Hb Ha) as (seg & -> & Eb & Ea & Ebi & Eai & Hmap).
  cbn [bindR].
  destruct (findMatchingBlocks_ok bt at_ seg Hb Ha Eb Ea Ebi Eai Hmap)
    as (matches & -> & Hsorted & Hwf).
  cbn [bindR]. eexists. split; [reflexivity |].
  rewrite operationsOfMatches_walk.
  destruct (walkOperations_spec (arrayLength bt) (arrayLength at_)
              (makeMatch (arrayLength bt) (arrayLength at_) 0 seg))
    with (matches := matches) (pB := 0) (pA := 0) (a := Action.none)
    as (T1 & T2 & T3 & T4);
    try (cbn; rewrite ?Ebi, ?Eai; lia); try assumption; try discriminate.
  - eapply Forall_impl; [exact Hwf |]. intros m (W1 & W2 & _). cbn. lia.
  - apply arrayLength_nonneg.
  - apply arrayLength_nonneg.
  - rewrite postProcess_id by assumption. auto.
Qed.

Lemma calculateOperations_safe (bt at_ : list Token) (ops : list Operation.t) :
  calculateOperations (Some bt) (Some at_) = Ok ops -> safeKeys bt /\ safeKeys at_.
Proof.
  intros H.
  destruct (safeKeys_dec bt) as [Hb | Hb]; destruct (safeKeys_dec at_) as [Ha | Ha]; auto;
    unfold calculateOperations in H; rewrite createSegment_unsafe in H by tauto;
    discriminate.
Qed.

(** ** Tokens covered by ranges *)

Lemma slice_split {A : Type} (l : list A) (a b c : Z) :
  0 <= a <= b -> b <= c ->
  JS.slice l a b ++ JS.slice l b c = JS.slice l a c.
Proof.
  intros Hab Hbc. rewrite !slice_between by lia.
  replace (Z.to_nat (c - a)) with (Z.to_nat (b - a) + Z.to_nat (c - b))%nat by lia.
  replace (Z.to_nat b) with (Z.to_nat (b - a) + Z.to_nat a)%nat by lia.
  rewrite <- skipn_skipn.
  generalize (skipn (Z.to_nat a) l) as k. intros k.
  generalize (Z.to_nat (b - a)) as n. generalize (Z.to_nat (c - b)) as m.
  intros m n. revert k. induction n as [| n IH]; intros k; cbn.
  - reflexivity.
  - destruct k as [| x k]; cbn; [now rewrite firstn_nil | now rewrite IH].
Qed.

Lemma slice_all {A : Type} (l : list A) : JS.slice l 0 (arrayLength l) = l.
Proof.
  rewrite slice_prefix by apply arrayLength_nonneg.
  apply firstn_all2. unfold arrayLength. lia.
Qed.

Lemma tiles_le (ranges : list (Z * Z)) :
  forall a b, tiles ranges a b -> a <= b.
Proof.
  induction ranges as [| [s e] ranges IH]; intros a b; cbn [tiles].
  - lia.
  - intros (-> & Hle & H). apply IH in H. lia.
Qed.

Lemma tiles_tokens (tokens : list Token) (ranges : list (Z * Z)) :
  forall a b,
    0 <= a -> tiles ranges a b ->
    flat_map (rangeTokens tokens) ranges = JS.slice tokens a b.
Proof.
  induction ranges as [| [s e] ranges IH]; intros a b Ha; cbn [tiles flat_map].
  - intros ->. rewrite slice_between by lia. now rewrite Z.sub_diag.
  - intros (-> & Hle & H). pose proof (tiles_le _ _ _ H).
    rewrite (IH (e + 1) b) by (lia || assumption).
    unfold rangeTokens. cbn [fst snd]. apply slice_split; lia.
Qed.

Lemma opTokens_range (tokens : list Token) (s e : Z) :
  opTokens tokens s (Some e) = rangeTokens tokens (s, e).
Proof.
  unfold opTokens, rangeTokens. cbn [fst snd].
  destruct (Z.eqb_spec e 0) as [-> | _]; reflexivity.
Qed.

(** ** The renderer returns *)

Lemma reduceFrom_total {A S : Type} (f : S -> A -> Z -> Result S) (P : A -> Prop)
      (l : list A) :
  (forall acc x i, P x -> exists acc', f acc x i = Ok acc') ->
  Forall P l ->
  forall i acc, exists r, reduceFrom f l i acc = Ok r.
Proof.
  intros Hf Hl. induction Hl as [| x l Hx _ IH]; intros i acc; cbn [reduceFrom].
  - eauto.
  - destruct (Hf acc x i Hx) as [acc' ->]. cbn [bindR]. apply IH.
Qed.

Lemma TokenWrapper_step_ok (notes : list Note.t) (tagStack : list (string * Z))
      (token : string) (index : Z) :
  index = arrayLength notes -> stackInNotes notes tagStack ->
  exists notes' tagStack',
    TokenWrapper_step (notes, tagStack) token index = Ok (notes', tagStack') /\
    arrayLength notes' = arrayLength notes + 1 /\
    stackInNotes notes' tagStack'.
Proof.
  intros Hidx Hstack. unfold TokenWrapper_step.
  set (notes1 := notes ++ [_]).
  assert (arrayLength notes1 = arrayLength notes + 1) as Hlen.
  { unfold notes1, arrayLength. rewrite length_app. cbn. lia. }
  assert (stackInNotes notes1 tagStack) as Hstack1.
  { unfold stackInNotes in *. eapply Forall_impl; [exact Hstack |].
    intros entry H. cbn beta in *. lia. }
  destruct (if negb (isVoidTag token) then isTag token else None) as [name |];
    [| eauto].
  destruct (JS.truthy name); [| eauto].
  assert (stackInNotes notes1 ((name, index) :: tagStack)) as Hpush.
  { constructor; [cbn; pose proof (arrayLength_nonneg notes); lia | exact Hstack1]. }
  destruct tagStack as [| [lastTag lastPosition] rest]; cbn [head tail]; [eauto |].
  destruct (String.eqb ("/" +:+ lastTag) name); [| eauto].
  inversion Hstack1 as [| ? ? Hlast Hrest]; subst. cbn [snd] in Hlast.
  destruct (index_in_range notes1 lastPosition) as [n ->]; [unfold arrayLength in *; lia |].
  do 2 eexists. split; [reflexivity |].
  assert (arrayLength (<[Z.to_nat lastPosition := {| Note.isWrappable := Note.isWrappable n;
                                                     Note.insertedTag := true |}]> notes1)
          = arrayLength notes1) as Hins.
  { unfold arrayLength. now rewrite length_insert. }
  split; [lia |]. unfold stackInNotes in *. rewrite Hins. exact Hrest.
Qed.

Lemma TokenWrapper_from_ok (tokens : list string) :
  forall index notes tagStack,
    index = arrayLength notes -> stackInNotes notes tagStack ->
    exists data, reduceFrom TokenWrapper_step tokens index (notes, tagStack) = Ok data.
Proof.
  induction tokens as [| token tokens IH]; intros index notes tagStack Hidx Hstack;
    cbn [reduceFrom].
  - eauto.
  - destruct (TokenWrapper_step_ok notes tagStack token index Hidx Hstack)
      as (notes' & tagStack' & -> & Hlen & Hstack').
    cbn [bindR]. apply IH; [lia | assumption].
Qed.

Lemma TokenWrapper_ok (tokens : list string) :
  exists wrapper, TokenWrapper tokens = Ok wrapper.
Proof.
  unfold TokenWrapper, reduce.
  destruct (TokenWrapper_from_ok tokens 0 [] []) as [data ->];
    [reflexivity | constructor |].
  cbn [bindR]. eauto.
Qed.

Lemma combineTokenNotes_step_ok (tagFn : string -> string) (notes : list Note.t)
      (data : CombineData) (token : string) (index : Z) :
  exists data', combineTokenNotes_step tagFn notes data token index = Ok data'.
Proof.
  unfold combineTokenNotes_step.
  destruct (if negb _ then _ else _) as [[list1 lastIndex1] status2]. eauto.
Qed.

Lemma combineSegments_ok (tagFn : string -> string) (tokenNotes : TokenNotes.t) :
  exists runs, combineSegments tagFn tokenNotes = Ok runs.
Proof.
  unfold combineSegments, reduce.
  destruct (reduceFrom_total
              (combineTokenNotes_step tagFn (TokenNotes.notes tokenNotes))
              (fun _ => True) (TokenNotes.tokens tokenNotes)) with
    (i := 0)
    (acc := {| tokensCopy := TokenNotes.tokens tokenNotes; list_ := [];
               status := None; lastIndex := 0 |}) as [data ->].
  - intros acc x i _. apply combineTokenNotes_step_ok.
  - apply List.Forall_forall. auto.
  - cbn [bindR]. eauto.
Qed.

(** [wrap] returns the concatenation of its first callback over the runs. *)
Lemma wrap_runs (tag : string) (content : list string) (opIndex : Z)
      (dataPrefix className : string) :
  exists wrapper runs,
    TokenWrapper content = Ok wrapper /\
    combineSegments (wrap_tagFn tag opIndex dataPrefix) wrapper = Ok runs /\
    wrap tag content opIndex dataPrefix className =
    Ok (JS.join EmptyString
          (map (wrap_mapFn tag (wrapAttrs opIndex dataPrefix className)) runs)).
Proof.
  destruct (TokenWrapper_ok content) as [wrapper Hw].
  destruct (combineSegments_ok (wrap_tagFn tag opIndex dataPrefix) wrapper) as [runs Hr].
  exists wrapper, runs. repeat split; try assumption.
  unfold wrap, combineTokenNotes. rewrite Hw. cbn [bindR]. rewrite Hr. reflexivity.
Qed.

Lemma wrap_ok (tag : string) (content : list string) (opIndex : Z)
      (dataPrefix className : string) :
  exists rendering, wrap tag content opIndex dataPrefix className = Ok rendering.
Proof.
  destruct (wrap_runs tag content opIndex dataPrefix className)
    as (wrapper & runs & _ & _ & H).
  eauto.
Qed.

Lemma renderOperations_ok (before after : list Token) (ops : list Operation.t)
      (dataPrefix className : string) :
  Forall completeOperation ops ->
  exists rendering, renderOperations before after ops dataPrefix className = Ok rendering.
Proof.
  intros Hops. unfold renderOperations, reduce.
  eapply reduceFrom_total; [| exact Hops].
  intros acc op i (Haction & _).
  destruct (Operation.action op) eqn:E; cbn [OPS.get]; try congruence.
  - unfold OPS.equal. cbn [bindR]. eauto.
  - unfold OPS.insert.
    destruct (wrap_ok "ins"
                (map str (opTokens after (Operation.startInAfter op) (Operation.endInAfter op)))
                i dataPrefix className) as [r ->].
    cbn [bindR]. eauto.
  - unfold OPS.delete.
    destruct (wrap_ok "del"
                (map str (opTokens before (Operation.startInBefore op) (Operation.endInBefore op)))
                i dataPrefix className) as [r ->].
    cbn [bindR]. eauto.
  - unfold OPS.replace, OPS.delete, OPS.insert.
    destruct (wrap_ok "del"
                (map str (opTokens before (Operation.startInBefore op) (Operation.endInBefore op)))
                i dataPrefix className) as [r1 ->].
    destruct (wrap_ok "ins"
                (map str (opTokens after (Operation.startInAfter op) (Operation.endInAfter op)))
                i dataPrefix className) as [r2 ->].
    cbn [bindR]. eauto.
Qed.

(** ** Completions of [calculateOperations] and of [diff] *)

(** [calculateOperations] throws the missing-argument error exactly for an
    absent argument; on two token lists it returns unless a key names an
    inherited property, in which case [createMap] throws. *)
Lemma calculateOperations_completion (before after : option (list Token)) :
  match before, after with
  | None, _ => calculateOperations before after = Throw (Error "Missing beforeTokens")
  | Some _, None => calculateOperations before after = Throw (Error "Missing afterTokens")
  | Some b, Some a =>
      if safeKeysb b && safeKeysb a
      then exists ops, calculateOperations before after = Ok ops
      else calculateOperations before after =
           Throw (TypeError "map[token.key]?.push is not a function")
  end.
Proof.
  destruct before as [b |]; [| reflexivity]. destruct after as [a |]; [| reflexivity].
  destruct (safeKeysb b && safeKeysb a) eqn:E.
  - apply andb_prop in E as [Hb Ha]. apply safeKeysb_spec in Hb, Ha.
    destruct (calculateOperations_ok b a Hb Ha) as (ops & H & _). eauto.
  - unfold calculateOperations. rewrite createSegment_unsafe; [reflexivity |].
    intros [Hb Ha]. apply safeKeysb_spec in Hb, Ha. rewrite Hb, Ha in E. discriminate.
Qed.

(** [diff] never throws a missing-argument error: it returns, or it throws
    the error of [createMap]. *)
Lemma diff_completion (before after className dataPrefix : string) :
  (exists rendering, diff before after className dataPrefix = Ok rendering) \/
  diff before after className dataPrefix =
  Throw (TypeError "map[token.key]?.push is not a function").
Proof.
  unfold diff. destruct (String.eqb before after); [eauto |].
  destruct (htmlToTokens_returns before) as [b ->].
  destruct (htmlToTokens_returns after) as [a ->]. cbn [bindR].
  destruct (safeKeys_dec b) as [Hb | Hb]; [destruct (safeKeys_dec a) as [Ha | Ha] |].
  - destruct (calculateOperations_ok b a Hb Ha) as (ops & -> & _ & _ & Hops).
    cbn [bindR]. left. now apply renderOperations_ok.
  - right. unfold calculateOperations. rewrite createSegment_unsafe by tauto. reflexivity.
  - right. unfold calculateOperations. rewrite createSegment_unsafe by tauto. reflexivity.
Qed.

Lemma diff_call_extra (before after className dataPrefix : string) (extra : list string) :
  diff_call before after className dataPrefix extra =
  diff before after className dataPrefix.
Proof. reflexivity. Qed.

(** ** The runs of the renderer *)

Lemma index_middle {A : Type} (pre rest : list A) (x : A) :
  JS.index (pre ++ x :: rest) (Z.of_nat (List.length pre)) = Some x.
Proof.
  unfold JS.index. destruct (Z.ltb_spec (Z.of_nat (List.length pre)) 0); [lia |].
  rewrite Nat2Z.id. rewrite nth_error_app2 by lia. now rewrite Nat.sub_diag.
Qed.

Lemma nth_error_lookup {A : Type} (l : list A) (i : nat) : nth_error l i = l !! i.
Proof. revert i. induction l as [| x l IH]; intros [| i]; cbn; auto. Qed.

Lemma TokenWrapper_step_flags (notes : list Note.t) (tagStack : list (string * Z))
      (token : string) (index : Z) (notes' : list Note.t) (tagStack' : list (string * Z)) :
  TokenWrapper_step (notes, tagStack) token index = Ok (notes', tagStack') ->
  map Note.isWrappable notes' = map Note.isWrappable notes ++ [isWrappable token].
Proof.
  unfold TokenWrapper_step.
  set (notes1 := notes ++ [_]).
  assert (map Note.isWrappable notes1 = map Note.isWrappable notes ++ [isWrappable token])
    as Hflags by (unfold notes1; now rewrite map_app).
  destruct (if negb (isVoidTag token) then isTag token else None) as [name |];
    [| now intros [= <- _]].
  destruct (JS.truthy name); [| now intros [= <- _]].
  destruct (head tagStack) as [[lastTag lastPosition] |]; [| now intros [= <- _]].
  destruct (String.eqb ("/" +:+ lastTag) name); [| now intros [= <- _]].
  destruct (JS.index notes1 lastPosition) as [n |] eqn:En; [| discriminate].
  intros [= <- _]. rewrite <- Hflags.
  apply index_nth_error in En as [_ En].
  rewrite list_fmap_insert. cbn [Note.isWrappable].
  apply list_insert_id. rewrite list_lookup_fmap.
  rewrite <- nth_error_lookup, En. reflexivity.
Qed.

Lemma TokenWrapper_from_flags (tokens : list string) :
  forall index notes tagStack data,
    reduceFrom TokenWrapper_step tokens index (notes, tagStack) = Ok data ->
    map Note.isWrappable (fst data) = map Note.isWrappable notes ++ map isWrappable tokens.
Proof.
  induction tokens as [| token tokens IH]; intros index notes tagStack data;
    cbn [reduceFrom map].
  - intros [= <-]. now rewrite app_nil_r.
  - destruct (TokenWrapper_step (notes, tagStack) token index) as [[notes1 stack1] | |]
      eqn:Hstep; try discriminate.
    cbn [bindR]. intros Hrest. rewrite (IH _ _ _ _ Hrest).
    rewrite (TokenWrapper_step_flags _ _ _ _ _ _ Hstep), <- app_assoc. reflexivity.
Qed.

Lemma annotateFrom_app (tagFn : string -> string) (notes : list Note.t)
      (l1 l2 : list string) :
  forall index,
    annotateFrom tagFn notes (l1 ++ l2) index =
    annotateFrom tagFn notes l1 index ++
    annotateFrom tagFn notes l2 (index + Z.of_nat (List.length l1)).
Proof.
  induction l1 as [| x l1 IH]; intros index; cbn [app annotateFrom List.length].
  - now rewrite Z.add_0_r.
  - rewrite IH. do 3 f_equal. lia.
Qed.

Lemma annotateFrom_length (tagFn : string -> string) (notes : list Note.t)
      (l : list string) :
  forall index, List.length (annotateFrom tagFn notes l index) = List.length l.
Proof. induction l as [| x l IH]; intros index; cbn; [reflexivity | now rewrite IH]. Qed.

Lemma insert_middle {A : Type} (l1 l2 : list A) (x y : A) :
  <[List.length l1 := y]> (l1 ++ x :: l2) = l1 ++ y :: l2.
Proof.
  rewrite insert_app_r_alt by lia. now rewrite Nat.sub_diag.
Qed.

Lemma slice_of_prefix {A : Type} (l rest : list A) (k : Z) :
  0 <= k <= arrayLength l ->
  JS.slice (l ++ rest) k (arrayLength l) = skipn (Z.to_nat k) l.
Proof.
  intros H. unfold arrayLength in *. rewrite slice_between by lia.
  rewrite skipn_app.
  replace (Z.to_nat k - List.length l)%nat with 0%nat by lia. cbn [skipn].
  rewrite firstn_app, length_skipn.
  replace (Z.to_nat (Z.of_nat (List.length l) - k) - (List.length l - Z.to_nat k))%nat
    with 0%nat by lia.
  cbn [firstn]. rewrite app_nil_r. apply firstn_all2. rewrite length_skipn. lia.
Qed.

Lemma flat_map_snoc {A B : Type} (f : A -> list B) (l : list A) (x : A) :
  flat_map f (l ++ [x]) = flat_map f l ++ f x.
Proof. rewrite flat_map_app. cbn. now rewrite app_nil_r. Qed.

(** *** The runs are the maximal runs *)

Lemma snocRun_app (runs : list WrappableTokens.t) (run : WrappableTokens.t)
      (flag : bool) (token : string) :
  snocRun (runs ++ [run]) flag token = runs ++ snocRun [run] flag token.
Proof.
  induction runs as [| r runs IH]; [reflexivity |].
  cbn [app]. destruct runs as [| r' runs]; cbn [app snocRun] in *; [reflexivity |].
  now rewrite IH.
Qed.

Lemma maximalRuns_snoc (items : list (bool * string)) (flag : bool) (token : string) :
  maximalRuns (items ++ [(flag, token)]) = snocRun (maximalRuns items) flag token.
Proof.
  induction items as [| [g u] items IH]; [reflexivity |].
  cbn [app maximalRuns]. rewrite IH.
  destruct (maximalRuns items) as [| r [| r' runs]]; cbn [snocRun].
  - destruct g, flag; reflexivity.
  - destruct r as [rf rt]. cbn [WrappableTokens.isWrappable WrappableTokens.tokens].
    destruct rf, g, flag; reflexivity.
  - destruct r as [rf rt]. cbn [WrappableTokens.isWrappable WrappableTokens.tokens].
    destruct (Bool.eqb rf g); reflexivity.
Qed.

Lemma notedFrom_app (tagFn : string -> string) (notes : list Note.t)
      (l1 l2 : list string) :
  forall index,
    notedFrom tagFn notes (l1 ++ l2) index =
    notedFrom tagFn notes l1 index ++
    notedFrom tagFn notes l2 (index + Z.of_nat (List.length l1)).
Proof.
  induction l1 as [| x l1 IH]; intros index; cbn [app notedFrom List.length].
  - now rewrite Z.add_0_r.
  - rewrite IH. do 3 f_equal. lia.
Qed.

Lemma notedFrom_tokens (tagFn : string -> string) (notes : list Note.t)
      (tokens : list string) :
  forall index,
    map snd (notedFrom tagFn notes tokens index) = annotateFrom tagFn notes tokens index.
Proof.
  induction tokens as [| t tokens IH]; intros index; cbn [notedFrom annotateFrom map snd];
    [reflexivity | now rewrite IH].
Qed.

(** One pass through the callback of [combineTokenNotes]: the runs pushed
    so far, together with the run that is still open, are the maximal runs
    of the tokens read. *)
Lemma combineTokenNotes_step_runs (tagFn : string -> string) (notes : list Note.t)
      (pre rest : list string) (t : string) (data data' : CombineData) :
  tokensCopy data = annotate tagFn notes pre ++ t :: rest ->
  match status data with
  | None => pre = [] /\ list_ data = [] /\ lastIndex data = 0
  | Some s =>
      0 <= lastIndex data < arrayLength pre /\
      list_ data ++
        [{| WrappableTokens.isWrappable := s;
            WrappableTokens.tokens :=
              skipn (Z.to_nat (lastIndex data)) (annotate tagFn notes pre) |}] =
      maximalRuns (notedFrom tagFn notes pre 0)
  end ->
  combineTokenNotes_step tagFn notes data t (arrayLength pre) = Ok data' ->
  tokensCopy data' = annotate tagFn notes (pre ++ [t]) ++ rest /\
  exists s',
    status data' = Some s' /\
    0 <= lastIndex data' < arrayLength (pre ++ [t]) /\
    (rest <> [] ->
     list_ data' ++
       [{| WrappableTokens.isWrappable := s';
           WrappableTokens.tokens :=
             skipn (Z.to_nat (lastIndex data')) (annotate tagFn notes (pre ++ [t])) |}] =
     maximalRuns (notedFrom tagFn notes (pre ++ [t]) 0)) /\
    (rest = [] ->
     list_ data' = maximalRuns (notedFrom tagFn notes (pre ++ [t]) 0)).
Proof.
  intros Hcopy Hinv.
  set (A := annotate tagFn notes pre) in *.
  assert (arrayLength A = arrayLength pre) as HlenA
    by (unfold A, annotate, arrayLength; now rewrite annotateFrom_length).
  set (t' := match JS.index notes (arrayLength pre) with
             | Some n => if Note.insertedTag n then tagFn t else t
             | None => t
             end).
  set (f := wrappableAt notes (arrayLength pre)).
  assert (annotate tagFn notes (pre ++ [t]) = A ++ [t']) as Hnext.
  { unfold annotate. rewrite annotateFrom_app. cbn [annotateFrom]. reflexivity. }
  assert (maximalRuns (notedFrom tagFn notes (pre ++ [t]) 0) =
          snocRun (maximalRuns (notedFrom tagFn notes pre 0)) f t') as Hruns.
  { rewrite notedFrom_app. cbn [notedFrom]. apply maximalRuns_snoc. }
  assert (JS.index (tokensCopy data) (arrayLength pre) = Some t) as Hidx.
  { rewrite Hcopy, <- HlenA. apply index_middle. }
  unfold combineTokenNotes_step. rewrite Hidx.
  set (tokens1 := match JS.index notes (arrayLength pre) with
                  | Some n => if Note.insertedTag n
                              then <[Z.to_nat (arrayLength pre) := tagFn t]> (tokensCopy data)
                              else tokensCopy data
                  | None => tokensCopy data
                  end).
  assert (tokens1 = (A ++ [t']) ++ rest) as Htokens1.
  { unfold tokens1, t'. rewrite <- app_assoc. cbn [app].
    destruct (JS.index notes (arrayLength pre)) as [n |]; [| exact Hcopy].
    destruct (Note.insertedTag n); [| exact Hcopy].
    rewrite Hcopy, <- HlenA. unfold arrayLength. rewrite Nat2Z.id.
    apply insert_middle. }
  assert (arrayLength (A ++ [t']) = arrayLength pre + 1) as HlenA1.
  { unfold arrayLength in *. rewrite length_app. cbn. lia. }
  assert (forall k, 0 <= k <= arrayLength pre ->
            JS.slice tokens1 k (arrayLength pre) = skipn (Z.to_nat k) A) as Hslice.
  { intros k Hk. rewrite Htokens1, <- app_assoc, <- HlenA. apply slice_of_prefix. lia. }
  assert (forall k, 0 <= k <= arrayLength pre ->
            JS.slice tokens1 k (arrayLength pre + 1) =
            skipn (Z.to_nat k) (A ++ [t'])) as Hslice1.
  { intros k Hk. rewrite Htokens1, <- HlenA1. apply slice_of_prefix. lia. }
  assert ((arrayLength pre =? arrayLength tokens1 - 1) =
          match rest with [] => true | _ => false end) as Hfinal.
  { rewrite Htokens1. unfold arrayLength in *. rewrite !length_app. cbn [List.length].
    destruct rest; cbn [List.length].
    - apply Z.eqb_eq. lia.
    - apply Z.eqb_neq. lia. }
  assert (arrayLength (pre ++ [t]) = arrayLength pre + 1) as Hpre1.
  { unfold arrayLength. rewrite length_app. cbn. lia. }
  pose proof (arrayLength_nonneg pre) as Hpre0.
  rewrite Hfinal, Hnext, Hruns. fold f.
  destruct (status data) as [s |].
  - (* a run is open *)
    destruct Hinv as [Hlast Hopen]. rewrite <- Hopen, snocRun_app. cbn [snocRun].
    cbn [WrappableTokens.isWrappable WrappableTokens.tokens].
    assert (skipn (Z.to_nat (lastIndex data)) (A ++ [t']) =
            skipn (Z.to_nat (lastIndex data)) A ++ [t']) as Hrun.
    { rewrite skipn_app. unfold arrayLength in *.
      replace (Z.to_nat (lastIndex data) - List.length A)%nat with 0%nat by lia.
      reflexivity. }
    assert (skipn (Z.to_nat (arrayLength pre)) (A ++ [t']) = [t']) as Hnew.
    { rewrite skipn_app, skipn_all2 by (unfold arrayLength in *; lia).
      unfold arrayLength in *.
      replace (Z.to_nat (Z.of_nat (List.length pre)) - List.length A)%nat with 0%nat by lia.
      reflexivity. }
    destruct (Bool.eqb f s) eqn:Efs; cbn [negb]; intros [= <-];
      cbn [tokensCopy list_ status lastIndex];
      (split; [exact Htokens1 |]); eexists; (split; [reflexivity |]).
    + (* the open run goes on *)
      apply Bool.eqb_prop in Efs. subst s. rewrite Bool.eqb_reflx.
      split; [lia |]. split.
      * intros Hrest. destruct rest; [congruence |]. now rewrite Hrun.
      * intros ->. rewrite Hslice1 by lia. now rewrite Hrun.
    + (* the flag changes: the open run is pushed *)
      assert (Bool.eqb s f = false) as ->
        by (destruct s, f; cbn in *; congruence).
      rewrite Hslice by lia.
      split; [lia |]. split.
      * intros Hrest. destruct rest; [congruence |].
        rewrite Hnew, <- app_assoc. reflexivity.
      * intros ->. rewrite Hslice1, Hnew by lia. rewrite <- app_assoc. reflexivity.
  - (* the first token *)
    destruct Hinv as (Hpre & Hlist & Hlast). subst pre.
    rewrite Bool.eqb_reflx. cbn [negb]. intros [= <-].
    cbn [tokensCopy list_ status lastIndex]. rewrite Hlist, Hlast.
    split; [exact Htokens1 |]. eexists. split; [reflexivity |].
    split; [unfold arrayLength; cbn; lia |].
    change (notedFrom tagFn notes [] 0) with (@nil (bool * string)).
    cbn [maximalRuns snocRun app].
    assert (A = []) as -> by reflexivity. cbn [app skipn Z.to_nat].
    split.
    + intros Hrest. destruct rest; [congruence |]. reflexivity.
    + intros ->. rewrite Hslice1 by (unfold arrayLength; cbn; lia). reflexivity.
Qed.

Lemma combineSegments_from_runs (tagFn : string -> string) (notes : list Note.t)
      (rest : list string) :
  forall pre t data data',
    tokensCopy data = annotate tagFn notes pre ++ t :: rest ->
    match status data with
    | None => pre = [] /\ list_ data = [] /\ lastIndex data = 0
    | Some s =>
        0 <= lastIndex data < arrayLength pre /\
        list_ data ++
          [{| WrappableTokens.isWrappable := s;
              WrappableTokens.tokens :=
                skipn (Z.to_nat (lastIndex data)) (annotate tagFn notes pre) |}] =
        maximalRuns (notedFrom tagFn notes pre 0)
    end ->
    reduceFrom (combineTokenNotes_step tagFn notes) (t :: rest) (arrayLength pre) data =
    Ok data' ->
    list_ data' = maximalRuns (notedFrom tagFn notes (pre ++ t :: rest) 0).
Proof.
  induction rest as [| t2 rest IH]; intros pre t data data' Hcopy Hinv; cbn [reduceFrom].
  - destruct (combineTokenNotes_step tagFn notes data t (arrayLength pre))
      as [data1 | |] eqn:Hstep; try discriminate.
    cbn [bindR]. intros [= <-].
    destruct (combineTokenNotes_step_runs tagFn notes pre [] t data data1 Hcopy Hinv Hstep)
      as (_ & s' & _ & _ & _ & Hdone).
    now apply Hdone.
  - destruct (combineTokenNotes_step tagFn notes data t (arrayLength pre))
      as [data1 | |] eqn:Hstep; try discriminate.
    cbn [bindR]. intros Hrest.
    destruct (combineTokenNotes_step_runs tagFn notes pre (t2 :: rest) t data data1
                Hcopy Hinv Hstep) as (Hcopy1 & s' & Hstatus & Hlast & Hopen & _).
    replace (pre ++ t :: t2 :: rest) with ((pre ++ [t]) ++ t2 :: rest)
      by now rewrite <- app_assoc.
    apply (IH (pre ++ [t]) t2 data1 data').
    + exact Hcopy1.
    + rewrite Hstatus. split; [exact Hlast |]. apply Hopen. discriminate.
    + replace (arrayLength (pre ++ [t])) with (arrayLength pre + 1); [exact Hrest |].
      unfold arrayLength. rewrite length_app. cbn. lia.
Qed.

(** The runs of [combineTokenNotes] are the maximal runs of its tokens, by
    the flags of their notes. *)
Lemma combineSegments_runs (tagFn : string -> string) (tokenNotes : TokenNotes.t) :
  combineSegments tagFn tokenNotes =
  Ok (maximalRuns (notedFrom tagFn (TokenNotes.notes tokenNotes)
                     (TokenNotes.tokens tokenNotes) 0)).
Proof.
  destruct (combineSegments_ok tagFn tokenNotes) as [runs Hruns]. rewrite Hruns.
  unfold combineSegments, reduce in Hruns.
  destruct (reduceFrom _ _ _ _) as [data | |] eqn:Hdata; try discriminate.
  cbn [bindR] in Hruns. injection Hruns as <-. f_equal.
  destruct (TokenNotes.tokens tokenNotes) as [| t rest] eqn:Etokens.
  - cbn [reduceFrom] in Hdata. now injection Hdata as <-.
  - apply (combineSegments_from_runs tagFn (TokenNotes.notes tokenNotes) rest [] t
             {| tokensCopy := t :: rest; list_ := []; status := None; lastIndex := 0 |}
             data); cbn [tokensCopy status]; auto.
Qed.

(** With the notes of [TokenWrapper], the flag of a token is [isWrappable]
    of that token. *)
Lemma notedFrom_flags (tagFn : string -> string) (notes : list Note.t)
      (tokens : list string) :
  forall index,
    (forall j t, nth_error tokens j = Some t ->
                 wrappableAt notes (index + Z.of_nat j) = isWrappable t) ->
    notedFrom tagFn notes tokens index =
    combine (map isWrappable tokens) (annotateFrom tagFn notes tokens index).
Proof.
  induction tokens as [| t tokens IH]; intros index H;
    cbn [notedFrom annotateFrom map combine]; [reflexivity |].
  rewrite <- (H 0%nat t eq_refl), Z.add_0_r. f_equal.
  apply IH. intros j u Hj. rewrite <- (H (S j) u Hj). f_equal. lia.
Qed.

Lemma wrappableAt_flags (notes : list Note.t) (tokens : list string) (j : nat) (t : string) :
  map Note.isWrappable notes = map isWrappable tokens ->
  nth_error tokens j = Some t ->
  wrappableAt notes (Z.of_nat j) = isWrappable t.
Proof.
  intros Hflags Hj. unfold wrappableAt, JS.index.
  destruct (Z.ltb_spec (Z.of_nat j) 0); [lia |]. rewrite Nat2Z.id.
  assert (nth_error (map Note.isWrappable notes) j = Some (isWrappable t)) as H1
    by (rewrite Hflags, nth_error_map, Hj; reflexivity).
  rewrite nth_error_map in H1.
  destruct (nth_error notes j) as [n |]; cbn in H1; [congruence | discriminate].
Qed.

(** A text trims to the empty text exactly when it is blank. *)
Lemma trim_blank (s : string) : JS.truthy (JS.trim s) = negb (isBlankText s).
Proof.
  unfold JS.trim, isBlankText.
  induction s as [| c s IH]; [reflexivity |].
  cbn [JS.trimStart list_ascii_of_string forallb].
  destruct (JS.isSpaceChar c) eqn:Ec; cbn [andb negb]; [exact IH |].
  cbn [JS.trimEnd]. rewrite Ec. now destruct (JS.trimEnd s).
Qed.

Lemma wrap_mapFn_blank (tag attrs : string) (run : WrappableTokens.t) :
  isBlankWrappableRun run = true -> wrap_mapFn tag attrs run = EmptyString.
Proof.
  unfold isBlankWrappableRun, wrap_mapFn. intros H. apply andb_prop in H as [-> Hblank].
  now rewrite trim_blank, Hblank.
Qed.

Lemma join_map_filter {A : Type} (f : A -> string) (p : A -> bool) (l : list A) :
  (forall x, p x = false -> f x = EmptyString) ->
  JS.join EmptyString (map f (List.filter p l)) = JS.join EmptyString (map f l).
Proof.
  intros H. induction l as [| x l IH]; [reflexivity |].
  cbn [List.filter map]. destruct (p x) eqn:E; cbn [map]; rewrite !join_cons, ?IH.
  - reflexivity.
  - now rewrite (H x E).
Qed.

(** [wrap] returns the concatenation of its first callback over the maximal
    runs of the content. *)
Lemma wrap_maximalRuns (tag : string) (content : list string) (opIndex : Z)
      (dataPrefix className : string) :
  exists wrapper,
    TokenWrapper content = Ok wrapper /\
    wrap tag content opIndex dataPrefix className =
    Ok (JS.join EmptyString
          (map (wrap_mapFn tag (wrapAttrs opIndex dataPrefix className))
             (maximalRuns
                (combine (map isWrappable content)
                   (annotate (wrap_tagFn tag opIndex dataPrefix)
                      (TokenNotes.notes wrapper) content))))).
Proof.
  destruct (TokenWrapper_ok content) as [wrapper Hw]. exists wrapper.
  split; [exact Hw |].
  unfold wrap, combineTokenNotes. rewrite Hw. cbn [bindR].
  rewrite combineSegments_runs. cbn [bindR].
  unfold TokenWrapper, reduce in Hw.
  destruct (reduceFrom TokenWrapper_step content 0 ([], [])) as [data | |] eqn:Hdata;
    try discriminate.
  cbn [bindR] in Hw. injection Hw as <-. cbn [TokenNotes.tokens TokenNotes.notes].
  pose proof (TokenWrapper_from_flags _ _ _ _ _ Hdata) as Hflags. cbn [map app] in Hflags.
  rewrite notedFrom_flags; [reflexivity |].
  intros j t Hj. rewrite Z.add_0_l. eapply wrappableAt_flags; eauto.
Qed.

(** * The tests of the repository, replayed on the embedding *)

(** ** The tests of [htmlToTokens] *)

Example tokens_of_text :
  tokenTexts "this is a test" = Ok ["this"; " "; "is"; " "; "a"; " "; "test"].
Proof. vm_compute. reflexivity. Qed.

Example tokens_of_html :
  tokenTexts "<p>this is a <strong>test</strong></p>" =
  Ok ["<p>"; "this"; " "; "is"; " "; "a"; " "; "<strong>"; "test"; "</strong>"; "</p>"].
Proof. vm_compute. reflexivity. Qed.

Example tokens_without_comments :
  tokenTexts "<p> this is <!-- a comment! --> </p>" =
  Ok ["<p>"; " "; "this"; " "; "is"; " "; " "; "</p>"].
Proof. vm_compute. reflexivity. Qed.

Example tokens_contiguous_whitespace :
  htmlToTokens "a   b" = Ok [createToken "a" 0; createToken "   " 1; createToken "b" 3].
Proof. vm_compute. reflexivity. Qed.

Example tokens_single_spaces :
  tokenTexts " a b " = Ok [" "; "a"; " "; "b"; " "].
Proof. vm_compute. reflexivity. Qed.

Example tokens_self_closing :
  tokenTexts "<p>hello</br>goodbye</p>" = Ok ["<p>"; "hello"; "</br>"; "goodbye"; "</p>"].
Proof. vm_compute. reflexivity. Qed.

Example tokens_img :
  tokenTexts "<p><img src='1.jpg'><img src='2.jpg'></p>" =
  Ok ["<p>"; "<img src='1.jpg'>"; "<img src='2.jpg'>"; "</p>"].
Proof. vm_compute. reflexivity. Qed.

Example tokens_iframe :
  tokenTexts "<p><iframe src='sample.html'></iframe></p>" =
  Ok ["<p>"; "<iframe src='sample.html'></iframe>"; "</p>"].
Proof. vm_compute. reflexivity. Qed.

Example tokens_object :
  tokenTexts "<p><object><param name='1' /><param name='2' /></object></p>" =
  Ok ["<p>"; "<object><param name='1' /><param name='2' /></object>"; "</p>"].
Proof. vm_compute. reflexivity. Qed.

Example tokens_svg :
  tokenTexts "<p><svg width='100'><circle cx='50' fill='yellow' /></svg></p>" =
  Ok ["<p>"; "<svg width='100'><circle cx='50' fill='yellow' /></svg>"; "</p>"].
Proof. vm_compute. reflexivity. Qed.

Example tokens_anchor :
  tokenTexts "<a src='1'>text</a>" = Ok ["<a src='1'>text</a>"].
Proof. vm_compute. reflexivity. Qed.

Example tokens_script :
  tokenTexts "<p><script>console.log('hi');</script></p>" =
  Ok ["<p>"; "<script>console.log('hi');</script>"; "</p>"].
Proof. vm_compute. reflexivity. Qed.

(** ** The tests of [calculateOperations] *)

Example replace_in_the_middle :
  operationsBetween "working on it" "working in it" =
  Ok [(Action.equal, 0, Some 1, 0, Some 1);
      (Action.replace, 2, Some 2, 2, Some 2);
      (Action.equal, 3, Some 4, 3, Some 4)].
Proof. vm_compute. reflexivity. Qed.

Example insert_in_the_middle :
  operationsBetween "working it" "working in it" =
  Ok [(Action.equal, 0, Some 1, 0, Some 1);
      (Action.insert, 2, None, 2, Some 3);
      (Action.equal, 2, Some 2, 4, Some 4)].
Proof. vm_compute. reflexivity. Qed.

Example insert_more_than_one_word :
  operationsBetween "working it" "working all up on it" =
  Ok [(Action.equal, 0, Some 1, 0, Some 1);
      (Action.insert, 2, None, 2, Some 7);
      (Action.equal, 2, Some 2, 8, Some 8)].
Proof. vm_compute. reflexivity. Qed.

Example delete_in_the_middle :
  operationsBetween "this is a lot of text" "this is text" =
  Ok [(Action.equal, 0, Some 3, 0, Some 3);
      (Action.delete, 4, Some 9, 4, None);
      (Action.equal, 10, Some 10, 4, Some 4)].
Proof. vm_compute. reflexivity. Qed.

Example equal_documents :
  operationsBetween "this is what it sounds like" "this is what it sounds like" =
  Ok [(Action.equal, 0, Some 10, 0, Some 10)].
Proof. vm_compute. reflexivity. Qed.

Example replace_at_the_beginning :
  operationsBetween "I dont like veggies" "Joe loves veggies" =
  Ok [(Action.replace, 0, Some 4, 0, Some 2);
      (Action.equal, 5, Some 6, 3, Some 4)].
Proof. vm_compute. reflexivity. Qed.

Example insert_at_the_beginning :
  operationsBetween "dog" "the shaggy dog" =
  Ok [(Action.insert, 0, None, 0, Some 3);
      (Action.equal, 0, Some 0, 4, Some 4)].
Proof. vm_compute. reflexivity. Qed.

Example delete_at_the_beginning :
  operationsBetween "awesome dog barks" "dog barks" =
  Ok [(Action.delete, 0, Some 1, 0, None);
      (Action.equal, 2, Some 4, 0, Some 2)].
Proof. vm_compute. reflexivity. Qed.

Example replace_at_the_end :
  operationsBetween "the dog bit the cat" "the dog bit a bird" =
  Ok [(Action.equal, 0, Some 5, 0, Some 5);
      (Action.replace, 6, Some 8, 6, Some 8)].
Proof. vm_compute. reflexivity. Qed.

Example insert_at_the_end :
  operationsBetween "this is a dog" "this is a dog that barks" =
  Ok [(Action.equal, 0, Some 6, 0, Some 6);
      (Action.insert, 7, None, 7, Some 10)].
Proof. vm_compute. reflexivity. Qed.

Example delete_at_the_end :
  operationsBetween "this is a dog that barks" "this is a dog" =
  Ok [(Action.equal, 0, Some 6, 0, Some 6);
      (Action.delete, 7, Some 10, 7, None)].
Proof. vm_compute. reflexivity. Qed.

Example no_absorption_of_longer_whitespace :
  operationsBetween "I  am awesome" "You  are great" =
  Ok [(Action.replace, 0, Some 4, 0, Some 4)].
Proof. vm_compute. reflexivity. Qed.

(** ** The test of [diff] and the example of the header comment *)

Example whole_sentence_replaced :
  diff "this is what I had" "and now we have a new one" EmptyString EmptyString =
  Ok ("<del data-operation-index=" +:+ quoted "0" +:+ ">this is what I had</del>" +:+
      "<ins data-operation-index=" +:+ quoted "0" +:+ ">and now we have a new one</ins>").
Proof. vm_compute. reflexivity. Qed.

Example readme_example :
  diff "<p>this is some text</p>" "<p>this is some more text</p>" "diff-class" EmptyString =
  Ok ("<p>this is some <ins data-operation-index=" +:+ quoted "1" +:+
      " class=" +:+ quoted "diff-class" +:+ ">more </ins>text</p>").
Proof. vm_compute. reflexivity. Qed.

(** * The properties *)

(** ** Operation calculator *)

(** C1, content conservation.  For all token lists on which
    [calculateOperations] returns, the tokens in the after-side ranges of
    the returned equal, insert and replace operations, taken in order, spell
    the text of the after tokens, and the tokens in the before-side ranges
    of the equal, delete and replace operations spell the text of the
    before tokens. *)
Theorem content_conservation (before after : list Token) (ops : list Operation.t) :
  calculateOperations (Some before) (Some after) = Ok ops ->
  text (flat_map (rangeTokens after) (afterRanges ops)) = text after /\
  text (flat_map (rangeTokens before) (beforeRanges ops)) = text before.
Proof.
  intros H. destruct (calculateOperations_safe _ _ _ H) as [Hb Ha].
  destruct (calculateOperations_ok before after Hb Ha) as (ops' & H' & T1 & T2 & _).
  rewrite H in H'. injection H' as <-.
  rewrite (tiles_tokens after _ 0 _ (Z.le_refl 0) T2), slice_all.
  rewrite (tiles_tokens before _ 0 _ (Z.le_refl 0) T1), slice_all.
  split; reflexivity.
Qed.

Lemma content_conservation_witness :
  calculateOperations (Some workingOnIt) (Some workingInIt) = Ok workingOps /\
  text (flat_map (rangeTokens workingInIt) (afterRanges workingOps)) = text workingInIt /\
  text (flat_map (rangeTokens workingOnIt) (beforeRanges workingOps)) = text workingOnIt.
Proof.
  split; [vm_compute; reflexivity |].
  apply (content_conservation workingOnIt workingInIt workingOps).
  vm_compute. reflexivity.
Defined.

(** C2, operation coverage.  For all token lists on which
    [calculateOperations] returns, the ranges [startInBefore, endInBefore]
    of the returned operations with a before side (equal, delete, replace)
    tile [0, len(beforeTokens)) in order, without gap or overlap, and the
    ranges [startInAfter, endInAfter] of those with an after side (equal,
    insert, replace) tile [0, len(afterTokens)); every operation carries
    the end of each side it has. *)
Theorem operation_coverage (before after : list Token) (ops : list Operation.t) :
  calculateOperations (Some before) (Some after) = Ok ops ->
  tiles (beforeRanges ops) 0 (arrayLength before) /\
  tiles (afterRanges ops) 0 (arrayLength after) /\
  Forall completeOperation ops.
Proof.
  intros H. destruct (calculateOperations_safe _ _ _ H) as [Hb Ha].
  destruct (calculateOperations_ok before after Hb Ha) as (ops' & H' & T).
  rewrite H in H'. injection H' as <-. exact T.
Qed.

Lemma operation_coverage_witness :
  calculateOperations (Some workingOnIt) (Some workingInIt) = Ok workingOps /\
  tiles (beforeRanges workingOps) 0 (arrayLength workingOnIt) /\
  tiles (afterRanges workingOps) 0 (arrayLength workingInIt) /\
  Forall completeOperation workingOps.
Proof.
  split; [vm_compute; reflexivity |].
  apply (operation_coverage workingOnIt workingInIt workingOps).
  vm_compute. reflexivity.
Defined.

(** C3, identity.  Whenever the two arguments are the same string, [diff]
    returns that string, whatever the class name, the data prefix and any
    further argument of the call. *)
Theorem diff_identity (S className dataPrefix : string) :
  diff S S className dataPrefix = Ok S /\
  forall extra, diff_call S S className dataPrefix extra = Ok S.
Proof.
  assert (diff S S className dataPrefix = Ok S) as H
    by (unfold diff; now rewrite String.eqb_refl).
  split; [exact H | intros extra; exact H].
Qed.

(** C4, the match invariant, evaluated where it fails.  Between
    [red, one two three; blue: four five] and
    [one two three; red: four five], [findMatchingBlocks] returns a match of
    length 1 at before index 10 and after index 7, where the before token
    has key [blue] and the after token has key [red]. *)
Theorem findMatchingBlocks_pairs_blue_with_red :
  blocksWithKeys "red, one two three; blue: four five"
                 "one two three; red: four five" =
  Ok [(3, 0, 7, Some "one", Some "one");
      (10, 7, 1, Some "blue", Some "red");
      (11, 8, 5, Some ":", Some ":")].
Proof. vm_compute. reflexivity. Qed.

(** C5, the post-processing pass, evaluated where it fails.  Between
    [e.b c] and [.a .c] the fourth operation is an equal operation that
    covers the single before token at index 3, whose text is one space, and
    directly follows a kept replace operation; it is kept. *)
Theorem single_whitespace_equal_is_kept :
  tokenTexts "e.b c" = Ok ["e"; "."; "b"; " "; "c"] /\
  operationsBetween "e.b c" ".a .c" =
  Ok [(Action.delete, 0, Some 0, 0, None);
      (Action.equal, 1, Some 1, 0, Some 0);
      (Action.replace, 2, Some 2, 1, Some 2);
      (Action.equal, 3, Some 3, 3, Some 3);
      (Action.equal, 4, Some 4, 4, Some 4)].
Proof. split; vm_compute; reflexivity. Qed.

(** ** Renderer *)

(** C6 as stated fails: the insert of the single token made of one space
    renders as the empty text, not as the space, and an inserted trailing
    space disappears from the result of [diff]. *)
Lemma whitespace_run_is_not_emitted :
  wrap "ins" [" "] 0 EmptyString EmptyString = Ok EmptyString /\
  wrap_mapFn "ins" (wrapAttrs 0 EmptyString EmptyString)
    {| WrappableTokens.isWrappable := true; WrappableTokens.tokens := [" "] |} <> " " /\
  diff "a" "a " EmptyString EmptyString = Ok "a".
Proof.
  split; [vm_compute; reflexivity |].
  split; [vm_compute; discriminate | vm_compute; reflexivity].
Qed.

(** C6, amended.  [wrap] cuts the content into its maximal runs, by
    [isWrappable] of every token: consecutive tokens with the same flag are
    one run.  What it returns is the concatenation of what its first
    callback returns for these runs, and for a wrappable run whose
    concatenated text is empty or only white space the callback returns the
    empty text: leaving these runs out does not change the result, so that
    neither a wrapper nor a character of such a run is emitted.  An insert
    and a delete operation are rendered by [wrap] on the texts of their
    tokens. *)
Theorem blank_wrappable_run_renders_empty
        (tag : string) (content : list string) (opIndex : Z)
        (dataPrefix className : string) :
  exists wrapper runs,
    TokenWrapper content = Ok wrapper /\
    runs = maximalRuns
             (combine (map isWrappable content)
                (annotate (wrap_tagFn tag opIndex dataPrefix)
                   (TokenNotes.notes wrapper) content)) /\
    combineSegments (wrap_tagFn tag opIndex dataPrefix) wrapper = Ok runs /\
    wrap tag content opIndex dataPrefix className =
    Ok (JS.join EmptyString
          (map (wrap_mapFn tag (wrapAttrs opIndex dataPrefix className)) runs)) /\
    wrap tag content opIndex dataPrefix className =
    Ok (JS.join EmptyString
          (map (wrap_mapFn tag (wrapAttrs opIndex dataPrefix className))
             (List.filter (fun run => negb (isBlankWrappableRun run)) runs))) /\
    (forall run,
       In run runs ->
       isBlankWrappableRun run = true ->
       wrap_mapFn tag (wrapAttrs opIndex dataPrefix className) run = EmptyString) /\
    (forall op before after,
       OPS.insert op before after opIndex dataPrefix className =
       wrap "ins"
         (map str (opTokens after (Operation.startInAfter op) (Operation.endInAfter op)))
         opIndex dataPrefix className) /\
    (forall op before after,
       OPS.delete op before after opIndex dataPrefix className =
       wrap "del"
         (map str (opTokens before (Operation.startInBefore op) (Operation.endInBefore op)))
         opIndex dataPrefix className).
Proof.
  destruct (wrap_maximalRuns tag content opIndex dataPrefix className)
    as (wrapper & Hw & Hwrap).
  destruct (wrap_runs tag content opIndex dataPrefix className)
    as (wrapper' & runs' & Hw' & Hr & Hwrap').
  rewrite Hw in Hw'. injection Hw' as <-.
  exists wrapper. eexists. split; [exact Hw |]. split; [reflexivity |].
  assert (runs' = maximalRuns
                    (combine (map isWrappable content)
                       (annotate (wrap_tagFn tag opIndex dataPrefix)
                          (TokenNotes.notes wrapper) content))) as Eruns.
  { pose proof (combineSegments_runs (wrap_tagFn tag opIndex dataPrefix) wrapper) as H.
    rewrite Hr in H. injection H as ->.
    unfold TokenWrapper, reduce in Hw.
    destruct (reduceFrom TokenWrapper_step content 0 ([], [])) as [data | |] eqn:Hdata;
      try discriminate.
    cbn [bindR] in Hw. injection Hw as <-. cbn [TokenNotes.tokens TokenNotes.notes].
    pose proof (TokenWrapper_from_flags _ _ _ _ _ Hdata) as Hflags.
    cbn [map app] in Hflags.
    rewrite notedFrom_flags; [reflexivity |].
    intros j t Hj. rewrite Z.add_0_l. eapply wrappableAt_flags; eauto. }
  rewrite <- Eruns.
  split; [exact Hr |]. split; [exact Hwrap' |]. split.
  - rewrite Hwrap'. f_equal. symmetry. apply join_map_filter.
    intros run Hrun. apply negb_false_iff in Hrun. now apply wrap_mapFn_blank.
  - split; [intros run _; apply wrap_mapFn_blank |].
    split; reflexivity.
Qed.

Lemma blank_wrappable_run_renders_empty_witness :
  exists wrapper runs,
    TokenWrapper ["a"; "</p>"; " "] = Ok wrapper /\
    runs = maximalRuns
             (combine (map isWrappable ["a"; "</p>"; " "])
                (annotate (wrap_tagFn "del" 2 EmptyString)
                   (TokenNotes.notes wrapper) ["a"; "</p>"; " "])) /\
    combineSegments (wrap_tagFn "del" 2 EmptyString) wrapper = Ok runs /\
    wrap "del" ["a"; "</p>"; " "] 2 EmptyString EmptyString =
    Ok (JS.join EmptyString
          (map (wrap_mapFn "del" (wrapAttrs 2 EmptyString EmptyString)) runs)) /\
    wrap "del" ["a"; "</p>"; " "] 2 EmptyString EmptyString =
    Ok (JS.join EmptyString
          (map (wrap_mapFn "del" (wrapAttrs 2 EmptyString EmptyString))
             (List.filter (fun run => negb (isBlankWrappableRun run)) runs))) /\
    (forall run,
       In run runs ->
       isBlankWrappableRun run = true ->
       wrap_mapFn "del" (wrapAttrs 2 EmptyString EmptyString) run = EmptyString) /\
    (forall op before after,
       OPS.insert op before after 2 EmptyString EmptyString =
       wrap "ins"
         (map str (opTokens after (Operation.startInAfter op) (Operation.endInAfter op)))
         2 EmptyString EmptyString) /\
    (forall op before after,
       OPS.delete op before after 2 EmptyString EmptyString =
       wrap "del"
         (map str (opTokens before (Operation.startInBefore op) (Operation.endInBefore op)))
         2 EmptyString EmptyString).
Proof.
  apply (blank_wrappable_run_renders_empty "del" ["a"; "</p>"; " "] 2
           EmptyString EmptyString).
Defined.

(** The maximal runs of the tokens [a], [</p>] and one space: a wrappable
    run, a run that is not wrappable, and a wrappable run that is blank. *)
Example maximal_runs_of_a_tag_and_a_space :
  maximalRuns (combine (map isWrappable ["a"; "</p>"; " "]) ["a"; "</p>"; " "]) =
  [{| WrappableTokens.isWrappable := true; WrappableTokens.tokens := ["a"] |};
   {| WrappableTokens.isWrappable := false; WrappableTokens.tokens := ["</p>"] |};
   {| WrappableTokens.isWrappable := true; WrappableTokens.tokens := [" "] |}] /\
  List.filter (fun run => negb (isBlankWrappableRun run))
    (maximalRuns (combine (map isWrappable ["a"; "</p>"; " "]) ["a"; "</p>"; " "])) =
  [{| WrappableTokens.isWrappable := true; WrappableTokens.tokens := ["a"] |};
   {| WrappableTokens.isWrappable := false; WrappableTokens.tokens := ["</p>"] |}].
Proof. split; vm_compute; reflexivity. Qed.

(** The runs of the deleted tokens [a], [</p>] and one space: the word is
    wrapped, the closing tag passes through, the space is not emitted. *)
Example blank_run_after_a_tag :
  wrap "del" ["a"; "</p>"; " "] 2 EmptyString EmptyString =
  Ok ("<del data-operation-index=" +:+ quoted "2" +:+ ">a</del></p>").
Proof. vm_compute. reflexivity. Qed.

(** ** The public entry point *)

(** C7, evaluated where it fails.  A call of [diff] with the fifth argument
    [p], meant as the list of atomic tags, returns what the call without it
    returns: the paragraph is not one atomic token, and only its word is
    marked as replaced. *)
Theorem diff_ignores_atomicTags :
  tokenTexts "<p>a</p>" = Ok ["<p>"; "a"; "</p>"] /\
  diff_call "<p>a</p>" "<p>b</p>" EmptyString EmptyString ["p"] =
  diff_call "<p>a</p>" "<p>b</p>" EmptyString EmptyString [] /\
  diff_call "<p>a</p>" "<p>b</p>" EmptyString EmptyString ["p"] =
  Ok ("<p><del data-operation-index=" +:+ quoted "1" +:+ ">a</del>" +:+
      "<ins data-operation-index=" +:+ quoted "1" +:+ ">b</ins></p>").
Proof.
  split; [vm_compute; reflexivity |].
  split; [unfold diff_call; reflexivity | vm_compute; reflexivity].
Qed.

(** C8, evaluated where it fails.  Both token lists are present, and
    [calculateOperations] throws: the key [constructor] names a property
    that the lookup map inherits, on which [createMap] calls [push].  The
    same happens through [diff]. *)
Theorem calculateOperations_throws_on_inherited_key :
  htmlToTokens "constructor" = Ok [createToken "constructor" 0] /\
  htmlToTokens "x" = Ok [createToken "x" 0] /\
  calculateOperations (Some [createToken "constructor" 0]) (Some [createToken "x" 0]) =
  Throw (TypeError "map[token.key]?.push is not a function") /\
  diff "constructor" "x" EmptyString EmptyString =
  Throw (TypeError "map[token.key]?.push is not a function").
Proof.
  split; [vm_compute; reflexivity |].
  split; [vm_compute; reflexivity |].
  split; vm_compute; reflexivity.
Qed.

(** ** Tokenizer *)

(** C9, totality.  For every input string [htmlToTokens] returns a list of
    tokens: the loop ends within its fuel although the index may step
    back, and neither the unknown-mode error nor any other is raised. *)
Theorem htmlToTokens_total (html : string) :
  exists tokens, htmlToTokens html = Ok tokens.
Proof. apply htmlToTokens_returns. Qed.

(** C10, losslessness.  For every input string that contains no HTML
    comment, [htmlToTokens] returns tokens whose literal texts, concatenated
    in order, are the input string. *)
Theorem htmlToTokens_lossless (html : string) :
  containsHTMLComment html = false ->
  exists tokens, htmlToTokens html = Ok tokens /\ text tokens = html.
Proof. apply htmlToTokens_spells_input. Qed.

Lemma htmlToTokens_lossless_witness :
  containsHTMLComment "<p>a &amp; <b>c</p>  d" = false /\
  exists tokens,
    htmlToTokens "<p>a &amp; <b>c</p>  d" = Ok tokens /\
    text tokens = "<p>a &amp; <b>c</p>  d".
Proof.
  split; [vm_compute; reflexivity |].
  apply (htmlToTokens_lossless "<p>a &amp; <b>c</p>  d").
  vm_compute. reflexivity.
Defined.

(** * Further properties of the code *)

(** ** Lookup maps *)

(** The entry for [k] after a pass over [tokens]: the locations of [k]
    among them are appended to what the map held. *)
Lemma createMap_from_lookup (tokens : list Token) :
  forall index map map' k,
    reduceFrom createMap_step tokens index map = Ok map' ->
    map' !! k =
    match positionsFrom k tokens index with
    | [] => map !! k
    | more => Some (default [] (map !! k) ++ more)
    end.
Proof.
  induction tokens as [| t tokens IH]; intros index map map' k; cbn [reduceFrom positionsFrom].
  - intros [= <-]. reflexivity.
  - destruct (createMap_step map t index) as [map1 | |] eqn:Hstep; try discriminate.
    cbn [bindR]. intros Hrest. rewrite (IH _ _ _ k Hrest).
    assert (map1 = <[key t := default [] (map !! key t) ++ [index]]> map) as ->.
    { unfold createMap_step in Hstep. destruct (map !! key t); cbn [default].
      - injection Hstep as <-. reflexivity.
      - destruct (inheritedProperty (key t)); [discriminate |].
        injection Hstep as <-. reflexivity. }
    destruct (String.eqb_spec (key t) k) as [-> | Hne].
    + rewrite lookup_insert_eq. cbn [default].
      destruct (positionsFrom k tokens (index + 1)); [reflexivity |].
      unfold id. now rewrite <- app_assoc.
    + rewrite lookup_insert_ne by assumption. reflexivity.
Qed.

Lemma createMap_lookup_ok (tokens : list Token) (map : gmap string (list Z)) (k : string) :
  createMap tokens = Ok map -> map !! k = locationsOf k tokens.
Proof.
  intros H. unfold createMap, reduce in H.
  rewrite (createMap_from_lookup _ _ _ _ k H), lookup_empty. reflexivity.
Qed.

(** X8, lookup maps.  [createMap] returns exactly when no key names an
    inherited property, and otherwise throws the error of the missing
    [push].  The map it returns holds, for every key, the indices of the
    tokens with that key in increasing order, and no entry for a key no
    token has. *)
Theorem createMap_lookup (tokens : list Token) :
  match createMap tokens with
  | Ok map => safeKeysb tokens = true /\ forall k, map !! k = locationsOf k tokens
  | Throw e =>
      safeKeysb tokens = false /\ e = TypeError "map[token.key]?.push is not a function"
  | Unmodelled => False
  end.
Proof.
  destruct (safeKeysb tokens) eqn:E.
  - apply safeKeysb_spec in E. destruct (createMap_ok tokens E) as (map & H & _).
    rewrite H. split; [reflexivity |]. intros k. now apply createMap_lookup_ok.
  - rewrite createMap_unsafe; [auto |].
    intros H. apply safeKeysb_spec in H. congruence.
Qed.

(** ** Matches pair tokens of equal keys inside their segment *)

Lemma positionsFrom_sound (k : string) (tokens : list Token) :
  forall index a,
    In a (positionsFrom k tokens index) ->
    index <= a /\ option_map key (nth_error tokens (Z.to_nat (a - index))) = Some k.
Proof.
  induction tokens as [| t tokens IH]; intros index a; cbn [positionsFrom]; [intros [] |].
  assert (In a (positionsFrom k tokens (index + 1)) ->
          index <= a /\
          option_map key (nth_error (t :: tokens) (Z.to_nat (a - index))) = Some k) as Hrest.
  { intros H. apply IH in H as [Hle H]. split; [lia |].
    replace (Z.to_nat (a - index)) with (S (Z.to_nat (a - (index + 1)))) by lia.
    exact H. }
  destruct (String.eqb_spec (key t) k) as [E | E]; [| exact Hrest].
  intros [<- | H]; [| auto].
  split; [lia |]. rewrite Z.sub_diag. change (Some (key t) = Some k). now rewrite E.
Qed.

Lemma createMap_sound (tokens : list Token) (map : gmap string (list Z)) :
  createMap tokens = Ok map -> soundLocations tokens map.
Proof.
  intros H k locations Hk. rewrite (createMap_lookup_ok _ _ k H) in Hk.
  unfold locationsOf in Hk. apply List.Forall_forall. intros a Ha.
  assert (In a (positionsFrom k tokens 0)) as Hin.
  { destruct (positionsFrom k tokens 0); [discriminate |]. now injection Hk as <-. }
  apply positionsFrom_sound in Hin as [Hle Hkey]. split; [exact Hle |].
  unfold keyAt, JS.index. destruct (a <? 0) eqn:E; [lia |].
  now rewrite Z.sub_0_r in Hkey.
Qed.

Lemma keyAt_in_range (tokens : list Token) (i : Z) :
  0 <= i < arrayLength tokens -> exists k, keyAt tokens i = Some k.
Proof.
  intros H. destruct (index_in_range tokens i H) as [t Ht].
  unfold keyAt. rewrite Ht. cbn. eauto.
Qed.

Lemma strictEq_same (a b : option string) (k : string) :
  strictEq a b = true -> a = Some k -> b = Some k.
Proof.
  intros H ->. destruct b as [y |]; cbn in H; [| discriminate].
  apply String.eqb_eq in H. now subst.
Qed.

Lemma keysAgree_snoc (bt at_ : list Token) (bs as_ len : Z) :
  0 <= len ->
  keysAgree bt at_ bs as_ len ->
  (exists k, keyAt bt (bs + len) = Some k /\ keyAt at_ (as_ + len) = Some k) ->
  keysAgree bt at_ bs as_ (len + 1).
Proof.
  intros Hlen H Hlast i Hi.
  destruct (Z.eq_dec i len) as [-> | Hne]; [exact Hlast | apply H; lia].
Qed.

Lemma keysAgree_cons (bt at_ : list Token) (bs as_ len : Z) :
  keysAgree bt at_ bs as_ len ->
  (exists k, keyAt bt (bs - 1) = Some k /\ keyAt at_ (as_ - 1) = Some k) ->
  keysAgree bt at_ (bs - 1) (as_ - 1) (len + 1).
Proof.
  intros H Hfirst i Hi.
  destruct (Z.eq_dec i 0) as [-> | Hne].
  - now rewrite !Z.add_0_r.
  - replace (bs - 1 + i) with (bs + (i - 1)) by lia.
    replace (as_ - 1 + i) with (as_ + (i - 1)) by lia.
    apply H. lia.
Qed.

Lemma getFullMatch_while_keys (bt at_ : list Token) (bs as_ : Z) (fuel : nat) :
  forall cl cl',
    0 <= bs -> 0 <= cl ->
    keysAgree bt at_ bs as_ cl ->
    getFullMatch_while fuel bt at_ bs as_ cl = Ok cl' ->
    keysAgree bt at_ bs as_ cl'.
Proof.
  induction fuel as [| fuel IH]; intros cl cl' Hbs Hcl Hagree; cbn [getFullMatch_while];
    [discriminate |].
  destruct ((bs + cl <? arrayLength bt) && (as_ + cl <? arrayLength at_)) eqn:Ein.
  - apply andb_prop in Ein as [Hb _]. apply Z.ltb_lt in Hb.
    destruct (strictEq _ _) eqn:Eeq.
    + apply IH; [assumption | lia |].
      apply keysAgree_snoc; [assumption | assumption |].
      destruct (keyAt_in_range bt (bs + cl)) as [k Hk]; [lia |].
      exists k. split; [exact Hk |]. eapply strictEq_same; eauto.
    + now intros [= <-].
  - now intros [= <-].
Qed.

Lemma getFullMatch_keys (seg : Segment) (bs as_ minLength : Z) (lookBehind : bool)
      (m : Match.t) :
  0 <= bs ->
  (exists k, keyAt (beforeTokens seg) bs = Some k /\ keyAt (afterTokens seg) as_ = Some k) ->
  getFullMatch seg bs as_ minLength lookBehind = Ok (Some m) ->
  matchKeysAgree seg m.
Proof.
  intros Hbs Hfirst. unfold getFullMatch.
  destruct (_ || _); [discriminate |].
  destruct (negb (minLength =? 0) && _); [discriminate |].
  destruct (getFullMatch_while _ _ _ _ _ _) as [cl | |] eqn:Hloop; try discriminate.
  cbn [bindR].
  assert (keysAgree (beforeTokens seg) (afterTokens seg) bs as_ cl) as Hagree.
  { eapply getFullMatch_while_keys; [exact Hbs | | | exact Hloop]; [lia |].
    intros i Hi. assert (i = 0) as -> by lia. now rewrite !Z.add_0_r. }
  destruct (lookBehind && (bs >? 0) && (as_ >? 0) && _ && _) eqn:Elook.
  - apply andb_prop in Elook as [Elook Ha]. apply andb_prop in Elook as [_ Hb].
    intros [= <-]. unfold matchKeysAgree. cbn.
    apply keysAgree_cons; [exact Hagree |].
    exists " ". split.
    + destruct (keyAt (beforeTokens seg) (bs - 1)); cbn in Hb; [| discriminate].
      apply String.eqb_eq in Hb. now subst.
    + destruct (keyAt (afterTokens seg) (as_ - 1)); cbn in Ha; [| discriminate].
      apply String.eqb_eq in Ha. now subst.
  - intros [= <-]. exact Hagree.
Qed.

Lemma findBestMatch_each_keys (seg : Segment) (beforeIndex : Z) (lookBehind : bool)
      (best best' : option Match.t) (afterIndex i : Z) :
  0 <= beforeIndex ->
  (exists k, keyAt (beforeTokens seg) beforeIndex = Some k /\
             keyAt (afterTokens seg) afterIndex = Some k) ->
  optKeysAgree seg best ->
  findBestMatch_each seg beforeIndex lookBehind best afterIndex i = Ok best' ->
  optKeysAgree seg best'.
Proof.
  intros Hb Hfirst Hbest. unfold findBestMatch_each.
  destruct (getFullMatch _ _ _ _ _) as [r | |] eqn:Hfull; try discriminate.
  cbn [bindR]. destruct r as [m |].
  - destruct (Match.length m >? _); intros [= <-]; [| assumption].
    eapply getFullMatch_keys; eauto.
  - now intros [= <-].
Qed.

Lemma findBestMatch_locations_keys (seg : Segment) (beforeIndex : Z) (lookBehind : bool)
      (k : string) (locations : list Z) :
  0 <= beforeIndex ->
  keyAt (beforeTokens seg) beforeIndex = Some k ->
  Forall (fun a => 0 <= a /\ keyAt (afterTokens seg) a = Some k) locations ->
  forall i best best',
    optKeysAgree seg best ->
    reduceFrom (findBestMatch_each seg beforeIndex lookBehind) locations i best = Ok best' ->
    optKeysAgree seg best'.
Proof.
  intros Hb Hk Hloc. induction Hloc as [| a locations [_ Ha] _ IH]; intros i best best' Hbest;
    cbn [reduceFrom].
  - now intros [= <-].
  - destruct (findBestMatch_each _ _ _ _ _ _) as [best1 | |] eqn:Hstep; try discriminate.
    cbn [bindR]. apply IH.
    eapply findBestMatch_each_keys; [exact Hb | | exact Hbest | exact Hstep]. eauto.
Qed.

Lemma findBestMatch_for_keys (seg : Segment) (n : nat) :
  soundLocations (afterTokens seg) (afterMap seg) ->
  forall beforeIndex lastSpace best r,
    0 <= beforeIndex -> optKeysAgree seg best ->
    findBestMatch_for n seg beforeIndex lastSpace best = Ok r ->
    optKeysAgree seg r.
Proof.
  intros Hmap.
  induction n as [| n IH]; intros beforeIndex lastSpace best r Hb Hbest;
    cbn [findBestMatch_for].
  - now intros [= <-].
  - destruct (match best with Some b => _ | None => false end); [now intros [= <-] |].
    destruct (strictEq _ _); [apply IH; [lia | assumption] |].
    destruct (JS.index (beforeTokens seg) beforeIndex) as [token |] eqn:Etok;
      [| apply IH; [lia | assumption]].
    destruct (afterMap seg !! key token) as [locations |] eqn:Eloc.
    + unfold reduce.
      destruct (reduceFrom _ locations 0 best) as [best1 | |] eqn:Hred; try discriminate.
      cbn [bindR]. apply IH; [lia |].
      eapply findBestMatch_locations_keys;
        [exact Hb | | exact (Hmap _ _ Eloc) | exact Hbest | exact Hred].
      unfold keyAt. now rewrite Etok.
    + destruct (inheritedProperty (key token)); [discriminate |].
      apply IH; [lia | assumption].
Qed.

(** X10, the best match of a segment.  On a segment built by
    [createSegment] from two token lists whose keys name no inherited
    property, [findBestMatch] returns; a match it returns is a non-empty run
    inside both lists of the segment, and the tokens it pairs, position by
    position, have equal keys. *)
Theorem findBestMatch_pairs_equal_keys (before after : list Token)
        (beforeIndex afterIndex : Z) :
  safeKeysb before = true -> safeKeysb after = true ->
  exists seg found,
    createSegment before after beforeIndex afterIndex = Ok seg /\
    findBestMatch seg = Ok found /\
    match found with
    | Some m =>
        localMatch seg m /\
        keysAgree before after
          (Match.segmentStartInBefore m) (Match.segmentStartInAfter m) (Match.length m)
    | None => True
    end.
Proof.
  intros Hb Ha. apply safeKeysb_spec in Hb, Ha.
  destruct (createSegment_ok before after beforeIndex afterIndex Hb Ha)
    as (seg & Hseg & Eb & Ea & _ & _ & Hmap).
  assert (soundLocations (afterTokens seg) (afterMap seg)) as Hsound.
  { unfold createSegment in Hseg.
    destruct (createMap before) as [mb | |]; try discriminate. cbn [bindR] in Hseg.
    destruct (createMap after) as [ma | |] eqn:Hma; try discriminate. cbn [bindR] in Hseg.
    injection Hseg as <-. cbn. now apply createMap_sound. }
  destruct (findBestMatch_ok seg) as (found & Hfound & Hlocal);
    [now rewrite Eb | exact Hmap |].
  exists seg, found. split; [exact Hseg |]. split; [exact Hfound |].
  destruct found as [m |]; [| exact I]. split; [exact Hlocal |].
  rewrite <- Eb, <- Ea.
  apply (findBestMatch_for_keys seg (List.length (beforeTokens seg)) Hsound
           0 None None (Some m)); [lia | exact I | exact Hfound].
Qed.

Lemma findBestMatch_pairs_equal_keys_witness :
  safeKeysb workingOnIt = true /\ safeKeysb workingInIt = true /\
  exists seg found,
    createSegment workingOnIt workingInIt 0 0 = Ok seg /\
    findBestMatch seg = Ok found /\
    match found with
    | Some m =>
        localMatch seg m /\
        keysAgree workingOnIt workingInIt
          (Match.segmentStartInBefore m) (Match.segmentStartInAfter m) (Match.length m)
    | None => True
    end.
Proof.
  split; [vm_compute; reflexivity |].
  split; [vm_compute; reflexivity |].
  apply (findBestMatch_pairs_equal_keys workingOnIt workingInIt 0 0);
    vm_compute; reflexivity.
Defined.

(** ** The longest run from a pair of positions *)

Lemma getFullMatch_while_stops (bt at_ : list Token) (bs as_ : Z) (fuel : nat) :
  forall cl cl',
    getFullMatch_while fuel bt at_ bs as_ cl = Ok cl' ->
    (bs + cl' <? arrayLength bt) && (as_ + cl' <? arrayLength at_) &&
    strictEq (keyAt bt (bs + cl')) (keyAt at_ (as_ + cl')) = false.
Proof.
  induction fuel as [| fuel IH]; intros cl cl'; cbn [getFullMatch_while]; [discriminate |].
  destruct ((bs + cl <? arrayLength bt) && (as_ + cl <? arrayLength at_)) eqn:Ein.
  - destruct (strictEq (keyAt bt (bs + cl)) (keyAt at_ (as_ + cl))) eqn:Eeq.
    + apply IH.
    + intros [= <-]. now rewrite Ein, Eeq.
  - intros [= <-]. now rewrite Ein.
Qed.

(** X9, the longest run from a pair of positions.  When the tokens at
    [beforeStart] and [afterStart] have the same key, [getFullMatch] returns
    without error.  A match it returns pairs tokens of equal keys and cannot
    be extended forward: just behind it a list ends or the two keys differ.
    It returns [null] only when a list ends at the offset [minLength], or
    the keys at that offset differ. *)
Theorem getFullMatch_longest_run (seg : Segment) (beforeStart afterStart minLength : Z)
        (lookBehind : bool) :
  0 <= beforeStart < arrayLength (beforeTokens seg) ->
  0 <= afterStart ->
  0 <= minLength ->
  strictEq (keyAt (beforeTokens seg) beforeStart) (keyAt (afterTokens seg) afterStart) = true ->
  match getFullMatch seg beforeStart afterStart minLength lookBehind with
  | Ok (Some m) =>
      localMatch seg m /\
      keysAgree (beforeTokens seg) (afterTokens seg)
        (Match.segmentStartInBefore m) (Match.segmentStartInAfter m) (Match.length m) /\
      (Match.segmentEndInBefore m + 1 <? arrayLength (beforeTokens seg)) &&
      (Match.segmentEndInAfter m + 1 <? arrayLength (afterTokens seg)) &&
      strictEq (keyAt (beforeTokens seg) (Match.segmentEndInBefore m + 1))
               (keyAt (afterTokens seg) (Match.segmentEndInAfter m + 1)) = false
  | Ok None =>
      (beforeStart + minLength >=? arrayLength (beforeTokens seg)) ||
      (afterStart + minLength >=? arrayLength (afterTokens seg)) ||
      negb (strictEq (keyAt (beforeTokens seg) (beforeStart + minLength))
                     (keyAt (afterTokens seg) (afterStart + minLength))) = true
  | _ => False
  end.
Proof.
  intros Hbs Has Hmin Hfirst.
  assert (exists k, keyAt (beforeTokens seg) beforeStart = Some k /\
                    keyAt (afterTokens seg) afterStart = Some k) as Hkeys.
  { destruct (keyAt_in_range (beforeTokens seg) beforeStart Hbs) as [k Hk].
    exists k. split; [exact Hk |]. eapply strictEq_same; eauto. }
  destruct (getFullMatch_ok seg beforeStart afterStart minLength lookBehind)
    as (r & Hr & Hlocal); [lia | lia | lia |].
  rewrite Hr. destruct r as [m |].
  - cbn [optLocalMatch] in Hlocal. split; [exact Hlocal |].
    split; [eapply getFullMatch_keys; [| exact Hkeys | exact Hr]; lia |].
    unfold getFullMatch in Hr.
    destruct (_ || _); [discriminate |].
    destruct (negb (minLength =? 0) && _); [discriminate |].
    destruct (getFullMatch_while _ _ _ _ _ _) as [cl | |] eqn:Hloop; try discriminate.
    cbn [bindR] in Hr. apply getFullMatch_while_stops in Hloop.
    destruct (lookBehind && _ && _ && _ && _); injection Hr as <-; cbn;
      [replace (beforeStart - 1 + (cl + 1) - 1 + 1) with (beforeStart + cl) by lia;
       replace (afterStart - 1 + (cl + 1) - 1 + 1) with (afterStart + cl) by lia
      |replace (beforeStart + cl - 1 + 1) with (beforeStart + cl) by lia;
       replace (afterStart + cl - 1 + 1) with (afterStart + cl) by lia];
      exact Hloop.
  - unfold getFullMatch in Hr.
    destruct (_ || _) eqn:Eend; [reflexivity |].
    destruct (negb (minLength =? 0) && _) eqn:Emin.
    + apply andb_prop in Emin as [_ ->]. apply orb_true_r.
    + destruct (getFullMatch_while _ _ _ _ _ _); try discriminate.
      cbn [bindR] in Hr. destruct (lookBehind && _ && _ && _ && _); discriminate.
Qed.

Lemma getFullMatch_longest_run_witness :
  0 <= 0 < arrayLength (beforeTokens workingSegment) /\
  0 <= 0 /\ 0 <= 0 /\
  strictEq (keyAt (beforeTokens workingSegment) 0) (keyAt (afterTokens workingSegment) 0)
    = true /\
  match getFullMatch workingSegment 0 0 0 false with
  | Ok (Some m) =>
      localMatch workingSegment m /\
      keysAgree (beforeTokens workingSegment) (afterTokens workingSegment)
        (Match.segmentStartInBefore m) (Match.segmentStartInAfter m) (Match.length m) /\
      (Match.segmentEndInBefore m + 1 <? arrayLength (beforeTokens workingSegment)) &&
      (Match.segmentEndInAfter m + 1 <? arrayLength (afterTokens workingSegment)) &&
      strictEq (keyAt (beforeTokens workingSegment) (Match.segmentEndInBefore m + 1))
               (keyAt (afterTokens workingSegment) (Match.segmentEndInAfter m + 1)) = false
  | Ok None =>
      (0 + 0 >=? arrayLength (beforeTokens workingSegment)) ||
      (0 + 0 >=? arrayLength (afterTokens workingSegment)) ||
      negb (strictEq (keyAt (beforeTokens workingSegment) (0 + 0))
                     (keyAt (afterTokens workingSegment) (0 + 0))) = true
  | _ => False
  end.
Proof.
  assert (arrayLength (beforeTokens workingSegment) = 5) as E
    by (vm_compute; reflexivity).
  split; [rewrite E; lia |].
  split; [lia |]. split; [lia |].
  split; [vm_compute; reflexivity |].
  apply (getFullMatch_longest_run workingSegment 0 0 0 false);
    [rewrite E; lia | lia | lia | vm_compute; reflexivity].
Defined.

(** ** The ordered collection of matches *)

(** X11, comparing two matches.  For two matches whose ends are in order,
    comparing them the other way round gives the opposite answer: one is
    before the other exactly when the other is after it, and two matches
    that overlap or cross each other compare as 0 both ways. *)
Theorem compareMatches_antisymmetric (m1 m2 : Match.t) :
  orderedEnds m1 -> orderedEnds m2 ->
  compareMatches m2 m1 = - compareMatches m1 m2.
Proof.
  unfold orderedEnds, compareMatches. intros [H1 H2] [H3 H4].
  rewrite !Z.gtb_ltb.
  repeat match goal with
         | |- context [?a <? ?b] =>
             let H := fresh in destruct (Z.ltb_spec a b) as [H | H]
         end; cbn; try reflexivity; lia.
Qed.

Lemma compareMatches_antisymmetric_witness :
  orderedEnds (blockAt 0 0 2) /\ orderedEnds (blockAt 3 3 2) /\
  compareMatches (blockAt 3 3 2) (blockAt 0 0 2) =
  - compareMatches (blockAt 0 0 2) (blockAt 3 3 2).
Proof.
  split; [unfold orderedEnds; cbn; lia |].
  split; [unfold orderedEnds; cbn; lia |].
  apply (compareMatches_antisymmetric (blockAt 0 0 2) (blockAt 3 3 2));
    unfold orderedEnds; cbn; lia.
Defined.

Lemma addToNode_inserts (n : TreeNode) (m : Match.t) :
  nodeToArray (addToNode n m) = nodeToArray n \/
  exists earlier later,
    nodeToArray n = earlier ++ later /\
    nodeToArray (addToNode n m) = earlier ++ m :: later.
Proof.
  induction n as [| value l IHl r IHr]; cbn [addToNode nodeToArray].
  - right. exists [], []. split; reflexivity.
  - destruct (compareMatches value m =? -1); [| destruct (compareMatches value m =? 1)];
      cbn [nodeToArray].
    + destruct IHl as [-> | (earlier & later & -> & ->)]; [now left |].
      right. exists earlier, (later ++ [value] ++ nodeToArray r).
      rewrite <- !app_assoc. split; reflexivity.
    + destruct IHr as [-> | (earlier & later & -> & ->)]; [now left |].
      right. exists (nodeToArray l ++ [value] ++ earlier), later.
      rewrite <- !app_assoc. split; reflexivity.
    + now left.
Qed.

(** X13, what [addToNode] stores.  A match that compares as before or
    after every match of the collection, never as 0, is in the collection
    after [addToNode]. *)
Theorem addToNode_keeps_comparable (n : TreeNode) (m : Match.t) :
  forallb (fun x => negb (compareMatches x m =? 0)) (nodeToArray n) = true ->
  In m (nodeToArray (addToNode n m)).
Proof.
  induction n as [| value l IHl r IHr]; cbn [addToNode nodeToArray].
  - intros _. now left.
  - rewrite !forallb_app. cbn [forallb]. intros H.
    apply andb_prop in H as [Hl H]. apply andb_prop in H as [Hv Hr].
    rewrite andb_true_r in Hv.
    assert (compareMatches value m = -1 \/ compareMatches value m = 1) as Hcmp.
    { apply negb_true_iff, Z.eqb_neq in Hv. unfold compareMatches in *.
      destruct (_ && _); [auto |]. destruct (_ && _); [auto | congruence]. }
    destruct Hcmp as [-> | ->]; cbn [Z.eqb Pos.eqb nodeToArray].
    + apply in_or_app. left. auto.
    + apply in_or_app. right. right. auto.
Qed.

Lemma addToNode_keeps_comparable_witness :
  forallb (fun x => negb (compareMatches x (blockAt 0 0 2) =? 0))
    (nodeToArray (node (blockAt 3 3 2) null null)) = true /\
  In (blockAt 0 0 2) (nodeToArray (addToNode (node (blockAt 3 3 2) null null) (blockAt 0 0 2))).
Proof.
  split; [vm_compute; reflexivity |].
  apply (addToNode_keeps_comparable (node (blockAt 3 3 2) null null) (blockAt 0 0 2)).
  vm_compute. reflexivity.
Defined.

Lemma sorted_bst (n : TreeNode) :
  StronglySorted precedes (nodeToArray n) -> bst n.
Proof.
  induction n as [| value l IHl r IHr]; cbn [nodeToArray bst]; [auto |].
  intros H. apply StronglySorted_app in H as (Hcross & Hl & Hvr).
  cbn [app] in Hvr. inversion Hvr as [| ? ? Hr Hv]; subst.
  repeat split; auto.
  apply List.Forall_forall. intros x Hx. apply Hcross.
  - now apply list_elem_of_In.
  - apply list_elem_of_In. now left.
Qed.

(** X12, the collection stays ordered.  When the in-order list of the
    tree is strictly increasing on both sides, it still is after
    [addToNode]; the new list is the old one, or the old one with the new
    match put in at one place: no earlier match is lost or moved. *)
Theorem addToNode_keeps_order (n : TreeNode) (m : Match.t)
        (lenBefore lenAfter : Z) :
  StronglySorted precedes (nodeToArray n) ->
  Forall (wfMatch lenBefore lenAfter) (nodeToArray n) ->
  wfMatch lenBefore lenAfter m ->
  StronglySorted precedes (nodeToArray (addToNode n m)) /\
  (nodeToArray (addToNode n m) = nodeToArray n \/
   exists earlier later,
     nodeToArray n = earlier ++ later /\
     nodeToArray (addToNode n m) = earlier ++ m :: later).
Proof.
  intros Hsorted Hwf Hm. split; [| apply addToNode_inserts].
  apply (bst_sorted lenBefore lenAfter).
  - apply bst_addToNode. now apply sorted_bst.
  - now apply Forall_addToNode.
Qed.

Lemma addToNode_keeps_order_witness :
  StronglySorted precedes (nodeToArray (node (blockAt 3 3 2) null null)) /\
  Forall (wfMatch 5 5) (nodeToArray (node (blockAt 3 3 2) null null)) /\
  wfMatch 5 5 (blockAt 0 0 2) /\
  StronglySorted precedes
    (nodeToArray (addToNode (node (blockAt 3 3 2) null null) (blockAt 0 0 2))) /\
  (nodeToArray (addToNode (node (blockAt 3 3 2) null null) (blockAt 0 0 2)) =
   nodeToArray (node (blockAt 3 3 2) null null) \/
   exists earlier later,
     nodeToArray (node (blockAt 3 3 2) null null) = earlier ++ later /\
     nodeToArray (addToNode (node (blockAt 3 3 2) null null) (blockAt 0 0 2)) =
     earlier ++ blockAt 0 0 2 :: later).
Proof.
  assert (forall a, 0 <= a <= 3 -> wfMatch 5 5 (blockAt a a 2)) as Hwf
    by (intros a Ha; unfold wfMatch; cbn; lia).
  assert (StronglySorted precedes (nodeToArray (node (blockAt 3 3 2) null null))) as Hs
    by (cbn; repeat constructor).
  assert (Forall (wfMatch 5 5) (nodeToArray (node (blockAt 3 3 2) null null))) as Hf
    by (cbn; repeat constructor; apply Hwf; lia).
  split; [exact Hs |]. split; [exact Hf |]. split; [apply Hwf; lia |].
  apply (addToNode_keeps_order (node (blockAt 3 3 2) null null) (blockAt 0 0 2) 5 5);
    [exact Hs | exact Hf | apply Hwf; lia].
Defined.

(** ** All matching blocks *)

(** X14, the matching blocks.  For two token lists whose keys name no
    inherited property, [createSegment] and [findMatchingBlocks] return; the
    matches come out strictly increasing on both sides (each ends before the
    next starts), and each is a non-empty run inside both lists whose ends
    are its starts plus its length minus one. *)
Theorem findMatchingBlocks_sorted_in_bounds (before after : list Token) :
  safeKeysb before = true -> safeKeysb after = true ->
  exists seg matches,
    createSegment before after 0 0 = Ok seg /\
    findMatchingBlocks seg = Ok matches /\
    StronglySorted precedes matches /\
    Forall (wfMatch (arrayLength before) (arrayLength after)) matches.
Proof.
  intros Hb Ha. apply safeKeysb_spec in Hb, Ha.
  destruct (createSegment_ok before after 0 0 Hb Ha)
    as (seg & Hseg & Eb & Ea & Ebi & Eai & Hmap).
  destruct (findMatchingBlocks_ok before after seg Hb Ha Eb Ea Ebi Eai Hmap)
    as (matches & Hfound & Hsorted & Hwf).
  exists seg, matches. auto.
Qed.

Lemma findMatchingBlocks_sorted_in_bounds_witness :
  safeKeysb workingOnIt = true /\ safeKeysb workingInIt = true /\
  exists seg matches,
    createSegment workingOnIt workingInIt 0 0 = Ok seg /\
    findMatchingBlocks seg = Ok matches /\
    StronglySorted precedes matches /\
    Forall (wfMatch (arrayLength workingOnIt) (arrayLength workingInIt)) matches.
Proof.
  split; [vm_compute; reflexivity |].
  split; [vm_compute; reflexivity |].
  apply (findMatchingBlocks_sorted_in_bounds workingOnIt workingInIt);
    vm_compute; reflexivity.
Defined.

(** ** Documents with nothing in common *)

Lemma positionsFrom_absent (k : string) (tokens : list Token) :
  existsb (fun u => String.eqb (key u) k) tokens = false ->
  forall index, positionsFrom k tokens index = [].
Proof.
  induction tokens as [| t tokens IH]; cbn [existsb positionsFrom]; [reflexivity |].
  intros H index. apply orb_false_elim in H as [-> H]. now apply IH.
Qed.

Lemma findBestMatch_for_nothing (seg : Segment) (n : nat) :
  (forall t, In t (beforeTokens seg) ->
             key t = " " \/
             (afterMap seg !! key t = None /\ inheritedProperty (key t) = false)) ->
  forall beforeIndex lastSpace,
    findBestMatch_for n seg beforeIndex lastSpace None = Ok None.
Proof.
  intros H. induction n as [| n IH]; intros beforeIndex lastSpace; cbn [findBestMatch_for];
    [reflexivity |].
  destruct (JS.index (beforeTokens seg) beforeIndex) as [token |] eqn:Etok; cbn [option_map].
  - destruct (H token (index_In _ _ _ Etok)) as [-> | [-> ->]].
    + cbn. apply IH.
    + destruct (strictEq _ _); apply IH.
  - cbn [strictEq]. apply IH.
Qed.

Lemma findMatchingBlocks_nothing (seg : Segment) :
  findBestMatch seg = Ok None -> findMatchingBlocks seg = Ok [].
Proof.
  intros H. unfold findMatchingBlocks.
  replace (2 * List.length (beforeTokens seg) + 2)%nat
    with (S (S (2 * List.length (beforeTokens seg)))) by lia.
  cbn [findMatchingBlocks_while]. unfold findMatchingBlocks_body.
  rewrite H. reflexivity.
Qed.

Lemma operationsOfMatches_sentinel (seg : Segment) (lenBefore lenAfter : Z) :
  beforeIndex seg = 0 -> afterIndex seg = 0 ->
  operationsOfMatches [makeMatch lenBefore lenAfter 0 seg] =
  wholeDocumentOperation lenBefore lenAfter.
Proof.
  intros Eb Ea. unfold operationsOfMatches, wholeDocumentOperation.
  cbn [fold_left calculateOperations_each makeMatch Match.startInBefore Match.startInAfter
       Match.length Match.endInBefore Match.endInAfter].
  rewrite Eb, Ea, !Z.add_0_r.
  rewrite (Z.eqb_sym 0 lenBefore), (Z.eqb_sym 0 lenAfter).
  destruct (lenBefore =? 0), (lenAfter =? 0); reflexivity.
Qed.

Lemma postProcess_wholeDocumentOperation (beforeTokens : list Token)
      (lenBefore lenAfter : Z) :
  postProcess beforeTokens (wholeDocumentOperation lenBefore lenAfter) =
  wholeDocumentOperation lenBefore lenAfter.
Proof.
  apply postProcess_id. unfold wholeDocumentOperation.
  destruct (lenBefore =? 0), (lenAfter =? 0); cbn;
    repeat split; intros [_ H]; discriminate.
Qed.

Lemma calculateOperations_disjoint (before after : list Token) :
  safeKeysb before = true -> safeKeysb after = true ->
  forallb (spaceOrAbsent after) before = true ->
  calculateOperations (Some before) (Some after) =
  Ok (wholeDocumentOperation (arrayLength before) (arrayLength after)).
Proof.
  intros Hb Ha Hnone. pose proof Hb as Hsafe. apply safeKeysb_spec in Hb, Ha.
  unfold calculateOperations.
  destruct (createSegment_ok before after 0 0 Hb Ha)
    as (seg & Hseg & Eb & Ea & Ebi & Eai & _).
  rewrite Hseg. cbn [bindR].
  assert (findBestMatch seg = Ok None) as Hbest.
  { apply findBestMatch_for_nothing. rewrite Eb. intros t Ht.
    rewrite forallb_forall in Hnone. specialize (Hnone t Ht).
    unfold spaceOrAbsent in Hnone. apply orb_prop in Hnone as [Hsp | Habs].
    - left. now apply String.eqb_eq.
    - right. split.
      + unfold createSegment in Hseg.
        destruct (createMap before) as [mb | |]; try discriminate. cbn [bindR] in Hseg.
        destruct (createMap after) as [ma | |] eqn:Hma; try discriminate.
        cbn [bindR] in Hseg. injection Hseg as <-. cbn [afterMap].
        rewrite (createMap_lookup_ok _ _ (key t) Hma). unfold locationsOf.
        rewrite positionsFrom_absent; [reflexivity |]. now apply negb_true_iff.
      + unfold safeKeys in Hb. rewrite List.Forall_forall in Hb. now apply Hb. }
  rewrite (findMatchingBlocks_nothing seg Hbest). cbn [bindR app].
  rewrite (operationsOfMatches_sentinel seg _ _ Ebi Eai).
  now rewrite postProcess_wholeDocumentOperation.
Qed.

(** X15, documents with nothing in common.  When every before token has
    the single-space key or a key that no after token has (in particular
    when either list is empty), nothing matches.  If no key of either list
    names an inherited property, [calculateOperations] returns one operation
    that covers both lists whole, a replace, or an insert or a delete when
    one list is empty, and no operation for two empty lists; if a key does,
    it throws the error of [createMap]. *)
Theorem calculateOperations_nothing_in_common (before after : list Token) :
  forallb (spaceOrAbsent after) before = true ->
  calculateOperations (Some before) (Some after) =
  if safeKeysb before && safeKeysb after
  then Ok (wholeDocumentOperation (arrayLength before) (arrayLength after))
  else Throw (TypeError "map[token.key]?.push is not a function").
Proof.
  intros Hnone. destruct (safeKeysb before && safeKeysb after) eqn:E.
  - apply andb_prop in E as [Hb Ha]. now apply calculateOperations_disjoint.
  - unfold calculateOperations. rewrite createSegment_unsafe; [reflexivity |].
    intros [Hb Ha]. apply safeKeysb_spec in Hb, Ha. rewrite Hb, Ha in E. discriminate.
Qed.

Lemma calculateOperations_nothing_in_common_witness :
  forallb (spaceOrAbsent [createToken "c" 0; createToken " " 1])
    [createToken "a" 0; createToken " " 1; createToken "b" 1] = true /\
  calculateOperations (Some [createToken "a" 0; createToken " " 1; createToken "b" 1])
    (Some [createToken "c" 0; createToken " " 1]) =
  if safeKeysb [createToken "a" 0; createToken " " 1; createToken "b" 1] &&
     safeKeysb [createToken "c" 0; createToken " " 1]
  then Ok (wholeDocumentOperation
             (arrayLength [createToken "a" 0; createToken " " 1; createToken "b" 1])
             (arrayLength [createToken "c" 0; createToken " " 1]))
  else Throw (TypeError "map[token.key]?.push is not a function").
Proof.
  split; [vm_compute; reflexivity |].
  apply (calculateOperations_nothing_in_common
           [createToken "a" 0; createToken " " 1; createToken "b" 1]
           [createToken "c" 0; createToken " " 1]); vm_compute; reflexivity.
Defined.

(** With an empty before list and the one token [constructor] after it,
    nothing can match, and [createMap] throws. *)
Example nothing_in_common_with_an_inherited_key :
  forallb (spaceOrAbsent [createToken "constructor" 0]) [] = true /\
  calculateOperations (Some []) (Some [createToken "constructor" 0]) =
  Throw (TypeError "map[token.key]?.push is not a function").
Proof. split; vm_compute; reflexivity. Qed.

(** ** The post-processing pass *)

Lemma postProcess_fold_drop (beforeTokens : list Token) (ops : list Operation.t) :
  forall acc last,
    fst (fold_left (postProcess_each beforeTokens) ops (acc, last)) =
    acc ++ dropRepeatedReplace last ops.
Proof.
  induction ops as [| op ops IH]; intros acc last; cbn [fold_left dropRepeatedReplace].
  - now rewrite app_nil_r.
  - unfold postProcess_each at 2. rewrite isSingleWhitespace_false. cbn [andb orb].
    destruct (Action.eqb (Operation.action op) Action.replace &&
              Action.eqb last Action.replace).
    + apply IH.
    + rewrite IH, <- app_assoc. reflexivity.
Qed.

Lemma dropRepeatedReplace_fixed (ops : list Operation.t) :
  forall last,
    dropRepeatedReplace last (dropRepeatedReplace last ops) = dropRepeatedReplace last ops.
Proof.
  induction ops as [| op ops IH]; intros last; cbn [dropRepeatedReplace]; [reflexivity |].
  destruct (Action.eqb (Operation.action op) Action.replace &&
            Action.eqb last Action.replace) eqn:E.
  - apply IH.
  - cbn [dropRepeatedReplace]. rewrite E, IH. reflexivity.
Qed.

(** X17, the post-processing pass.  The pass over the operations leaves
    out exactly the replace operations that follow a kept replace, keeps
    every other operation in order, and changes nothing when it is run on
    its own result. *)
Theorem postProcess_drops_repeated_replaces (beforeTokens : list Token)
        (ops : list Operation.t) :
  postProcess beforeTokens ops = dropRepeatedReplace Action.none ops /\
  postProcess beforeTokens (postProcess beforeTokens ops) = postProcess beforeTokens ops.
Proof.
  assert (forall l, postProcess beforeTokens l = dropRepeatedReplace Action.none l) as H.
  { intros l. unfold postProcess. now rewrite postProcess_fold_drop. }
  split; [apply H |]. rewrite !H. apply dropRepeatedReplace_fixed.
Qed.

(** X18, the single-whitespace test.  [isSingleWhitespace] is false for
    every operation and every token list: the text it tests is the default
    rendering of an array of token objects, never one white-space
    character. *)
Theorem isSingleWhitespace_never_holds (beforeTokens : list Token) (op : Operation.t) :
  isSingleWhitespace beforeTokens op = false.
Proof. apply isSingleWhitespace_false. Qed.

(** ** The operations of a walk *)

Lemma calculateOperations_walk (before after : list Token) :
  safeKeys before -> safeKeys after ->
  exists seg matches,
    createSegment before after 0 0 = Ok seg /\
    findMatchingBlocks seg = Ok matches /\
    StronglySorted precedes matches /\
    Forall (wfMatch (arrayLength before) (arrayLength after)) matches /\
    calculateOperations (Some before) (Some after) =
    Ok (walkOperations 0 0
          (matches ++ [makeMatch (arrayLength before) (arrayLength after) 0 seg])).
Proof.
  intros Hb Ha.
  destruct (createSegment_ok before after 0 0 Hb Ha)
    as (seg & Hseg & Eb & Ea & Ebi & Eai & Hmap).
  destruct (findMatchingBlocks_ok before after seg Hb Ha Eb Ea Ebi Eai Hmap)
    as (matches & Hfound & Hsorted & Hwf).
  exists seg, matches. repeat split; try assumption.
  unfold calculateOperations. rewrite Hseg. cbn [bindR]. rewrite Hfound. cbn [bindR].
  rewrite operationsOfMatches_walk.
  destruct (walkOperations_spec (arrayLength before) (arrayLength after)
              (makeMatch (arrayLength before) (arrayLength after) 0 seg))
    with (matches := matches) (pB := 0) (pA := 0) (a := Action.none)
    as (_ & _ & _ & T4);
    try (cbn; rewrite ?Ebi, ?Eai; lia); try assumption; try discriminate.
  - eapply Forall_impl; [exact Hwf |]. intros m (W1 & W2 & _). cbn. lia.
  - apply arrayLength_nonneg.
  - apply arrayLength_nonneg.
  - now rewrite postProcess_id.
Qed.

Lemma changesSeparated_app (o1 o2 : list Operation.t) :
  forall a,
    changesSeparated a o1 = true ->
    changesSeparated
      (negb (Action.eqb (lastAction (if a then Action.replace else Action.equal) o1)
               Action.equal)) o2 = true ->
    changesSeparated a (o1 ++ o2) = true.
Proof.
  induction o1 as [| op o1 IH]; intros a; cbn [changesSeparated app].
  - intros _. unfold lastAction. cbn [fold_left]. now destruct a.
  - intros H1 H2. apply andb_prop in H1 as [H0 H1]. rewrite H0. cbn [andb].
    apply IH; [exact H1 |].
    unfold lastAction in *. cbn [fold_left] in H2.
    destruct o1 as [| o o1].
    + cbn [fold_left] in *. now destruct (Operation.action op).
    + cbn [fold_left] in *. exact H2.
Qed.

Lemma gapAndEqual_changes (pB pA : Z) (m : Match.t) :
  changesSeparated false (gapAndEqual pB pA m) = true /\
  (1 <= Match.length m ->
   lastAction Action.equal (gapAndEqual pB pA m) = Action.equal).
Proof.
  unfold gapAndEqual, calculateOperations_each, lastAction.
  destruct (pB =? Match.startInBefore m), (pA =? Match.startInAfter m);
    destruct (Z.eqb_spec (Match.length m) 0);
    cbn; split; try reflexivity; intros; try reflexivity; lia.
Qed.

Lemma walkOperations_changes (sentinel : Match.t) (matches : list Match.t) :
  Forall (fun m => 1 <= Match.length m) matches ->
  forall pB pA,
    changesSeparated false (walkOperations pB pA (matches ++ [sentinel])) = true.
Proof.
  intros H. induction H as [| m matches Hm _ IH]; intros pB pA; cbn [app walkOperations].
  - rewrite app_nil_r. apply gapAndEqual_changes.
  - destruct (gapAndEqual_changes pB pA m) as [H1 H2].
    apply changesSeparated_app; [exact H1 |].
    cbn [negb]. rewrite (H2 Hm). cbn. apply IH.
Qed.

(** X16, changes are separated.  In what [calculateOperations] returns,
    no two consecutive operations are both changes: an insert, delete or
    replace is always directly followed by an equal operation or is the last
    operation. *)
Theorem calculateOperations_separates_changes (before after : list Token)
        (ops : list Operation.t) :
  calculateOperations (Some before) (Some after) = Ok ops ->
  changesSeparated false ops = true.
Proof.
  intros H. destruct (calculateOperations_safe _ _ _ H) as [Hb Ha].
  destruct (calculateOperations_walk before after Hb Ha)
    as (seg & matches & _ & _ & _ & Hwf & Hops).
  rewrite H in Hops. injection Hops as ->.
  apply walkOperations_changes.
  eapply Forall_impl; [exact Hwf |]. intros m (_ & _ & Hlen & _). exact Hlen.
Qed.

Lemma calculateOperations_separates_changes_witness :
  calculateOperations (Some workingOnIt) (Some workingInIt) = Ok workingOps /\
  changesSeparated false workingOps = true.
Proof.
  split; [vm_compute; reflexivity |].
  apply (calculateOperations_separates_changes workingOnIt workingInIt workingOps).
  vm_compute. reflexivity.
Defined.

(** X19, completions of [calculateOperations].  A missing first argument
    gives the error [Missing beforeTokens], a missing second one
    [Missing afterTokens]; on two token lists the function returns when no
    key names an inherited property and throws the error of [createMap]
    otherwise. *)
Theorem calculateOperations_error_behaviour (before after : option (list Token)) :
  match before, after with
  | None, _ => calculateOperations before after = Throw (Error "Missing beforeTokens")
  | Some _, None => calculateOperations before after = Throw (Error "Missing afterTokens")
  | Some b, Some a =>
      if safeKeysb b && safeKeysb a
      then exists ops, calculateOperations before after = Ok ops
      else calculateOperations before after =
           Throw (TypeError "map[token.key]?.push is not a function")
  end.
Proof. apply calculateOperations_completion. Qed.

(** ** What the tokenizer produces *)

Lemma truthy_append_char (s : string) (c : ascii) :
  JS.truthy (s +:+ charString c) = true.
Proof. destruct s; reflexivity. Qed.

Lemma nonempty_pushWord (st : Scanner) :
  Forall (fun t => str t <> EmptyString) (words st) ->
  Forall (fun t => str t <> EmptyString) (pushWord st).
Proof.
  intros H. unfold pushWord. destruct (currentWord st) eqn:E; cbn [JS.truthy]; [exact H |].
  apply Forall_app. split; [exact H |]. constructor; [| constructor].
  cbn. discriminate.
Qed.

Lemma nonempty_snoc (tokens : list Token) (s : string) (c : ascii) (p : Z) :
  Forall (fun t => str t <> EmptyString) tokens ->
  Forall (fun t => str t <> EmptyString) (tokens ++ [createToken (s +:+ charString c) p]).
Proof.
  intros H. apply Forall_app. split; [exact H |]. constructor; [| constructor].
  cbn [createToken str]. destruct s; discriminate.
Qed.

Lemma scanChar_nonempty (st st' : Scanner) (c : ascii) :
  Forall (fun t => str t <> EmptyString) (words st) ->
  scanChar st c = Ok st' ->
  Forall (fun t => str t <> EmptyString) (words st').
Proof.
  intros H. unfold scanChar.
  case_ifs; intros [= <-]; cbn [words];
    first [ exact H
          | apply nonempty_pushWord; exact H
          | apply (nonempty_snoc _ _ ">"%char); exact H
          | apply (nonempty_snoc _ _ c); exact H
          | apply (nonempty_snoc _ EmptyString c); apply nonempty_pushWord; exact H ].
Qed.

Lemma scanLoop_nonempty (unicodeChars : list ascii) (fuel : nat) :
  forall st st',
    Forall (fun t => str t <> EmptyString) (words st) ->
    scanLoop fuel unicodeChars st = Ok st' ->
    Forall (fun t => str t <> EmptyString) (words st').
Proof.
  induction fuel as [| fuel IH]; intros st st' H; cbn [scanLoop]; [discriminate |].
  destruct (charIdx st <? _); [| now intros [= <-]].
  destruct (JS.index unicodeChars (charIdx st)) as [c |]; [| discriminate].
  destruct (scanChar st c) as [st1 | |] eqn:Hstep; try discriminate.
  cbn [bindR]. apply IH. cbn [words]. eapply scanChar_nonempty; eauto.
Qed.

(** X1, no empty token.  For every input [htmlToTokens] returns tokens
    none of which has an empty text. *)
Theorem htmlToTokens_no_empty_token (html : string) :
  exists tokens,
    htmlToTokens html = Ok tokens /\
    Forall (fun t => str t <> EmptyString) tokens.
Proof.
  destruct (htmlToTokens_returns html) as [tokens Htok].
  exists tokens. split; [exact Htok |].
  unfold htmlToTokens in Htok.
  destruct (scanLoop _ _ _) as [st | |] eqn:Hloop; try discriminate.
  cbn [bindR] in Htok. injection Htok as <-.
  apply nonempty_pushWord. eapply scanLoop_nonempty; [| exact Hloop]. constructor.
Qed.

(** *** The token texts are the input with characters left out *)

Lemma firstn_succ_sublist {A : Type} (l : list A) (n : nat) :
  sublist (firstn n l) (firstn (S n) l).
Proof.
  revert n. induction l as [| x l IH]; intros [| n]; cbn [firstn].
  - constructor.
  - constructor.
  - apply sublist_nil_l.
  - apply sublist_skip, IH.
Qed.

Lemma scanChar_within (unicodeChars : list ascii) (st st' : Scanner) (c : ascii) :
  JS.index unicodeChars (charIdx st) = Some c ->
  sublist (list_ascii_of_string (text (words st) +:+ currentWord st))
          (firstn (Z.to_nat (charIdx st)) unicodeChars) ->
  scanChar st c = Ok st' ->
  sublist (list_ascii_of_string (text (words st') +:+ currentWord st'))
          (firstn (Z.to_nat (charIdx st' + 1)) unicodeChars).
Proof.
  intros Hc Hin. pose proof (index_nth_error _ _ _ Hc) as [Hi Hnth].
  assert (firstn (Z.to_nat (charIdx st + 1)) unicodeChars =
          firstn (Z.to_nat (charIdx st)) unicodeChars ++ [c]) as Hnext.
  { replace (Z.to_nat (charIdx st + 1)) with (S (Z.to_nat (charIdx st))) by lia.
    now apply firstn_succ_nth. }
  assert (forall t,
            t = (text (words st) +:+ currentWord st) +:+ charString c ->
            sublist (list_ascii_of_string t)
                    (firstn (Z.to_nat (charIdx st + 1)) unicodeChars)) as Hadd.
  { intros t ->. rewrite Hnext, list_ascii_of_string_app. now apply sublist_app. }
  assert (sublist (list_ascii_of_string (text (words st)))
                  (firstn (Z.to_nat (charIdx st + 1)) unicodeChars)) as Hdrop.
  { rewrite Hnext. apply sublist_inserts_r.
    etransitivity; [| exact Hin].
    rewrite list_ascii_of_string_app. apply sublist_inserts_r. reflexivity. }
  unfold scanChar.
  case_ifs; intros [= <-]; cbn [words currentWord charIdx];
    repeat match goal with
      | H : isEndOfTag _ = true |- _ => apply charString_eqb in H
      | H : isStartOfTag _ = true |- _ => apply charString_eqb in H
      | H : String.eqb (charString _) _ = true |- _ => apply charString_eqb in H
      | H : (_ && _)%bool = true |- _ => apply andb_prop in H as [? ?]
      end;
    first
      [ (* the comment is closed: its characters are left out *)
        rewrite append_nil_r; exact Hdrop
      | (* the index stepped back *)
        replace (charIdx st - 1 + 1) with (charIdx st) by lia;
        rewrite text_pushWord, append_nil_r; exact Hin
      | apply Hadd;
        rewrite ?text_snoc, ?text_pushWord; cbn [createToken str];
        rewrite ?append_nil_r, ?append_assoc;
        repeat match goal with H : _ = charString c |- _ => rewrite H end;
        reflexivity ].
Qed.

Lemma scanLoop_within (unicodeChars : list ascii) (fuel : nat) :
  forall st st',
    sublist (list_ascii_of_string (text (words st) +:+ currentWord st))
            (firstn (Z.to_nat (charIdx st)) unicodeChars) ->
    scanLoop fuel unicodeChars st = Ok st' ->
    sublist (list_ascii_of_string (text (words st') +:+ currentWord st')) unicodeChars.
Proof.
  induction fuel as [| fuel IH]; intros st st' Hin; cbn [scanLoop]; [discriminate |].
  destruct (charIdx st <? Z.of_nat (List.length unicodeChars)) eqn:Elt.
  - destruct (JS.index unicodeChars (charIdx st)) as [c |] eqn:Hc; [| discriminate].
    destruct (scanChar st c) as [st1 | |] eqn:Hstep; try discriminate.
    cbn [bindR]. apply IH. cbn [words currentWord charIdx].
    eapply scanChar_within; eauto.
  - intros [= <-]. apply Z.ltb_ge in Elt.
    rewrite firstn_all2 in Hin by lia. exact Hin.
Qed.

(** X2, the tokenizer only leaves characters out.  For every input the
    concatenated texts of the tokens are the input with some characters left
    out: nothing is added, changed or reordered. *)
Theorem htmlToTokens_only_leaves_out (html : string) :
  exists tokens,
    htmlToTokens html = Ok tokens /\
    sublist (list_ascii_of_string (text tokens)) (list_ascii_of_string html).
Proof.
  destruct (htmlToTokens_returns html) as [tokens Htok].
  exists tokens. split; [exact Htok |].
  unfold htmlToTokens in Htok.
  destruct (scanLoop _ _ _) as [st | |] eqn:Hloop; try discriminate.
  cbn [bindR] in Htok. injection Htok as <-.
  rewrite text_pushWord.
  eapply scanLoop_within; [| exact Hloop]. cbn. constructor.
Qed.

(** *** A word is one token *)

Lemma letter_not_special (c : ascii) :
  test unicodeLetterExpr (charString c) = true ->
  isStartOfTag (charString c) = false /\ test space (charString c) = false.
Proof.
  destruct c as [[] [] [] [] [] [] [] []]; vm_compute;
    first [discriminate | intros _; split; reflexivity].
Qed.

Lemma string_of_list_ascii_snoc (l : list ascii) (c : ascii) :
  string_of_list_ascii (l ++ [c]) = string_of_list_ascii l +:+ charString c.
Proof. induction l as [| x l IH]; cbn; [reflexivity | now rewrite IH]. Qed.

Lemma scanLoop_word (rest : list ascii) :
  forall pre fuel,
    forallb (fun c => test unicodeLetterExpr (charString c)) rest = true ->
    (List.length rest < fuel)%nat ->
    scanLoop fuel (pre ++ rest)
      {| mode := "char"; currentWord := string_of_list_ascii pre; currentWordPos := 0;
         currentAtomicTag := EmptyString; words := [];
         charIdx := Z.of_nat (List.length pre) |} =
    Ok {| mode := "char"; currentWord := string_of_list_ascii (pre ++ rest);
          currentWordPos := 0; currentAtomicTag := EmptyString; words := [];
          charIdx := Z.of_nat (List.length (pre ++ rest)) |}.
Proof.
  induction rest as [| c rest IH]; intros pre fuel Hword Hfuel;
    (destruct fuel as [| fuel]; [lia |]); cbn [scanLoop charIdx].
  - rewrite app_nil_r, Z.ltb_irrefl. reflexivity.
  - cbn [forallb] in Hword. apply andb_prop in Hword as [Hc Hrest].
    destruct (letter_not_special c Hc) as [Htag Hspace].
    assert ((Z.of_nat (List.length pre) <? Z.of_nat (List.length (pre ++ c :: rest))) = true)
      as -> by (apply Z.ltb_lt; rewrite length_app; cbn; lia).
    rewrite index_middle.
    unfold scanChar. cbn [mode String.eqb Ascii.eqb Bool.eqb currentWord charIdx
                          currentWordPos currentAtomicTag words].
    rewrite Htag, Hspace, Hc. cbn [bindR mode currentWord currentWordPos
                                   currentAtomicTag words charIdx].
    specialize (IH (pre ++ [c]) fuel Hrest).
    rewrite <- app_assoc in IH. cbn [app] in IH.
    rewrite string_of_list_ascii_snoc, length_app in IH. cbn [List.length] in IH.
    rewrite Nat2Z.inj_add in IH. apply IH. cbn in Hfuel. lia.
Qed.

Lemma htmlToTokens_word (word : string) :
  isWord word = true -> JS.truthy word = true ->
  htmlToTokens word = Ok [createToken word 0].
Proof.
  intros Hword Hne. unfold htmlToTokens.
  pose proof (scanLoop_word (list_ascii_of_string word) []
                (2 * List.length (list_ascii_of_string word) + 1) Hword) as Hloop.
  cbn [app List.length string_of_list_ascii] in Hloop.
  change (Z.of_nat 0) with 0 in Hloop.
  rewrite Hloop by lia.
  cbn [bindR app]. unfold pushWord. cbn [currentWord words currentWordPos].
  rewrite string_of_list_ascii_of_string, Hne. reflexivity.
Qed.

(** *** A run of white space is one token *)

Lemma space_char_tests (c : ascii) :
  JS.isSpaceChar c = true ->
  isStartOfTag (charString c) = false /\ test space (charString c) = true /\
  isWhitespace (charString c) = true.
Proof.
  destruct c as [[] [] [] [] [] [] [] []]; vm_compute;
    first [discriminate | intros _; repeat split; reflexivity].
Qed.

Lemma scanLoop_blank (rest : list ascii) :
  forall pre fuel,
    forallb JS.isSpaceChar rest = true ->
    (List.length rest < fuel)%nat ->
    scanLoop fuel (pre ++ rest)
      {| mode := "whitespace"; currentWord := string_of_list_ascii pre; currentWordPos := 0;
         currentAtomicTag := EmptyString; words := [];
         charIdx := Z.of_nat (List.length pre) |} =
    Ok {| mode := "whitespace"; currentWord := string_of_list_ascii (pre ++ rest);
          currentWordPos := 0; currentAtomicTag := EmptyString; words := [];
          charIdx := Z.of_nat (List.length (pre ++ rest)) |}.
Proof.
  induction rest as [| c rest IH]; intros pre fuel Hblank Hfuel;
    (destruct fuel as [| fuel]; [lia |]); cbn [scanLoop charIdx].
  - rewrite app_nil_r, Z.ltb_irrefl. reflexivity.
  - cbn [forallb] in Hblank. apply andb_prop in Hblank as [Hc Hrest].
    destruct (space_char_tests c Hc) as (Htag & _ & Hspace).
    assert ((Z.of_nat (List.length pre) <? Z.of_nat (List.length (pre ++ c :: rest))) = true)
      as -> by (apply Z.ltb_lt; rewrite length_app; cbn; lia).
    rewrite index_middle.
    unfold scanChar. cbn [mode String.eqb Ascii.eqb Bool.eqb currentWord charIdx
                          currentWordPos currentAtomicTag words].
    rewrite Htag, Hspace. cbn [bindR mode currentWord currentWordPos
                               currentAtomicTag words charIdx].
    specialize (IH (pre ++ [c]) fuel Hrest).
    rewrite <- app_assoc in IH. cbn [app] in IH.
    rewrite string_of_list_ascii_snoc, length_app in IH. cbn [List.length] in IH.
    rewrite Nat2Z.inj_add in IH. apply IH. cbn in Hfuel. lia.
Qed.

Lemma htmlToTokens_blank_run (run : string) :
  isBlankRun run = true -> htmlToTokens run = Ok [createToken run 0].
Proof.
  unfold isBlankRun. intros H. apply andb_prop in H as [Hne Hblank].
  destruct run as [| c rest]; [discriminate |].
  cbn [list_ascii_of_string forallb] in Hblank. apply andb_prop in Hblank as [Hc Hrest].
  destruct (space_char_tests c Hc) as (Htag & Hspace & _).
  unfold htmlToTokens. cbn [list_ascii_of_string List.length].
  remember (S (2 * List.length (list_ascii_of_string rest) + 1)) as fuel eqn:Efuel.
  replace (2 * S (List.length (list_ascii_of_string rest)) + 1)%nat with (S fuel) by lia.
  cbn [scanLoop charIdx List.length].
  assert ((0 <? Z.of_nat (S (List.length (list_ascii_of_string rest)))) = true) as ->
    by (apply Z.ltb_lt; lia).
  change (JS.index (c :: list_ascii_of_string rest) 0) with (Some c).
  unfold scanChar at 1. cbn [mode String.eqb Ascii.eqb Bool.eqb currentWord charIdx
                             currentWordPos currentAtomicTag words].
  rewrite Htag, Hspace. cbn [bindR mode currentWord currentWordPos
                             currentAtomicTag words charIdx pushWord JS.truthy].
  pose proof (scanLoop_blank (list_ascii_of_string rest) [c] fuel Hrest) as Hloop.
  cbn [app List.length string_of_list_ascii] in Hloop.
  change (Z.of_nat 1) with 1 in Hloop. change (0 + 1) with 1.
  unfold charString. rewrite Hloop by lia.
  cbn [bindR]. unfold pushWord. cbn [currentWord words currentWordPos JS.truthy].
  rewrite string_of_list_ascii_of_string. reflexivity.
Qed.

(** ** Regular expressions on text without tags *)

(** A star over a character class, followed by something that fails on
    every text of a kind that is closed under taking the tail, fails. *)
Lemma rmatch_Star_Cls_None (input : string) (p : ascii -> bool) (Q : string -> Prop)
      (k : nat -> string -> option string -> option outcome) :
  (forall c r, Q (String c r) -> Q r) ->
  (forall pos r cap, Q r -> k pos r cap = None) ->
  forall rest pos cap, Q rest -> rmatch input (Star (Cls p)) pos rest cap k = None.
Proof.
  intros Htail Hk rest pos cap HQ.
  assert (forall fuel rest pos cap,
            Q rest ->
            (fix star (fuel : nat) (pos : nat) (rest : string) (cap : option string)
               {struct fuel} : option outcome :=
               match fuel with
               | O => k pos rest cap
               | S fuel' =>
                   match rmatch input (Cls p) pos rest cap
                           (fun pos' rest' cap' =>
                              if (pos <? pos')%nat then star fuel' pos' rest' cap'
                              else None) with
                   | Some o => Some o
                   | None => k pos rest cap
                   end
               end) fuel pos rest cap = None) as Hstar.
  { clear rest pos cap HQ.
    induction fuel as [| fuel IH]; intros rest pos cap HQ; [now apply Hk |].
    destruct rest as [| c rest]; [now apply Hk |].
    pose proof (IH rest (S pos) cap (Htail _ _ HQ)) as IH'.
    cbn [rmatch] in IH' |- *.
    destruct (p c); [| now apply Hk].
    destruct (pos <? S pos)%nat; [| now apply Hk].
    rewrite IH'. now apply Hk. }
  exact (Hstar (S (String.length rest)) rest pos cap HQ).
Qed.

Lemma plainText_tail (c : ascii) (r : string) :
  plainText (String c r) = true -> plainText r = true.
Proof. unfold plainText. cbn. intros H. now apply andb_prop in H as [_ H]. Qed.

Lemma rmatch_lt_plain (input : string) (r : regex) (pos : nat) (rest : string)
      (cap : option string) (k : nat -> string -> option string -> option outcome) :
  plainText rest = true -> rmatch input (Cat (Chr "<") r) pos rest cap k = None.
Proof.
  destruct rest as [| c rest]; [reflexivity |].
  unfold plainText. cbn -[Ascii.eqb]. intros H. apply andb_prop in H as [H _].
  apply negb_true_iff in H. now rewrite H.
Qed.

Lemma execFrom_lt_plain (input : string) (r : regex) (rest : string) :
  forall pos, plainText rest = true -> execFrom input (Cat (Chr "<") r) pos rest = None.
Proof.
  induction rest as [| c rest IH]; intros pos H; cbn [execFrom];
    rewrite rmatch_lt_plain by assumption; [reflexivity |].
  apply IH. eapply plainText_tail; eauto.
Qed.

Lemma exec_Bol_lt_plain (r : regex) (s : string) :
  plainText s = true -> exec (Cat Bol (Cat (Chr "<") r)) s = None.
Proof.
  intros H. unfold exec.
  assert (rmatch s (Cat Bol (Cat (Chr "<") r)) 0 s None (fun e _ c => Some (e, c)) = None)
    as Hhere by exact (rmatch_lt_plain s r 0 s None _ H).
  destruct s as [| c s]; cbn [execFrom]; rewrite Hhere; [reflexivity |].
  apply execFrom_Bol_later.
Qed.

Lemma exec_Bol_spaces_lt_plain (r : regex) (s : string) :
  plainText s = true -> exec (Cat Bol (Cat (Star space) (Cat (Chr "<") r))) s = None.
Proof.
  intros H. unfold exec.
  assert (rmatch s (Cat Bol (Cat (Star space) (Cat (Chr "<") r))) 0 s None
            (fun e _ c => Some (e, c)) = None) as Hhere.
  { refine (rmatch_Star_Cls_None s JS.isSpaceChar (fun t => plainText t = true)
              (fun pos' rest' cap' =>
                 rmatch s (Cat (Chr "<") r) pos' rest' cap' (fun e _ c => Some (e, c)))
              plainText_tail _ s 0 None H).
    intros pos t cap Ht. now apply rmatch_lt_plain. }
  destruct s as [| c s]; cbn [execFrom]; rewrite Hhere; [reflexivity |].
  apply execFrom_Bol_later.
Qed.

Lemma isTag_plain (s : string) : plainText s = true -> isTag s = None.
Proof.
  intros H. unfold isTag, group1, tagRegExp. cbn [Seq].
  now rewrite exec_Bol_spaces_lt_plain.
Qed.

Lemma isWrappable_plain (s : string) : plainText s = true -> isWrappable s = true.
Proof.
  intros H. unfold isWrappable, isntTag. rewrite (isTag_plain s H). cbn [truthyTag negb].
  now rewrite orb_true_r.
Qed.

(** ** Keys of text tokens *)

Lemma exec_Bol_Lit_lt_plain (l : string) (r : regex) (s : string) :
  plainText s = true -> exec (Cat Bol (Cat (Lit (String "<" l)) r)) s = None.
Proof.
  intros H. unfold exec.
  assert (rmatch s (Cat Bol (Cat (Lit (String "<" l)) r)) 0 s None
            (fun e _ c => Some (e, c)) = None) as Hhere
    by exact (rmatch_lt_plain s (Lit l) 0 s None _ H).
  destruct s as [| c s]; cbn [execFrom]; rewrite Hhere; [reflexivity |].
  apply execFrom_Bol_later.
Qed.

(** On text without [<], the key is the text with its white space and
    non-breaking-space entities collapsed. *)
Lemma getKeyForToken_plain (token : string) :
  plainText token = true ->
  getKeyForToken token =
  if JS.truthy token
  then replaceAll (Grp (Alt (Plus space) (Alt (Lit "&nbsp;") (Lit "&#160;")))) " " token
  else token.
Proof.
  intros H. unfold getKeyForToken, group1, test. cbn [Seq].
  rewrite !exec_Bol_Lit_lt_plain by assumption.
  rewrite exec_Bol_lt_plain by assumption.
  unfold exec at 1. rewrite execFrom_lt_plain by assumption. reflexivity.
Qed.

Lemma letter_is_text (c : ascii) :
  test unicodeLetterExpr (charString c) = true ->
  Ascii.eqb "<" c = false /\ JS.isSpaceChar c = false /\ Ascii.eqb "&" c = false.
Proof.
  destruct c as [[] [] [] [] [] [] [] []]; vm_compute;
    first [discriminate | intros _; repeat split; reflexivity].
Qed.

Lemma isWord_plain (word : string) : isWord word = true -> plainText word = true.
Proof.
  unfold isWord, plainText.
  induction (list_ascii_of_string word) as [| c l IH]; cbn [forallb]; [reflexivity |].
  intros H. apply andb_prop in H as [Hc Hl].
  destruct (letter_is_text c Hc) as (-> & _ & _). cbn. auto.
Qed.

Lemma execFrom_collapse_word (input rest : string) :
  forall pos,
    forallb (fun c => test unicodeLetterExpr (charString c)) (list_ascii_of_string rest) = true ->
    execFrom input (Grp (Alt (Plus space) (Alt (Lit "&nbsp;") (Lit "&#160;")))) pos rest = None.
Proof.
  induction rest as [| c rest IH]; intros pos H; [reflexivity |].
  cbn [list_ascii_of_string forallb] in H. apply andb_prop in H as [Hc Hrest].
  destruct (letter_is_text c Hc) as (_ & Hspace & Hamp).
  cbn [execFrom]. unfold Plus, space, Chr. cbn [rmatch Lit]. unfold Chr. cbn [rmatch].
  rewrite Hspace, Hamp. now apply IH.
Qed.

Lemma getKeyForToken_isWord (word : string) :
  isWord word = true -> getKeyForToken word = word.
Proof.
  intros H. rewrite getKeyForToken_plain by now apply isWord_plain.
  destruct (JS.truthy word); [| reflexivity].
  unfold replaceAll. cbn [replaceAllFrom]. now rewrite execFrom_collapse_word.
Qed.

(** A star over a character class runs to the end of a text made of that
    class, when what follows succeeds there. *)
Lemma rmatch_Star_Cls_all (input : string) (p : ascii -> bool)
      (k : nat -> string -> option string -> option outcome) :
  forall rest pos cap o,
    forallb p (list_ascii_of_string rest) = true ->
    k (pos + String.length rest)%nat EmptyString cap = Some o ->
    rmatch input (Star (Cls p)) pos rest cap k = Some o.
Proof.
  intros rest pos cap o Hall Hend.
  assert (forall fuel rest pos cap,
            (String.length rest < fuel)%nat ->
            forallb p (list_ascii_of_string rest) = true ->
            k (pos + String.length rest)%nat EmptyString cap = Some o ->
            (fix star (fuel : nat) (pos : nat) (rest : string) (cap : option string)
               {struct fuel} : option outcome :=
               match fuel with
               | O => k pos rest cap
               | S fuel' =>
                   match rmatch input (Cls p) pos rest cap
                           (fun pos' rest' cap' =>
                              if (pos <? pos')%nat then star fuel' pos' rest' cap'
                              else None) with
                   | Some o => Some o
                   | None => k pos rest cap
                   end
               end) fuel pos rest cap = Some o) as Hstar.
  { clear rest pos cap Hall Hend.
    induction fuel as [| fuel IH]; intros rest pos cap Hfuel Hall Hend; [lia |].
    destruct rest as [| c rest].
    - cbn [rmatch]. cbn [String.length] in Hend. now rewrite Nat.add_0_r in Hend.
    - cbn [list_ascii_of_string forallb] in Hall. apply andb_prop in Hall as [Hc Hall].
      cbn [String.length] in Hfuel, Hend.
      assert (String.length rest < fuel)%nat as Hfuel' by lia.
      assert (k (S pos + String.length rest)%nat EmptyString cap = Some o) as Hend'
        by (replace (S pos + String.length rest)%nat
              with (pos + S (String.length rest))%nat by lia; exact Hend).
      pose proof (IH rest (S pos) cap Hfuel' Hall Hend') as IH'.
      cbn [rmatch] in IH' |- *. rewrite Hc.
      assert ((pos <? S pos)%nat = true) as -> by (apply Nat.ltb_lt; lia).
      now rewrite IH'. }
  exact (Hstar (S (String.length rest)) rest pos cap (Nat.lt_succ_diag_r _) Hall Hend).
Qed.

Lemma substring_end (s : string) (n : nat) :
  String.substring (String.length s) n s = EmptyString.
Proof. induction s as [| c s IH]; cbn; [now destruct n | exact IH]. Qed.

Lemma getKeyForToken_blank (token : string) :
  isBlankRun token = true -> getKeyForToken token = " ".
Proof.
  unfold isBlankRun. intros H. apply andb_prop in H as [Hne Hall].
  assert (plainText token = true) as Hplain.
  { unfold plainText. clear Hne.
    induction (list_ascii_of_string token) as [| c l IH]; cbn [forallb] in *; [reflexivity |].
    apply andb_prop in Hall as [Hc Hl]. rewrite (IH Hl), andb_true_r.
    destruct (Ascii.eqb_spec "<" c) as [<- | _]; [discriminate | reflexivity]. }
  rewrite getKeyForToken_plain, Hne by assumption.
  destruct token as [| c rest]; [discriminate |].
  cbn [list_ascii_of_string forallb] in Hall. apply andb_prop in Hall as [Hc Hrest].
  unfold replaceAll.
  assert (execFrom (String c rest) (Grp (Alt (Plus space) (Alt (Lit "&nbsp;") (Lit "&#160;"))))
            0 (String c rest) =
          Some (0%nat, S (String.length rest),
                Some (String.substring 0 (S (String.length rest) - 0) (String c rest))))
    as Hexec.
  { cbn [execFrom].
    assert (rmatch (String c rest) (Grp (Alt (Plus space) (Alt (Lit "&nbsp;") (Lit "&#160;"))))
              0 (String c rest) None (fun e _ g => Some (e, g)) =
            Some (S (String.length rest),
                  Some (String.substring 0 (S (String.length rest) - 0) (String c rest))))
      as ->; [| reflexivity].
    pose proof (rmatch_Star_Cls_all (String c rest) JS.isSpaceChar
                  (fun pos' rest' _ =>
                     Some (pos', Some (String.substring 0 (pos' - 0) (String c rest))))
                  rest 1 None _ Hrest eq_refl) as Hstar.
    unfold Plus, space. cbn [rmatch] in Hstar |- *. rewrite Hc, Hstar. reflexivity. }
  generalize (String.length (String c rest)) at 1. intros fuel.
  cbn [replaceAllFrom]. rewrite Hexec.
  assert ((0 <? S (String.length rest))%nat = true) as -> by (apply Nat.ltb_lt; lia).
  replace (S (String.length rest) - 0)%nat with (String.length (String c rest))
    by (cbn; lia).
  rewrite substring_end.
  assert (replaceAllFrom (String c rest)
            (Grp (Alt (Plus space) (Alt (Lit "&nbsp;") (Lit "&#160;")))) " "
            fuel (S (String.length rest)) EmptyString = EmptyString) as ->
    by (destruct fuel; reflexivity).
  reflexivity.
Qed.

(** X3, a word is one token.  A non-empty text of letters and digits is
    tokenized as one token at position 0 whose text and whose key are the
    word itself. *)
Theorem htmlToTokens_word_is_one_token (word : string) :
  isWord word = true -> JS.truthy word = true ->
  htmlToTokens word = Ok [{| str := word; key := word; pos := 0 |}].
Proof.
  intros Hword Hne. rewrite (htmlToTokens_word word Hword Hne).
  unfold createToken. now rewrite (getKeyForToken_isWord word Hword).
Qed.

Lemma htmlToTokens_word_is_one_token_witness :
  isWord "htmldiff2" = true /\ JS.truthy "htmldiff2" = true /\
  htmlToTokens "htmldiff2" = Ok [{| str := "htmldiff2"; key := "htmldiff2"; pos := 0 |}].
Proof.
  split; [vm_compute; reflexivity |].
  split; [reflexivity |].
  apply (htmlToTokens_word_is_one_token "htmldiff2"); vm_compute; reflexivity.
Defined.

(** X4, a run of white space is one token.  A non-empty text made only of
    white space (spaces, tabs, line breaks, non-breaking spaces) is
    tokenized as one token at position 0 with that text, and its key is a
    single space whatever the run is made of. *)
Theorem htmlToTokens_whitespace_is_one_token (run : string) :
  isBlankRun run = true ->
  htmlToTokens run = Ok [{| str := run; key := " "; pos := 0 |}].
Proof.
  intros H. rewrite (htmlToTokens_blank_run run H).
  unfold createToken. now rewrite (getKeyForToken_blank run H).
Qed.

Lemma htmlToTokens_whitespace_is_one_token_witness :
  isBlankRun (String " " (String "009" (String "010" " "))) = true /\
  htmlToTokens (String " " (String "009" (String "010" " "))) =
  Ok [{| str := String " " (String "009" (String "010" " ")); key := " "; pos := 0 |}].
Proof.
  split; [vm_compute; reflexivity |].
  apply (htmlToTokens_whitespace_is_one_token
           (String " " (String "009" (String "010" " ")))).
  vm_compute. reflexivity.
Defined.

(** ** The tests on the pending word *)

Lemma execFrom_comment_end_found (input v : string) :
  forall pos, execFrom input (Seq [Lit "-->"; Eol]) pos (v +:+ "-->") <> None.
Proof.
  induction v as [| a v IH]; intros pos.
  - cbn. discriminate.
  - cbn [String.append execFrom].
    destruct (rmatch input (Seq [Lit "-->"; Eol]) pos (String a (v +:+ "-->")) None
                (fun e _ c => Some (e, c))) as [[e c] |]; [discriminate | apply IH].
Qed.

(** X5, the comment marks.  [isStartOfHTMLComment] holds exactly for the
    words that start with the opening mark of a comment, and
    [isEndOfHTMLComment] exactly for those that end with the closing mark. *)
Theorem comment_marks (word : string) :
  (isStartOfHTMLComment word = true <-> exists u, word = "<!--" +:+ u) /\
  (isEndOfHTMLComment word = true <-> exists v, word = v +:+ "-->").
Proof.
  split; split.
  - apply isStartOfHTMLComment_prefix.
  - intros [u ->]. reflexivity.
  - apply isEndOfHTMLComment_suffix.
  - intros [v ->]. unfold isEndOfHTMLComment, test, exec.
    destruct (execFrom (v +:+ "-->") (Seq [Lit "-->"; Eol]) 0 (v +:+ "-->")) eqn:E;
      [reflexivity |].
    now apply execFrom_comment_end_found in E.
Qed.

Lemma substring_skip (p s : string) (n : nat) :
  String.substring (String.length p) n (p +:+ s) = String.substring 0 n s.
Proof. induction p as [| c p IH]; cbn; [reflexivity | exact IH]. Qed.

Lemma substring_whole (s : string) : String.substring 0 (String.length s) s = s.
Proof. induction s as [| c s IH]; cbn; [reflexivity | now rewrite IH]. Qed.

Lemma substring_split (s : string) :
  forall k, (k <= String.length s)%nat ->
    s = String.substring 0 k s +:+ String.substring k (String.length s - k) s.
Proof.
  induction s as [| c s IH]; intros [| k] Hk; cbn in *; try lia.
  - reflexivity.
  - now rewrite substring_whole.
  - f_equal. apply IH. lia.
Qed.

Lemma length_append (a b : string) :
  String.length (a +:+ b) = (String.length a + String.length b)%nat.
Proof. induction a as [| c a IH]; cbn; [reflexivity | now rewrite IH]. Qed.

(** X6, the end of an atomic tag.  [isEndOfAtomicTag word tag] holds
    exactly when the word ends with the closing tag of [tag] without its
    final bracket. *)
Theorem isEndOfAtomicTag_suffix (word tag : string) :
  isEndOfAtomicTag word tag = true <-> exists p, word = p +:+ "</" +:+ tag.
Proof.
  unfold isEndOfAtomicTag, JS.substringFrom, JS.len. split.
  - intros H. apply String.eqb_eq in H.
    set (k := Z.to_nat (Z.min (Z.max (Z.of_nat (String.length word) -
                                      Z.of_nat (String.length tag) - 2) 0)
                              (Z.of_nat (String.length word)))) in *.
    exists (String.substring 0 k word). rewrite <- H.
    apply substring_split. lia.
  - intros [p ->]. apply String.eqb_eq.
    rewrite !length_append. cbn [String.length].
    replace (Z.to_nat _) with (String.length p) by lia.
    rewrite substring_skip.
    replace (String.length p + (2 + String.length tag) - String.length p)%nat
      with (String.length ("</" +:+ tag)) by (cbn; lia).
    apply substring_whole.
Qed.

(** ** The renderer *)

(** *** One note per token *)

(** X20, one note per token.  [TokenWrapper] returns for every list of
    tokens (the note of an opening tag it marks always exists); it keeps the
    tokens as they are and makes one note per token, whose wrappable flag is
    [isWrappable] of that token. *)
Theorem TokenWrapper_notes_every_token (tokens : list string) :
  exists wrapper,
    TokenWrapper tokens = Ok wrapper /\
    TokenNotes.tokens wrapper = tokens /\
    map Note.isWrappable (TokenNotes.notes wrapper) = map isWrappable tokens.
Proof.
  destruct (TokenWrapper_ok tokens) as [wrapper H]. exists wrapper.
  split; [exact H |]. unfold TokenWrapper, reduce in H.
  destruct (reduceFrom TokenWrapper_step tokens 0 ([], [])) as [data | |] eqn:Hdata;
    try discriminate.
  cbn [bindR] in H. injection H as <-. cbn [TokenNotes.tokens TokenNotes.notes].
  split; [reflexivity |]. apply (TokenWrapper_from_flags _ _ _ _ _ Hdata).
Qed.

(** *** The runs of [combineTokenNotes] lose no token *)

Lemma combineTokenNotes_step_partition (tagFn : string -> string) (notes : list Note.t)
      (pre rest : list string) (t : string) (data data' : CombineData) :
  tokensCopy data = annotate tagFn notes pre ++ t :: rest ->
  0 <= lastIndex data <= arrayLength pre ->
  flat_map WrappableTokens.tokens (list_ data) ++
    skipn (Z.to_nat (lastIndex data)) (annotate tagFn notes pre) =
  annotate tagFn notes pre ->
  combineTokenNotes_step tagFn notes data t (arrayLength pre) = Ok data' ->
  tokensCopy data' = annotate tagFn notes (pre ++ [t]) ++ rest /\
  0 <= lastIndex data' <= arrayLength (pre ++ [t]) /\
  (rest <> [] ->
   flat_map WrappableTokens.tokens (list_ data') ++
     skipn (Z.to_nat (lastIndex data')) (annotate tagFn notes (pre ++ [t])) =
   annotate tagFn notes (pre ++ [t])) /\
  (rest = [] ->
   flat_map WrappableTokens.tokens (list_ data') = annotate tagFn notes (pre ++ [t])).
Proof.
  intros Hcopy Hlast Hlist.
  set (A := annotate tagFn notes pre) in *.
  assert (arrayLength A = arrayLength pre) as HlenA
    by (unfold A, annotate, arrayLength; now rewrite annotateFrom_length).
  set (t' := match JS.index notes (arrayLength pre) with
             | Some n => if Note.insertedTag n then tagFn t else t
             | None => t
             end).
  assert (annotate tagFn notes (pre ++ [t]) = A ++ [t']) as Hnext.
  { unfold annotate. rewrite annotateFrom_app. cbn [annotateFrom]. reflexivity. }
  assert (JS.index (tokensCopy data) (arrayLength pre) = Some t) as Hidx.
  { rewrite Hcopy, <- HlenA. apply index_middle. }
  unfold combineTokenNotes_step. rewrite Hidx.
  set (tokens1 := match JS.index notes (arrayLength pre) with
                  | Some n => if Note.insertedTag n
                              then <[Z.to_nat (arrayLength pre) := tagFn t]> (tokensCopy data)
                              else tokensCopy data
                  | None => tokensCopy data
                  end).
  assert (tokens1 = (A ++ [t']) ++ rest) as Htokens1.
  { unfold tokens1, t'. rewrite <- app_assoc. cbn [app].
    destruct (JS.index notes (arrayLength pre)) as [n |]; [| exact Hcopy].
    destruct (Note.insertedTag n); [| exact Hcopy].
    rewrite Hcopy, <- HlenA. unfold arrayLength. rewrite Nat2Z.id.
    apply insert_middle. }
  assert (arrayLength (A ++ [t']) = arrayLength pre + 1) as HlenA1.
  { unfold arrayLength in *. rewrite length_app. cbn. lia. }
  assert (JS.slice tokens1 (lastIndex data) (arrayLength pre) =
          skipn (Z.to_nat (lastIndex data)) A) as Hslice.
  { rewrite Htokens1, <- app_assoc, <- HlenA. apply slice_of_prefix. lia. }
  assert (forall k, 0 <= k <= arrayLength pre ->
            JS.slice tokens1 k (arrayLength pre + 1) =
            skipn (Z.to_nat k) A ++ [t']) as Hslice1.
  { intros k Hk. rewrite Htokens1, <- HlenA1, slice_of_prefix by lia.
    rewrite skipn_app. unfold arrayLength in *.
    replace (Z.to_nat k - List.length A)%nat with 0%nat by lia. reflexivity. }
  assert ((arrayLength pre =? arrayLength tokens1 - 1) =
          match rest with [] => true | _ => false end) as Hfinal.
  { rewrite Htokens1. unfold arrayLength in *. rewrite !length_app. cbn [List.length].
    destruct rest; cbn [List.length].
    - apply Z.eqb_eq. lia.
    - apply Z.eqb_neq. lia. }
  assert (arrayLength (pre ++ [t]) = arrayLength pre + 1) as Hpre1.
  { unfold arrayLength. rewrite length_app. cbn. lia. }
  pose proof (arrayLength_nonneg pre) as Hpre0.
  rewrite Hfinal, Hslice.
  destruct (negb (Bool.eqb _ _)); intros [= <-];
    cbn [tokensCopy lastIndex list_]; rewrite Hnext.
  - (* the run changes at this token *)
    split; [exact Htokens1 |]. split; [lia |].
    assert (skipn (Z.to_nat (arrayLength pre)) (A ++ [t']) = [t']) as Hlastrun.
    { rewrite skipn_app, skipn_all2 by (unfold arrayLength in *; lia).
      unfold arrayLength in *.
      replace (Z.to_nat (Z.of_nat (List.length pre)) - List.length A)%nat with 0%nat by lia.
      reflexivity. }
    split.
    + intros Hrest. destruct rest; [congruence |].
      rewrite flat_map_snoc. cbn [WrappableTokens.tokens]. rewrite Hlist, Hlastrun.
      reflexivity.
    + intros ->. rewrite !flat_map_snoc. cbn [WrappableTokens.tokens].
      rewrite Hlist, Hslice1 by lia. rewrite <- HlenA at 1. unfold arrayLength.
      rewrite Nat2Z.id, skipn_all. reflexivity.
  - split; [exact Htokens1 |]. split; [lia |].
    assert (skipn (Z.to_nat (lastIndex data)) (A ++ [t']) =
            skipn (Z.to_nat (lastIndex data)) A ++ [t']) as Hrun.
    { rewrite skipn_app. unfold arrayLength in *.
      replace (Z.to_nat (lastIndex data) - List.length A)%nat with 0%nat by lia.
      reflexivity. }
    split.
    + intros Hrest. destruct rest; [congruence |].
      rewrite Hrun, app_assoc, Hlist. reflexivity.
    + intros ->. rewrite flat_map_snoc. cbn [WrappableTokens.tokens].
      rewrite Hslice1 by lia. rewrite app_assoc, Hlist. reflexivity.
Qed.

Lemma combineSegments_from_partition (tagFn : string -> string) (notes : list Note.t)
      (rest : list string) :
  forall pre data data',
    tokensCopy data = annotate tagFn notes pre ++ rest ->
    0 <= lastIndex data <= arrayLength pre ->
    (rest <> [] ->
     flat_map WrappableTokens.tokens (list_ data) ++
       skipn (Z.to_nat (lastIndex data)) (annotate tagFn notes pre) =
     annotate tagFn notes pre) ->
    (rest = [] ->
     flat_map WrappableTokens.tokens (list_ data) = annotate tagFn notes pre) ->
    reduceFrom (combineTokenNotes_step tagFn notes) rest (arrayLength pre) data = Ok data' ->
    flat_map WrappableTokens.tokens (list_ data') = annotate tagFn notes (pre ++ rest).
Proof.
  induction rest as [| t rest IH]; intros pre data data' Hcopy Hlast Hopen Hdone;
    cbn [reduceFrom].
  - intros [= <-]. rewrite app_nil_r. now apply Hdone.
  - destruct (combineTokenNotes_step tagFn notes data t (arrayLength pre))
      as [data1 | |] eqn:Hstep; try discriminate.
    cbn [bindR]. intros Hrest.
    destruct (combineTokenNotes_step_partition tagFn notes pre rest t data data1)
      as (C1 & C2 & C3 & C4); try assumption.
    { apply Hopen. discriminate. }
    replace (pre ++ t :: rest) with ((pre ++ [t]) ++ rest) by now rewrite <- app_assoc.
    apply (IH (pre ++ [t]) data1 data'); try assumption.
    replace (arrayLength (pre ++ [t])) with (arrayLength pre + 1); [exact Hrest |].
    unfold arrayLength. rewrite length_app. cbn. lia.
Qed.

Lemma combineSegments_partition (tagFn : string -> string) (tokenNotes : TokenNotes.t)
      (runs : list WrappableTokens.t) :
  combineSegments tagFn tokenNotes = Ok runs ->
  flat_map WrappableTokens.tokens runs =
  annotate tagFn (TokenNotes.notes tokenNotes) (TokenNotes.tokens tokenNotes).
Proof.
  unfold combineSegments, reduce.
  destruct (reduceFrom _ _ _ _) as [data | |] eqn:Hdata; try discriminate.
  cbn [bindR]. intros [= <-].
  apply (combineSegments_from_partition tagFn (TokenNotes.notes tokenNotes)
           (TokenNotes.tokens tokenNotes) []
           {| tokensCopy := TokenNotes.tokens tokenNotes; list_ := [];
              status := None; lastIndex := 0 |} data);
    cbn [tokensCopy lastIndex list_ flat_map app].
  - reflexivity.
  - unfold arrayLength. cbn. lia.
  - reflexivity.
  - reflexivity.
  - exact Hdata.
Qed.

(** X21, the runs lose no token.  [wrap] returns the concatenation of
    what its first callback returns for the runs of [combineTokenNotes], and
    the tokens of these runs, taken in order, are the tokens of the content,
    each token whose note has [insertedTag] set having gone through the
    second callback: no token is lost, repeated or moved. *)
Theorem wrap_runs_lose_no_token (tag : string) (content : list string) (opIndex : Z)
        (dataPrefix className : string) :
  exists wrapper runs,
    TokenWrapper content = Ok wrapper /\
    combineSegments (wrap_tagFn tag opIndex dataPrefix) wrapper = Ok runs /\
    wrap tag content opIndex dataPrefix className =
    Ok (JS.join EmptyString
          (map (wrap_mapFn tag (wrapAttrs opIndex dataPrefix className)) runs)) /\
    flat_map WrappableTokens.tokens runs =
    annotate (wrap_tagFn tag opIndex dataPrefix) (TokenNotes.notes wrapper) content.
Proof.
  destruct (wrap_runs tag content opIndex dataPrefix className)
    as (wrapper & runs & Hw & Hr & Hwrap).
  exists wrapper, runs. repeat split; try assumption.
  rewrite (combineSegments_partition _ _ _ Hr). f_equal.
  unfold TokenWrapper in Hw.
  destruct (reduce TokenWrapper_step content ([], [])); try discriminate.
  cbn [bindR] in Hw. now injection Hw as <-.
Qed.

(** *** Wrapping text without tags *)

Lemma TokenWrapper_from_plain (tokens : list string) :
  Forall (fun t => plainText t = true) tokens ->
  forall index notes,
    reduceFrom TokenWrapper_step tokens index (notes, []) =
    Ok (notes ++ map (fun _ => plainNote) tokens, []).
Proof.
  intros H. induction H as [| t tokens Ht _ IH]; intros index notes; cbn [reduceFrom map].
  - now rewrite app_nil_r.
  - unfold TokenWrapper_step at 1.
    rewrite (isTag_plain t Ht), (isWrappable_plain t Ht).
    assert ((if negb (isVoidTag t) then @None string else None) = None) as ->
      by now destruct (negb (isVoidTag t)).
    cbn [bindR]. rewrite IH, <- app_assoc. reflexivity.
Qed.

Lemma combineSegments_from_plain (tagFn : string -> string) (rest : list string) :
  forall pre t st data',
    st = None \/ st = Some true ->
    reduceFrom (combineTokenNotes_step tagFn (map (fun _ => plainNote) (pre ++ t :: rest)))
      (t :: rest) (arrayLength pre)
      {| tokensCopy := pre ++ t :: rest; list_ := []; status := st; lastIndex := 0 |} =
    Ok data' ->
    list_ data' =
    [{| WrappableTokens.isWrappable := true; WrappableTokens.tokens := pre ++ t :: rest |}].
Proof.
  induction rest as [| t' rest IH]; intros pre t st data' Hst; cbn [reduceFrom].
  - unfold combineTokenNotes_step.
    assert (JS.index (map (fun _ => plainNote) (pre ++ [t])) (arrayLength pre) =
            Some plainNote) as Hnote.
    { rewrite map_app. cbn [map].
      replace (arrayLength pre) with (Z.of_nat (List.length (map (fun _ : string => plainNote) pre)))
        by (unfold arrayLength; now rewrite length_map).
      apply index_middle. }
    cbn [tokensCopy list_ status lastIndex]. unfold wrappableAt. rewrite Hnote.
    cbn [plainNote Note.insertedTag Note.isWrappable].
    replace (match st with Some b => b | None => true end) with true
      by (destruct Hst as [-> | ->]; reflexivity).
    cbn [Bool.eqb negb].
    assert ((arrayLength pre =? arrayLength (pre ++ [t]) - 1) = true) as ->.
    { apply Z.eqb_eq. unfold arrayLength. rewrite length_app. cbn. lia. }
    cbn [bindR]. intros [= <-]. cbn [list_ app].
    replace (arrayLength pre + 1) with (arrayLength (pre ++ [t]))
      by (unfold arrayLength; rewrite length_app; cbn; lia).
    now rewrite slice_all.
  - unfold combineTokenNotes_step at 1.
    assert (JS.index (map (fun _ => plainNote) (pre ++ t :: t' :: rest)) (arrayLength pre) =
            Some plainNote) as Hnote.
    { rewrite map_app. cbn [map].
      replace (arrayLength pre) with (Z.of_nat (List.length (map (fun _ : string => plainNote) pre)))
        by (unfold arrayLength; now rewrite length_map).
      apply index_middle. }
    cbn [tokensCopy list_ status lastIndex]. unfold wrappableAt. rewrite Hnote.
    cbn [plainNote Note.insertedTag Note.isWrappable].
    replace (match st with Some b => b | None => true end) with true
      by (destruct Hst as [-> | ->]; reflexivity).
    cbn [Bool.eqb negb].
    assert ((arrayLength pre =? arrayLength (pre ++ t :: t' :: rest) - 1) = false) as ->.
    { apply Z.eqb_neq. unfold arrayLength. rewrite length_app. cbn. lia. }
    cbn [bindR]. intros Hrest.
    replace (pre ++ t :: t' :: rest) with ((pre ++ [t]) ++ t' :: rest) in *
      by now rewrite <- app_assoc.
    apply (IH (pre ++ [t]) t' (Some true) data'); [auto |].
    replace (arrayLength (pre ++ [t])) with (arrayLength pre + 1)
      by (unfold arrayLength; rewrite length_app; cbn; lia).
    exact Hrest.
Qed.

Lemma wrap_plain (tag : string) (content : list string) (opIndex : Z)
        (dataPrefix className : string) :
  forallb plainText content = true ->
  wrap tag content opIndex dataPrefix className =
  Ok (let val := JS.join EmptyString content in
      if JS.truthy (JS.trim val)
      then "<" +:+ tag +:+ wrapAttrs opIndex dataPrefix className +:+ ">" +:+ val +:+
           "</" +:+ tag +:+ ">"
      else EmptyString).
Proof.
  intros Hplain.
  assert (Forall (fun t => plainText t = true) content) as Hall.
  { apply List.Forall_forall. now apply forallb_forall. }
  unfold wrap, TokenWrapper, reduce.
  rewrite (TokenWrapper_from_plain content Hall 0 []). cbn [bindR fst app].
  unfold combineTokenNotes, combineSegments. cbn [TokenNotes.tokens TokenNotes.notes].
  destruct content as [| t rest]; [reflexivity |].
  destruct (combineSegments_ok (wrap_tagFn tag opIndex dataPrefix)
              {| TokenNotes.tokens := t :: rest;
                 TokenNotes.notes := map (fun _ => plainNote) (t :: rest) |}) as [runs Hruns].
  unfold combineSegments in Hruns. cbn [TokenNotes.tokens TokenNotes.notes] in Hruns.
  destruct (reduce _ (t :: rest) _) as [data | |] eqn:Hdata; try discriminate.
  cbn [bindR]. unfold reduce in Hdata.
  rewrite (combineSegments_from_plain _ rest [] t None data (or_introl eq_refl) Hdata).
  cbn [map app]. unfold JS.join at 1. cbn [String.concat]. reflexivity.
Qed.

(** X22, wrapping text.  When no token of the content has a [<], [wrap]
    returns the whole content inside one element with the operation index
    and class attributes, or the empty text when the content is empty or
    only white space. *)
Theorem wrap_plain_text (tag : string) (content : list string) (opIndex : Z)
        (dataPrefix className : string) :
  forallb plainText content = true ->
  wrap tag content opIndex dataPrefix className =
  Ok (let val := JS.join EmptyString content in
      if JS.truthy (JS.trim val)
      then "<" +:+ tag +:+ wrapAttrs opIndex dataPrefix className +:+ ">" +:+ val +:+
           "</" +:+ tag +:+ ">"
      else EmptyString).
Proof. apply wrap_plain. Qed.

Lemma wrap_plain_text_witness :
  forallb plainText ["more"; " "; "text"] = true /\
  wrap "ins" ["more"; " "; "text"] 3 EmptyString "diff" =
  Ok (let val := JS.join EmptyString ["more"; " "; "text"] in
      if JS.truthy (JS.trim val)
      then "<" +:+ "ins" +:+ wrapAttrs 3 EmptyString "diff" +:+ ">" +:+ val +:+
           "</" +:+ "ins" +:+ ">"
      else EmptyString).
Proof.
  split; [reflexivity |].
  apply (wrap_plain_text "ins" ["more"; " "; "text"] 3 EmptyString "diff").
  reflexivity.
Defined.

(** *** Rendering operations *)

(** X23, the renderer returns.  For operations whose actions are among
    equal, insert, delete and replace, whatever their ranges,
    [renderOperations] returns a text: no range makes a callback fail. *)
Theorem renderOperations_returns (before after : list Token) (ops : list Operation.t)
        (dataPrefix className : string) :
  knownActions ops = true ->
  exists rendering, renderOperations before after ops dataPrefix className = Ok rendering.
Proof.
  intros Hops. unfold renderOperations, reduce.
  eapply (reduceFrom_total _ (fun op => Operation.action op <> Action.none)).
  - intros acc op i Haction.
    destruct (Operation.action op) eqn:E; cbn [OPS.get]; try congruence.
    + unfold OPS.equal. cbn [bindR]. eauto.
    + unfold OPS.insert.
      destruct (wrap_ok "ins"
                  (map str (opTokens after (Operation.startInAfter op)
                              (Operation.endInAfter op)))
                  i dataPrefix className) as [r ->].
      cbn [bindR]. eauto.
    + unfold OPS.delete.
      destruct (wrap_ok "del"
                  (map str (opTokens before (Operation.startInBefore op)
                              (Operation.endInBefore op)))
                  i dataPrefix className) as [r ->].
      cbn [bindR]. eauto.
    + unfold OPS.replace, OPS.delete, OPS.insert.
      destruct (wrap_ok "del"
                  (map str (opTokens before (Operation.startInBefore op)
                              (Operation.endInBefore op)))
                  i dataPrefix className) as [r1 ->].
      destruct (wrap_ok "ins"
                  (map str (opTokens after (Operation.startInAfter op)
                              (Operation.endInAfter op)))
                  i dataPrefix className) as [r2 ->].
      cbn [bindR]. eauto.
  - unfold knownActions in Hops. rewrite forallb_forall in Hops.
    apply List.Forall_forall. intros op Hop. specialize (Hops op Hop).
    intros E. rewrite E in Hops. discriminate.
Qed.

Lemma renderOperations_returns_witness :
  knownActions workingOps = true /\
  exists rendering,
    renderOperations workingOnIt workingInIt workingOps EmptyString EmptyString =
    Ok rendering.
Proof.
  split; [reflexivity |].
  apply (renderOperations_returns workingOnIt workingInIt workingOps EmptyString EmptyString).
  reflexivity.
Defined.

Lemma fold_left_text (tokens : list Token) :
  forall acc,
    fold_left (fun prev curr => prev +:+ str curr) tokens acc = acc +:+ text tokens.
Proof.
  induction tokens as [| t tokens IH]; intros acc; cbn [fold_left].
  - unfold text. cbn. now rewrite append_nil_r.
  - rewrite IH. unfold text. cbn [map]. rewrite join_cons, append_assoc. reflexivity.
Qed.

Lemma tilesb_spec (ranges : list (Z * Z)) :
  forall a b, tilesb ranges a b = true -> tiles ranges a b.
Proof.
  induction ranges as [| [s e] ranges IH]; intros a b; cbn [tilesb tiles].
  - apply Z.eqb_eq.
  - intros H. apply andb_prop in H as [H H3]. apply andb_prop in H as [H1 H2].
    apply Z.eqb_eq in H1. apply Z.leb_le in H2. auto.
Qed.

Lemma text_app (l1 l2 : list Token) : text (l1 ++ l2) = text l1 +:+ text l2.
Proof. unfold text. now rewrite map_app, join_app. Qed.

Lemma renderOperations_equal_from (before after : list Token) (dataPrefix className : string)
      (ops : list Operation.t) :
  allEqual ops = true ->
  forall index acc,
    reduceFrom (fun rendering op index =>
                  let* r := OPS.get (Operation.action op) op before after
                              index dataPrefix className in
                  Ok (rendering +:+ r)) ops index acc =
    Ok (acc +:+ text (flat_map (rangeTokens after) (afterRanges ops))).
Proof.
  induction ops as [| op ops IH]; intros Hall index acc; cbn [reduceFrom].
  - cbn. now rewrite append_nil_r.
  - cbn [allEqual forallb] in Hall. apply andb_prop in Hall as [Hop Hall].
    apply andb_prop in Hop as [Haction Hend].
    destruct (Operation.action op) eqn:Ea; try discriminate.
    destruct (Operation.endInAfter op) as [e |] eqn:Ee; [| discriminate].
    cbn [OPS.get]. unfold OPS.equal. rewrite Ee. cbn [bindR].
    rewrite (IH Hall), fold_left_text. cbn [String.append].
    unfold afterRanges at 2. cbn [flat_map]. fold (afterRanges ops).
    unfold afterRange. rewrite Ea, Ee. cbn [hasAfterSide app flat_map].
    rewrite text_app, opTokens_range, append_assoc. reflexivity.
Qed.

(** X24, equal operations render verbatim.  When all operations are equal
    operations whose after ranges cover the after tokens in order,
    [renderOperations] returns the concatenated texts of the after tokens,
    without any mark-up of its own. *)
Theorem renderOperations_equal_is_verbatim (before after : list Token)
        (ops : list Operation.t) (dataPrefix className : string) :
  allEqual ops = true ->
  tilesb (afterRanges ops) 0 (arrayLength after) = true ->
  renderOperations before after ops dataPrefix className = Ok (text after).
Proof.
  intros Hall Htiles. unfold renderOperations, reduce.
  rewrite renderOperations_equal_from by assumption.
  rewrite (tiles_tokens after _ 0 (arrayLength after)), slice_all;
    [reflexivity | lia | now apply tilesb_spec].
Qed.

Lemma renderOperations_equal_is_verbatim_witness :
  allEqual [{| Operation.action := Action.equal;
               Operation.startInBefore := 0; Operation.endInBefore := Some 1;
               Operation.startInAfter := 0; Operation.endInAfter := Some 1 |};
            {| Operation.action := Action.equal;
               Operation.startInBefore := 2; Operation.endInBefore := Some 4;
               Operation.startInAfter := 2; Operation.endInAfter := Some 4 |}] = true /\
  tilesb (afterRanges
            [{| Operation.action := Action.equal;
                Operation.startInBefore := 0; Operation.endInBefore := Some 1;
                Operation.startInAfter := 0; Operation.endInAfter := Some 1 |};
             {| Operation.action := Action.equal;
                Operation.startInBefore := 2; Operation.endInBefore := Some 4;
                Operation.startInAfter := 2; Operation.endInAfter := Some 4 |}])
         0 (arrayLength workingInIt) = true /\
  renderOperations workingInIt workingInIt
    [{| Operation.action := Action.equal;
        Operation.startInBefore := 0; Operation.endInBefore := Some 1;
        Operation.startInAfter := 0; Operation.endInAfter := Some 1 |};
     {| Operation.action := Action.equal;
        Operation.startInBefore := 2; Operation.endInBefore := Some 4;
        Operation.startInAfter := 2; Operation.endInAfter := Some 4 |}]
    EmptyString EmptyString = Ok (text workingInIt).
Proof.
  split; [reflexivity |].
  split; [vm_compute; reflexivity |].
  apply (renderOperations_equal_is_verbatim workingInIt workingInIt); 
    [reflexivity | vm_compute; reflexivity].
Defined.

(** ** Whole documents *)

Lemma opTokens_all (tokens : list Token) :
  tokens <> [] ->
  opTokens tokens 0 (Some (arrayLength tokens - 1)) = tokens.
Proof.
  intros Hne. unfold opTokens.
  destruct (Z.eqb_spec (arrayLength tokens - 1) 0) as [E | E].
  - replace 1 with (arrayLength tokens) by lia. apply slice_all.
  - replace (arrayLength tokens - 1 + 1) with (arrayLength tokens) by lia. apply slice_all.
Qed.

Lemma arrayLength_zero {A : Type} (l : list A) : (arrayLength l =? 0) = true -> l = [].
Proof. destruct l; [reflexivity |]. unfold arrayLength. cbn. intros H. discriminate. Qed.

Lemma forallb_spaceOrAbsent_nil (tokens : list Token) :
  forallb (spaceOrAbsent []) tokens = true.
Proof.
  induction tokens as [| t tokens IH]; cbn [forallb]; [reflexivity |].
  rewrite IH. unfold spaceOrAbsent. cbn. now rewrite orb_true_r.
Qed.

Lemma diff_from_empty_lemma (after className dataPrefix : string) :
  String.eqb EmptyString after = false ->
  exists tokens,
    htmlToTokens after = Ok tokens /\
    diff EmptyString after className dataPrefix =
    if safeKeysb tokens
    then wrap "ins" (map str tokens) 0 dataPrefix className
    else Throw (TypeError "map[token.key]?.push is not a function").
Proof.
  intros Hne. destruct (htmlToTokens_returns after) as [tokens Htok].
  exists tokens. split; [exact Htok |].
  unfold diff. rewrite Hne.
  change (htmlToTokens EmptyString) with (@Ok (list Token) []). cbn [bindR].
  rewrite Htok. cbn [bindR].
  destruct (safeKeysb tokens) eqn:Esafe.
  - rewrite calculateOperations_disjoint by (assumption || reflexivity).
    cbn [bindR]. unfold wholeDocumentOperation.
    change (arrayLength (@nil Token)) with 0. cbn [Z.eqb].
    destruct (arrayLength tokens =? 0) eqn:Elen.
    + apply arrayLength_zero in Elen as ->. reflexivity.
    + assert (tokens <> []) as Hne' by (intros ->; discriminate).
      unfold renderOperations, reduce. cbn [reduceFrom Operation.action OPS.get].
      unfold OPS.insert. cbn [Operation.startInAfter Operation.endInAfter].
      rewrite (opTokens_all tokens Hne').
      destruct (wrap_ok "ins" (map str tokens) 0 dataPrefix className) as [r ->].
      reflexivity.
  - unfold calculateOperations. rewrite createSegment_unsafe; [reflexivity |].
    intros [_ Ha]. apply safeKeysb_spec in Ha. congruence.
Qed.

Lemma diff_to_empty_lemma (before className dataPrefix : string) :
  String.eqb before EmptyString = false ->
  exists tokens,
    htmlToTokens before = Ok tokens /\
    diff before EmptyString className dataPrefix =
    if safeKeysb tokens
    then wrap "del" (map str tokens) 0 dataPrefix className
    else Throw (TypeError "map[token.key]?.push is not a function").
Proof.
  intros Hne. destruct (htmlToTokens_returns before) as [tokens Htok].
  exists tokens. split; [exact Htok |].
  unfold diff. rewrite Hne, Htok. cbn [bindR].
  change (htmlToTokens EmptyString) with (@Ok (list Token) []). cbn [bindR].
  destruct (safeKeysb tokens) eqn:Esafe.
  - rewrite calculateOperations_disjoint;
      [| assumption | reflexivity | apply forallb_spaceOrAbsent_nil].
    cbn [bindR]. unfold wholeDocumentOperation.
    change (arrayLength (@nil Token)) with 0. cbn [Z.eqb].
    destruct (arrayLength tokens =? 0) eqn:Elen.
    + apply arrayLength_zero in Elen as ->. reflexivity.
    + assert (tokens <> []) as Hne' by (intros ->; discriminate).
      unfold renderOperations, reduce. cbn [reduceFrom Operation.action OPS.get].
      unfold OPS.delete. cbn [Operation.startInBefore Operation.endInBefore].
      rewrite (opTokens_all tokens Hne').
      destruct (wrap_ok "del" (map str tokens) 0 dataPrefix className) as [r ->].
      reflexivity.
  - unfold calculateOperations. rewrite createSegment_unsafe; [reflexivity |].
    intros [Hb _]. apply safeKeysb_spec in Hb. congruence.
Qed.

(** X26, the empty document.  The difference from the empty document to
    a non-empty one is [wrap] applied to all tokens of that document as one
    insert with operation index 0, and the difference from the document to
    the empty one is the same with a delete; both throw the error of
    [createMap] when a key of the document names an inherited property. *)
Theorem diff_from_or_to_empty (html className dataPrefix : string) :
  JS.truthy html = true ->
  exists tokens,
    htmlToTokens html = Ok tokens /\
    diff EmptyString html className dataPrefix =
    (if safeKeysb tokens
     then wrap "ins" (map str tokens) 0 dataPrefix className
     else Throw (TypeError "map[token.key]?.push is not a function")) /\
    diff html EmptyString className dataPrefix =
    (if safeKeysb tokens
     then wrap "del" (map str tokens) 0 dataPrefix className
     else Throw (TypeError "map[token.key]?.push is not a function")).
Proof.
  intros Hne.
  assert (String.eqb EmptyString html = false /\ String.eqb html EmptyString = false)
    as [H1 H2] by (destruct html; [discriminate | split; reflexivity]).
  destruct (diff_from_empty_lemma html className dataPrefix H1) as (tokens & Htok & Hins).
  destruct (diff_to_empty_lemma html className dataPrefix H2) as (tokens' & Htok' & Hdel).
  rewrite Htok in Htok'. injection Htok' as <-.
  exists tokens. auto.
Qed.

Lemma diff_from_or_to_empty_witness :
  JS.truthy "<p>a</p>" = true /\
  exists tokens,
    htmlToTokens "<p>a</p>" = Ok tokens /\
    diff EmptyString "<p>a</p>" EmptyString EmptyString =
    (if safeKeysb tokens
     then wrap "ins" (map str tokens) 0 EmptyString EmptyString
     else Throw (TypeError "map[token.key]?.push is not a function")) /\
    diff "<p>a</p>" EmptyString EmptyString EmptyString =
    (if safeKeysb tokens
     then wrap "del" (map str tokens) 0 EmptyString EmptyString
     else Throw (TypeError "map[token.key]?.push is not a function")).
Proof.
  split; [reflexivity |].
  apply (diff_from_or_to_empty "<p>a</p>" EmptyString EmptyString). reflexivity.
Defined.

(** *** One word replaced by another *)

Lemma word_trim (word : string) :
  isWord word = true -> JS.truthy word = true -> JS.truthy (JS.trim word) = true.
Proof.
  destruct word as [| c rest]; [discriminate |]. intros H _.
  unfold isWord in H. cbn [list_ascii_of_string forallb] in H.
  apply andb_prop in H as [Hc _]. destruct (letter_is_text c Hc) as (_ & Hspace & _).
  unfold JS.trim. cbn [JS.trimStart]. rewrite Hspace. cbn [JS.trimEnd].
  rewrite Hspace. now destruct (JS.trimEnd rest).
Qed.

Lemma join_singleton (s : string) : JS.join EmptyString [s] = s.
Proof. reflexivity. Qed.

(** X27, one word replaced by another.  For two different non-empty
    words of letters and digits, neither the name of an inherited property,
    [diff] returns the first word as a deletion followed by the second as an
    insertion, both with operation index 0 and the given class. *)
Theorem diff_replaces_a_word (before after className dataPrefix : string) :
  ordinaryWord before = true -> ordinaryWord after = true ->
  String.eqb before after = false ->
  diff before after className dataPrefix =
  Ok ("<del" +:+ wrapAttrs 0 dataPrefix className +:+ ">" +:+ before +:+ "</del>" +:+
      "<ins" +:+ wrapAttrs 0 dataPrefix className +:+ ">" +:+ after +:+ "</ins>").
Proof.
  unfold ordinaryWord. intros Hb Ha Hne.
  apply andb_prop in Hb as [Hb Hbsafe]. apply andb_prop in Hb as [Hbword Hbne].
  apply andb_prop in Ha as [Ha Hasafe]. apply andb_prop in Ha as [Haword Hane].
  unfold diff. rewrite Hne.
  rewrite (htmlToTokens_word before Hbword Hbne).
  rewrite (htmlToTokens_word after Haword Hane). cbn [bindR].
  assert (key (createToken before 0) = before) as Kb
    by (cbn [createToken key]; now apply getKeyForToken_isWord).
  assert (key (createToken after 0) = after) as Ka
    by (cbn [createToken key]; now apply getKeyForToken_isWord).
  rewrite calculateOperations_disjoint.
  - cbn [bindR]. change (arrayLength [createToken before 0]) with 1.
    change (arrayLength [createToken after 0]) with 1.
    unfold wholeDocumentOperation. cbn [Z.eqb]. change (1 - 1) with 0.
    unfold renderOperations, reduce. cbn [reduceFrom Operation.action OPS.get].
    unfold OPS.replace, OPS.delete, OPS.insert.
    cbn [Operation.startInBefore Operation.endInBefore Operation.startInAfter
         Operation.endInAfter opTokens Z.eqb].
    change (JS.slice [createToken before 0] 0 1) with [createToken before 0].
    change (JS.slice [createToken after 0] 0 1) with [createToken after 0].
    cbn [map createToken str].
    assert (forallb plainText [before] = true) as Pb
      by (cbn [forallb]; now rewrite (isWord_plain _ Hbword)).
    assert (forallb plainText [after] = true) as Pa
      by (cbn [forallb]; now rewrite (isWord_plain _ Haword)).
    rewrite (wrap_plain "del" [before] 0 dataPrefix className Pb).
    rewrite (wrap_plain "ins" [after] 0 dataPrefix className Pa).
    cbn zeta. rewrite !join_singleton, !word_trim by assumption.
    cbn [bindR]. rewrite !append_assoc. reflexivity.
  - unfold safeKeysb. cbn [forallb]. rewrite Kb, Hbsafe. reflexivity.
  - unfold safeKeysb. cbn [forallb]. rewrite Ka, Hasafe. reflexivity.
  - cbn [forallb]. unfold spaceOrAbsent. cbn [existsb]. rewrite Ka, Kb.
    rewrite (String.eqb_sym after before), Hne. cbn. now rewrite orb_true_r.
Qed.

Lemma diff_replaces_a_word_witness :
  ordinaryWord "colour" = true /\ ordinaryWord "color" = true /\
  String.eqb "colour" "color" = false /\
  diff "colour" "color" "changed" EmptyString =
  Ok ("<del" +:+ wrapAttrs 0 EmptyString "changed" +:+ ">" +:+ "colour" +:+ "</del>" +:+
      "<ins" +:+ wrapAttrs 0 EmptyString "changed" +:+ ">" +:+ "color" +:+ "</ins>").
Proof.
  split; [vm_compute; reflexivity |].
  split; [vm_compute; reflexivity |].
  split; [vm_compute; reflexivity |].
  apply (diff_replaces_a_word "colour" "color" "changed" EmptyString);
    vm_compute; reflexivity.
Defined.

(** X25, completions of [diff].  For equal arguments [diff] returns its
    argument.  Otherwise both documents are tokenized, and [diff] returns a
    text when no token key names an inherited property and throws the error
    of [createMap] when one does; it never throws a missing-argument or an
    unknown-mode error. *)
Theorem diff_error_behaviour (before after className dataPrefix : string) :
  if String.eqb before after
  then diff before after className dataPrefix = Ok before
  else
    exists beforeTokens afterTokens,
      htmlToTokens before = Ok beforeTokens /\
      htmlToTokens after = Ok afterTokens /\
      if safeKeysb beforeTokens && safeKeysb afterTokens
      then exists rendering, diff before after className dataPrefix = Ok rendering
      else diff before after className dataPrefix =
           Throw (TypeError "map[token.key]?.push is not a function").
Proof.
  unfold diff. destruct (String.eqb before after); [reflexivity |].
  destruct (htmlToTokens_returns before) as [b Hb].
  destruct (htmlToTokens_returns after) as [a Ha].
  exists b, a. split; [exact Hb |]. split; [exact Ha |].
  rewrite Hb, Ha. cbn [bindR].
  destruct (safeKeysb b && safeKeysb a) eqn:E.
  - apply andb_prop in E as [Eb Ea]. apply safeKeysb_spec in Eb, Ea.
    destruct (calculateOperations_ok b a Eb Ea) as (ops & -> & _ & _ & Hops).
    cbn [bindR]. now apply renderOperations_ok.
  - unfold calculateOperations. rewrite createSegment_unsafe; [reflexivity |].
    intros [Eb Ea]. apply safeKeysb_spec in Eb, Ea. rewrite Eb, Ea in E. discriminate.
Qed.

(** ** The tokenizer of the compiled build *)

Lemma Dist_scanChar_total (st : Dist.Scanner) (c : ascii) :
  (Dist.mode st = "tag" \/ Dist.mode st = "atomic_tag" \/ Dist.mode st = "html_comment" \/
   Dist.mode st = "char" \/ Dist.mode st = "whitespace") ->
  exists st', Dist.scanChar st c = Ok st' /\
    (Dist.mode st' = "tag" \/ Dist.mode st' = "atomic_tag" \/
     Dist.mode st' = "html_comment" \/ Dist.mode st' = "char" \/
     Dist.mode st' = "whitespace").
Proof.
  unfold Dist.scanChar.
  intros [H | [H | [H | [H | H]]]]; rewrite H; cbn [String.eqb Ascii.eqb Bool.eqb];
    repeat match goal with
           | |- context [if ?b then _ else _] => destruct b
           end;
    eexists; (split; [reflexivity |]); cbn; rewrite ?H; intuition auto.
Qed.

Lemma Dist_scanLoop_total (chars : list ascii) :
  forall st,
    (Dist.mode st = "tag" \/ Dist.mode st = "atomic_tag" \/ Dist.mode st = "html_comment" \/
     Dist.mode st = "char" \/ Dist.mode st = "whitespace") ->
    exists st', Dist.scanLoop chars st = Ok st'.
Proof.
  induction chars as [| c chars IH]; intros st Hm; cbn [Dist.scanLoop]; [eauto |].
  destruct (Dist_scanChar_total st c Hm) as (st1 & -> & Hm1). cbn [bindR]. now apply IH.
Qed.

Lemma Dist_htmlToTokens_returns (html : string) :
  exists tokens, Dist.htmlToTokens html = Ok tokens.
Proof.
  unfold Dist.htmlToTokens.
  destruct (Dist_scanLoop_total (list_ascii_of_string html)
              {| Dist.mode := "char"; Dist.currentWord := EmptyString;
                 Dist.currentAtomicTag := EmptyString; Dist.words := [] |}) as [st ->].
  - cbn. auto.
  - cbn [bindR]. eauto.
Qed.

(** X28, the tokenizer of the compiled build returns.  For every input
    the tokenizer of the compiled build returns a list of tokens: every mode
    it reaches is one its [switch] knows, so that the unknown-mode error is
    never thrown. *)
Theorem compiled_tokenizer_returns (html : string) :
  exists tokens, Dist.htmlToTokens html = Ok tokens.
Proof. apply Dist_htmlToTokens_returns. Qed.

Lemma Dist_text_snoc (tokens : list Dist.Token) (t : Dist.Token) :
  Dist.text (tokens ++ [t]) = Dist.text tokens +:+ Dist.str t.
Proof.
  unfold Dist.text. rewrite map_app, join_app. cbn. reflexivity.
Qed.

Lemma Dist_text_pushWord (st : Dist.Scanner) :
  Dist.text (Dist.pushWord st) = Dist.text (Dist.words st) +:+ Dist.currentWord st.
Proof.
  unfold Dist.pushWord. destruct (Dist.currentWord st); cbn [JS.truthy].
  - now rewrite append_nil_r.
  - now rewrite Dist_text_snoc.
Qed.

Lemma Dist_scanChar_lossless (html rest : string) (st st' : Dist.Scanner) (c : ascii) :
  containsHTMLComment html = false ->
  html = Dist.text (Dist.words st) +:+ Dist.currentWord st +:+ String c rest ->
  (Dist.mode st = "html_comment" -> exists u, Dist.currentWord st = "<!--" +:+ u) ->
  Dist.scanChar st c = Ok st' ->
  html = Dist.text (Dist.words st') +:+ Dist.currentWord st' +:+ rest /\
  (Dist.mode st' = "html_comment" -> exists u, Dist.currentWord st' = "<!--" +:+ u).
Proof.
  intros Hno Hhtml Hopen.
  assert (forall t, t = (Dist.text (Dist.words st) +:+ Dist.currentWord st) +:+ charString c ->
                    html = t +:+ rest) as Hadd.
  { intros t ->. rewrite Hhtml, !append_assoc. reflexivity. }
  unfold Dist.scanChar.
  case_ifs;
    intros [= <-]; cbn [Dist.mode Dist.currentWord Dist.words];
    repeat match goal with
      | H : String.eqb (Dist.mode st) _ = true |- _ => apply String.eqb_eq in H
      | H : isEndOfTag _ = true |- _ => apply charString_eqb in H
      | H : isStartOfTag _ = true |- _ => apply charString_eqb in H
      | H : (_ && _)%bool = true |- _ => apply andb_prop in H as [? ?]
      end;
    try match goal with
      | H : isEndOfHTMLComment _ = true, Hm : Dist.mode st = "html_comment" |- _ =>
          exfalso; destruct (Hopen Hm) as [u Hu];
          apply isEndOfHTMLComment_suffix in H as [v Hv]; rewrite Hu in Hv;
          rewrite Hhtml, Hu in Hno;
          replace (("<!--" +:+ u) +:+ String c rest)
            with ((("<!--" +:+ u) +:+ charString c) +:+ rest) in Hno
            by (rewrite append_assoc; reflexivity);
          rewrite (containsHTMLComment_intro _ _ _ _ _ Hv) in Hno; discriminate
      end;
    (split;
     [ rewrite <- append_assoc; apply Hadd;
       rewrite ?Dist_text_snoc, ?Dist_text_pushWord; cbn [Dist.createToken Dist.str];
       rewrite ?append_nil_r, ?append_assoc;
       repeat match goal with H : _ = charString c |- _ => rewrite H end;
       reflexivity
     | try (intros ?; congruence) ]);
    intros _.
  - match goal with H : isStartOfHTMLComment _ = true |- _ =>
      apply isStartOfHTMLComment_prefix in H as [u ->] end.
    exists (u +:+ charString c). reflexivity.
  - match goal with H : Dist.mode st = "html_comment" |- _ => destruct (Hopen H) as [u ->] end.
    exists (u +:+ charString c). reflexivity.
Qed.

Lemma Dist_scanLoop_lossless (html : string) (chars : list ascii) :
  containsHTMLComment html = false ->
  forall st st',
    html = Dist.text (Dist.words st) +:+ Dist.currentWord st +:+ string_of_list_ascii chars ->
    (Dist.mode st = "html_comment" -> exists u, Dist.currentWord st = "<!--" +:+ u) ->
    Dist.scanLoop chars st = Ok st' ->
    html = Dist.text (Dist.words st') +:+ Dist.currentWord st'.
Proof.
  intros Hno. induction chars as [| c chars IH]; intros st st' Hhtml Hopen;
    cbn [Dist.scanLoop string_of_list_ascii] in *.
  - intros [= <-]. now rewrite append_nil_r in Hhtml.
  - destruct (Dist.scanChar st c) as [st1 | |] eqn:Hstep; try discriminate.
    cbn [bindR].
    destruct (Dist_scanChar_lossless html _ st st1 c Hno Hhtml Hopen Hstep) as [H1 H2].
    now apply IH.
Qed.

(** X29, the tokenizer of the compiled build is lossless.  For every input
    without an HTML comment, the tokenizer of the compiled build returns
    tokens whose texts, concatenated in order, are the input. *)
Theorem compiled_tokenizer_lossless (html : string) :
  containsHTMLComment html = false ->
  exists tokens, Dist.htmlToTokens html = Ok tokens /\ Dist.text tokens = html.
Proof.
  intros Hno. destruct (Dist_htmlToTokens_returns html) as [tokens Htok].
  exists tokens. split; [exact Htok |].
  unfold Dist.htmlToTokens in Htok.
  destruct (Dist.scanLoop _ _) as [st | |] eqn:Hloop; try discriminate.
  cbn [bindR] in Htok. injection Htok as <-.
  rewrite Dist_text_pushWord. symmetry.
  eapply (Dist_scanLoop_lossless html _ Hno); [| | exact Hloop].
  - cbn. now rewrite string_of_list_ascii_of_string.
  - intros H. discriminate.
Qed.

Lemma compiled_tokenizer_lossless_witness :
  containsHTMLComment "<p>a, b &amp; <b>c</p>  d" = false /\
  exists tokens,
    Dist.htmlToTokens "<p>a, b &amp; <b>c</p>  d" = Ok tokens /\
    Dist.text tokens = "<p>a, b &amp; <b>c</p>  d".
Proof.
  split; [vm_compute; reflexivity |].
  apply (compiled_tokenizer_lossless "<p>a, b &amp; <b>c</p>  d").
  vm_compute. reflexivity.
Defined.

(** ** Text without tags *)

(** X7, text without tags.  A token without any [<] is not a tag, is not
    a void tag, and is wrappable. *)
Theorem plain_text_is_wrappable (token : string) :
  plainText token = true ->
  isTag token = None /\ isVoidTag token = false /\ isWrappable token = true.
Proof.
  intros H. split; [now apply isTag_plain |]. split; [| now apply isWrappable_plain].
  unfold isVoidTag, test. cbn [Seq]. now rewrite exec_Bol_spaces_lt_plain.
Qed.

Lemma plain_text_is_wrappable_witness :
  plainText "a > b" = true /\
  isTag "a > b" = None /\ isVoidTag "a > b" = false /\ isWrappable "a > b" = true.
Proof.
  split; [reflexivity |].
  apply (plain_text_is_wrappable "a > b"). reflexivity.
Defined.

(** ** Documents with the same keys *)

Lemma keyAt_map (tokens : list Token) (i : Z) :
  keyAt tokens i = JS.index (map key tokens) i.
Proof.
  unfold keyAt, JS.index. destruct (i <? 0); [reflexivity |].
  now rewrite nth_error_map.
Qed.

Lemma getFullMatch_while_same_keys (bt at_ : list Token) (fuel : nat) :
  map key bt = map key at_ ->
  forall cl,
    0 <= cl <= arrayLength bt ->
    arrayLength bt - cl < Z.of_nat fuel ->
    getFullMatch_while fuel bt at_ 0 0 cl = Ok (arrayLength bt).
Proof.
  intros Hkeys.
  assert (arrayLength at_ = arrayLength bt) as Hlen.
  { unfold arrayLength. now rewrite <- (length_map key at_), <- Hkeys, length_map. }
  induction fuel as [| fuel IH]; intros cl Hcl Hfuel; [lia |].
  cbn [getFullMatch_while]. rewrite Hlen, !Z.add_0_l.
  destruct (Z.ltb_spec cl (arrayLength bt)) as [Hlt | Hge]; cbn [andb].
  - destruct (keyAt_in_range bt cl) as [k Hk]; [lia |].
    rewrite (keyAt_map at_), <- Hkeys, <- keyAt_map, Hk. cbn [strictEq].
    rewrite String.eqb_refl. apply IH; lia.
  - f_equal. lia.
Qed.

Lemma findBestMatch_later_locations (seg : Segment) (m : Match.t) (lookBehind : bool)
      (locations : list Z) :
  Match.length m = arrayLength (beforeTokens seg) ->
  forall i,
    reduceFrom (findBestMatch_each seg 0 lookBehind) locations i (Some m) = Ok (Some m).
Proof.
  intros Hlen. induction locations as [| a locations IH]; intros i; cbn [reduceFrom];
    [reflexivity |].
  unfold findBestMatch_each at 1. unfold getFullMatch.
  rewrite Hlen, Z.add_0_l.
  assert ((arrayLength (beforeTokens seg) >=? arrayLength (beforeTokens seg)) = true) as ->
    by (rewrite Z.geb_leb; apply Z.leb_refl).
  cbn [orb bindR]. apply IH.
Qed.

Lemma findBestMatch_same_keys (seg : Segment) :
  map key (beforeTokens seg) = map key (afterTokens seg) ->
  startsWithWord (beforeTokens seg) = true ->
  (forall k, afterMap seg !! k = locationsOf k (afterTokens seg)) ->
  findBestMatch seg = Ok (Some (makeMatch 0 0 (arrayLength (beforeTokens seg)) seg)).
Proof.
  intros Hkeys Hstart Hmap. unfold findBestMatch.
  destruct (beforeTokens seg) as [| t bt] eqn:Eb; [discriminate |].
  cbn [startsWithWord] in Hstart. apply negb_true_iff in Hstart.
  destruct (afterTokens seg) as [| u at_] eqn:Ea; [discriminate |].
  cbn [map] in Hkeys. injection Hkeys as Hku Hkrest.
  cbn [List.length findBestMatch_for]. rewrite Eb.
  change (JS.index (t :: bt) 0) with (Some t). cbn [option_map strictEq].
  rewrite Hstart, Hmap, ?Ea. unfold locationsOf. cbn [positionsFrom].
  rewrite <- Hku, String.eqb_refl. unfold reduce. cbn [reduceFrom].
  (* the first location pairs the two documents whole *)
  assert (getFullMatch seg 0 0 0 false =
          Ok (Some (makeMatch 0 0 (arrayLength (t :: bt)) seg))) as Hfull.
  { unfold getFullMatch. rewrite Eb, Ea, !Z.add_0_l.
    assert (arrayLength (u :: at_) = arrayLength (t :: bt)) as Hlen.
    { unfold arrayLength. cbn [List.length].
      now rewrite <- (length_map key at_), <- Hkrest, length_map. }
    rewrite Hlen.
    assert ((0 >=? arrayLength (t :: bt)) = false) as ->.
    { rewrite Z.geb_leb. apply Z.leb_gt. unfold arrayLength. cbn [List.length]. lia. }
    cbn [orb Z.eqb negb andb].
    rewrite (getFullMatch_while_same_keys (t :: bt) (u :: at_));
      [reflexivity | cbn [map]; now rewrite Hku, Hkrest | |];
      unfold arrayLength; cbn [List.length]; lia. }
  unfold findBestMatch_each at 1. cbv beta iota zeta. rewrite Hfull. cbn [bindR].
  assert ((Match.length (makeMatch 0 0 (arrayLength (t :: bt)) seg) >? 0) = true) as ->.
  { cbn [makeMatch Match.length]. rewrite Z.gtb_ltb. apply Z.ltb_lt.
    unfold arrayLength. cbn [List.length]. lia. }
  cbn [bindR].
  rewrite findBestMatch_later_locations by (rewrite Eb; reflexivity).
  cbn [bindR].
  destruct (List.length bt) eqn:En; cbn [findBestMatch_for]; [reflexivity |].
  rewrite Eb. cbn [makeMatch Match.length].
  assert ((arrayLength (t :: bt) - (0 + 1) <? arrayLength (t :: bt)) = true) as ->
    by (apply Z.ltb_lt; lia).
  reflexivity.
Qed.

Lemma findMatchingBlocks_same_keys (seg : Segment) :
  findBestMatch seg = Ok (Some (makeMatch 0 0 (arrayLength (beforeTokens seg)) seg)) ->
  beforeTokens seg <> [] ->
  findMatchingBlocks seg = Ok [makeMatch 0 0 (arrayLength (beforeTokens seg)) seg].
Proof.
  intros Hbest Hne. unfold findMatchingBlocks.
  replace (2 * List.length (beforeTokens seg) + 2)%nat
    with (S (S (2 * List.length (beforeTokens seg)))) by lia.
  cbn [findMatchingBlocks_while]. unfold findMatchingBlocks_body. rewrite Hbest.
  cbn [bindR makeMatch Match.length Match.segmentStartInBefore Match.segmentStartInAfter
       Match.segmentEndInBefore Match.segmentEndInAfter].
  assert (0 < arrayLength (beforeTokens seg)) as Hpos.
  { destruct (beforeTokens seg); [congruence |]. unfold arrayLength. cbn. lia. }
  assert ((arrayLength (beforeTokens seg) =? 0) = false) as -> by (apply Z.eqb_neq; lia).
  cbn [negb Z.gtb Z.compare andb bindR].
  assert (arrayLength (JS.sliceFrom (beforeTokens seg)
                         (0 + arrayLength (beforeTokens seg) - 1 + 1)) = 0) as ->.
  { rewrite arrayLength_suffix; lia. }
  cbn [Z.eqb negb andb bindR fst snd addToNode nodeToArray app]. reflexivity.
Qed.

Lemma gapAndEqual_at_match (pB pA : Z) (m : Match.t) :
  pB = Match.startInBefore m -> pA = Match.startInAfter m ->
  gapAndEqual pB pA m =
  if Match.length m =? 0 then []
  else [{| Operation.action := Action.equal;
           Operation.startInBefore := Match.startInBefore m;
           Operation.endInBefore := Some (Match.endInBefore m);
           Operation.startInAfter := Match.startInAfter m;
           Operation.endInAfter := Some (Match.endInAfter m) |}].
Proof.
  intros -> ->. unfold gapAndEqual, calculateOperations_each.
  rewrite !Z.eqb_refl. cbn [negb Action.eqb].
  destruct (Match.length m =? 0); reflexivity.
Qed.

Lemma safeKeysb_map (tokens : list Token) :
  safeKeysb tokens = forallb (fun k => negb (inheritedProperty k)) (map key tokens).
Proof.
  unfold safeKeysb. induction tokens as [| t tokens IH]; cbn [forallb map];
    [reflexivity | now rewrite IH].
Qed.

Lemma calculateOperations_same_keys (before after : list Token) :
  map key before = map key after ->
  safeKeysb before = true ->
  startsWithWord before = true ->
  calculateOperations (Some before) (Some after) =
  Ok [wholeEqualOperation (arrayLength before)].
Proof.
  intros Hkeys Hsafe Hstart.
  assert (safeKeysb after = true) as Hsafe'.
  { rewrite safeKeysb_map in *. now rewrite <- Hkeys. }
  apply safeKeysb_spec in Hsafe, Hsafe'.
  assert (before <> []) as Hne by (intros ->; discriminate).
  unfold calculateOperations.
  destruct (createSegment_ok before after 0 0 Hsafe Hsafe')
    as (seg & Hseg & Eb & Ea & Ebi & Eai & _).
  rewrite Hseg. cbn [bindR].
  assert (forall k, afterMap seg !! k = locationsOf k (afterTokens seg)) as Hmap.
  { unfold createSegment in Hseg.
    destruct (createMap before) as [mb | |]; try discriminate. cbn [bindR] in Hseg.
    destruct (createMap after) as [ma | |] eqn:Hma; try discriminate.
    cbn [bindR] in Hseg. injection Hseg as <-. cbn [afterMap afterTokens].
    intros k. now apply createMap_lookup_ok. }
  rewrite (findMatchingBlocks_same_keys seg);
    [| apply findBestMatch_same_keys; [now rewrite Eb, Ea | now rewrite Eb | exact Hmap]
     | now rewrite Eb].
  cbn [bindR app]. rewrite Eb.
  assert (arrayLength after = arrayLength before) as Hlen.
  { unfold arrayLength. now rewrite <- (length_map key after), <- Hkeys, length_map. }
  rewrite Hlen.
  pose proof (arrayLength_nonneg before) as H0.
  assert (0 < arrayLength before) as Hpos.
  { destruct before; [congruence |]. unfold arrayLength. cbn. lia. }
  rewrite operationsOfMatches_walk. cbn [walkOperations].
  rewrite !gapAndEqual_at_match
    by (cbn [makeMatch Match.startInBefore Match.startInAfter Match.endInBefore
             Match.endInAfter]; lia).
  cbn [makeMatch Match.length Match.startInBefore Match.startInAfter Match.endInBefore
       Match.endInAfter Z.eqb app].
  assert ((arrayLength before =? 0) = false) as -> by (apply Z.eqb_neq; lia).
  rewrite Ebi, Eai. cbn [app].
  replace (0 + 0 + arrayLength before - 1) with (arrayLength before - 1) by lia.
  rewrite Z.add_0_l.
  apply f_equal. apply postProcess_id. cbn. split; [| exact I]. intros [H _]. discriminate.
Qed.

(** X30, documents with the same keys.  When the two token lists have the
    same keys in the same order (they may differ in white space, in
    attributes, in positions), no key names an inherited property and the
    first key is not the single space, [calculateOperations] returns one
    equal operation that covers both lists whole, and rendering it gives the
    concatenated texts of the after tokens. *)
Theorem same_keys_give_one_equal_operation (before after : list Token)
        (dataPrefix className : string) :
  map key before = map key after ->
  safeKeysb before = true ->
  startsWithWord before = true ->
  calculateOperations (Some before) (Some after) =
  Ok [wholeEqualOperation (arrayLength before)] /\
  renderOperations before after [wholeEqualOperation (arrayLength before)]
    dataPrefix className = Ok (text after).
Proof.
  intros Hkeys Hsafe Hstart.
  split; [now apply calculateOperations_same_keys |].
  assert (arrayLength before = arrayLength after) as Hlen.
  { unfold arrayLength. now rewrite <- (length_map key before), Hkeys, length_map. }
  assert (after <> []) as Hne.
  { destruct before; [discriminate |]. destruct after; discriminate. }
  unfold renderOperations, reduce, wholeEqualOperation.
  cbn [reduceFrom Operation.action OPS.get]. unfold OPS.equal.
  cbn [Operation.startInAfter Operation.endInAfter bindR].
  rewrite Hlen, (opTokens_all after Hne), fold_left_text. reflexivity.
Qed.

Lemma same_keys_give_one_equal_operation_witness :
  map key [createToken "a" 0; createToken "  " 1; createToken "b" 3] =
  map key [createToken "a" 0; createToken " " 1; createToken "b" 2] /\
  safeKeysb [createToken "a" 0; createToken "  " 1; createToken "b" 3] = true /\
  startsWithWord [createToken "a" 0; createToken "  " 1; createToken "b" 3] = true /\
  calculateOperations (Some [createToken "a" 0; createToken "  " 1; createToken "b" 3])
    (Some [createToken "a" 0; createToken " " 1; createToken "b" 2]) =
  Ok [wholeEqualOperation
        (arrayLength [createToken "a" 0; createToken "  " 1; createToken "b" 3])] /\
  renderOperations [createToken "a" 0; createToken "  " 1; createToken "b" 3]
    [createToken "a" 0; createToken " " 1; createToken "b" 2]
    [wholeEqualOperation
       (arrayLength [createToken "a" 0; createToken "  " 1; createToken "b" 3])]
    EmptyString EmptyString =
  Ok (text [createToken "a" 0; createToken " " 1; createToken "b" 2]).
Proof.
  split; [vm_compute; reflexivity |].
  split; [vm_compute; reflexivity |].
  split; [vm_compute; reflexivity |].
  apply (same_keys_give_one_equal_operation
           [createToken "a" 0; createToken "  " 1; createToken "b" 3]
           [createToken "a" 0; createToken " " 1; createToken "b" 2]
           EmptyString EmptyString); vm_compute; reflexivity.
Defined.
